(** * TupleCompare: MsgPack scalar codec, tuples with field offsets, key
    definitions and tuple comparators.

    Shallow embedding of [ByteSwap.h], [MsgPack.h] and the core of [main.cpp].

    Conventions of the embedding:
    - a [uintN_t] is a [Z] with the wrap-around written out ([mod 2^N]);
    - a [char] buffer is a [list byte]; a pointer into a buffer is the buffer
      together with a [Z] position;
    - the host is little-endian (the source byte-swaps unconditionally to get
      the big-endian MsgPack wire order), so [memcpy] of an integer object
      moves its bytes least significant first;
    - a failing [assert] and an access outside the buffer are the two ways an
      operation can fail to return; they are kept apart in [error]. *)

From Stdlib Require Import ZArith List Lia Bool.
From Stdlib.Strings Require Import Byte.
Import ListNotations.
Local Open Scope Z_scope.

(** * Part I. The model *)

(** ** Results of fallible operations *)

Inductive error : Type :=
| AssertFailed
| OutOfBounds.

Inductive result (A : Type) : Type :=
| Ok (a : A)
| Err (e : error).

Arguments Ok {A} a.
Arguments Err {A} e.

Definition bind {A B : Type} (r : result A) (k : A -> result B) : result B :=
  match r with
  | Ok a => k a
  | Err e => Err e
  end.

Notation "x <- r ;; k" := (bind r (fun x => k))
  (at level 61, r at next level, right associativity).
Notation "' p <- r ;; k" := (bind r (fun p => k))
  (at level 61, p pattern, r at next level, right associativity).

Definition assert (b : bool) : result unit :=
  if b then Ok tt else Err AssertFailed.

(** ** Bytes, integer objects and buffers *)

(** A byte and the number in [0, 256) it stands for. *)
Definition byte_of_Z (z : Z) : byte :=
  match Byte.of_N (Z.to_N (z mod 256)) with
  | Some b => b
  | None => x00
  end.

Definition Z_of_byte (b : byte) : Z := Z.of_N (Byte.to_N b).

Definition zlen {A : Type} (l : list A) : Z := Z.of_nat (length l).

(** Object representation of a [w]-byte unsigned integer on the host. *)
Fixpoint le_encode (w : nat) (t : Z) : list byte :=
  match w with
  | O => []
  | S w' => byte_of_Z t :: le_encode w' (t / 256)
  end.

(** The integer whose object representation is [bs]. *)
Fixpoint le_decode (bs : list byte) : Z :=
  match bs with
  | [] => 0
  | b :: bs' => Z_of_byte b + 256 * le_decode bs'
  end.

(** [memcpy] out of a buffer: [n] bytes starting at position [p]. *)
Definition load (m : list byte) (p n : Z) : result (list byte) :=
  if (0 <=? p) && (0 <=? n) && (p + n <=? zlen m)
  then Ok (firstn (Z.to_nat n) (skipn (Z.to_nat p) m))
  else Err OutOfBounds.

(** [memcpy] into a buffer: the bytes [bs] land at position [p]. *)
Definition store (m : list byte) (p : Z) (bs : list byte) : result (list byte) :=
  if (0 <=? p) && (p + zlen bs <=? zlen m)
  then Ok (firstn (Z.to_nat p) m ++ bs ++ skipn (Z.to_nat (p + zlen bs)) m)
  else Err OutOfBounds.

(** The [n] bytes of [m] from position [p] on. *)
Definition slice (m : list byte) (p n : nat) : list byte :=
  firstn n (skipn p m).

(** The buffer [m] with the bytes [bs] put at position [p]. *)
Definition splice (m : list byte) (p : Z) (bs : list byte) : list byte :=
  firstn (Z.to_nat p) m ++ bs ++ skipn (Z.to_nat (p + zlen bs)) m.

(** ** ByteSwap.h

    [bswap] on [uint8_t] is the identity; on wider types it is the compiler
    builtin, which returns its argument with the order of its bytes
    reversed. *)

Definition bswap (w : nat) (t : Z) : Z :=
  match w with
  | 1%nat => t
  | _ => le_decode (rev (le_encode w t))
  end.

(** ** MsgPack.h *)

(** A write cursor [char *&data]: the buffer and the position in it. *)
Definition wcursor : Type := (list byte * Z)%type.

(** [mp_write<T>(data, t)] with [sizeof(T) = w]; the argument is converted
    to [T] first. *)
Definition mp_write (w : nat) (t : Z) (c : wcursor) : result wcursor :=
  let '(m, p) := c in
  let t := bswap w (t mod 2 ^ (8 * Z.of_nat w)) in
  m' <- store m p (le_encode w t);;
  Ok (m', p + Z.of_nat w).

(** [mp_read<T>(data)]: the value read and the advanced position. *)
Definition mp_read (w : nat) (m : list byte) (p : Z) : result (Z * Z) :=
  bs <- load m p (Z.of_nat w);;
  Ok (bswap w (le_decode bs), p + Z.of_nat w).

Definition UINT8_MAX : Z := 255.
Definition UINT16_MAX : Z := 65535.
Definition UINT32_MAX : Z := 4294967295.

Definition mp_encode_uint (num : Z) (c : wcursor) : result wcursor :=
  if num <=? 0x7f then
    mp_write 1 num c
  else if num <=? UINT8_MAX then
    c <- mp_write 1 0xcc c;;
    mp_write 1 num c
  else if num <=? UINT16_MAX then
    c <- mp_write 1 0xcd c;;
    mp_write 2 num c
  else if num <=? UINT32_MAX then
    c <- mp_write 1 0xce c;;
    mp_write 4 num c
  else
    c <- mp_write 1 0xcf c;;
    mp_write 8 num c.

Definition mp_decode_uint (m : list byte) (p : Z) : result (Z * Z) :=
  '(c, p) <- mp_read 1 m p;;
  if c =? 0xcc then mp_read 1 m p
  else if c =? 0xcd then mp_read 2 m p
  else if c =? 0xce then mp_read 4 m p
  else if c =? 0xcf then mp_read 8 m p
  else
    _ <- assert (c <=? 0x7f);;
    Ok (c, p).

(** [mp_encode_string(data, string, len)]: [string] is the memory the source
    pointer gives access to, [len] the [uint32_t] byte count. *)
Definition mp_encode_string (string : list byte) (len : Z) (c : wcursor)
  : result wcursor :=
  c <-
    (if len <=? 31 then
       mp_write 1 (Z.lor 0xa0 len) c
     else if len <=? UINT8_MAX then
       c <- mp_write 1 0xd9 c;;
       mp_write 1 len c
     else if len <=? UINT16_MAX then
       c <- mp_write 1 0xda c;;
       mp_write 2 len c
     else
       c <- mp_write 1 0xdb c;;
       mp_write 4 len c);;
  let '(m, p) := c in
  bs <- load string 0 len;;
  m' <- store m p bs;;
  Ok (m', p + len).

(** [mp_decode_string(data, len)]: the position of the string bytes, [len],
    and the advanced position. *)
Definition mp_decode_string (m : list byte) (p : Z) : result (Z * Z * Z) :=
  '(c, p) <- mp_read 1 m p;;
  '(len, p) <-
    (if c =? 0xd9 then mp_read 1 m p
     else if c =? 0xda then mp_read 2 m p
     else if c =? 0xdb then mp_read 4 m p
     else
       _ <- assert ((0xa0 <=? c) && (c <=? 0xbf));;
       Ok (Z.land c 0x1f, p));;
  Ok (p, len, p + len).

(** ** main.cpp: Tuple *)

Definition MAX_NUM_FIELDS_IN_KEY : Z := 16.
Definition TEST_FIELD_COUNT_IN_TUPLE : Z := 16.
Definition MAX_TEST_TUPLE_DATA_SIZE : Z := 16 * TEST_FIELD_COUNT_IN_TUPLE.

(** [sizeof(Tuple::offset_t)], [offset_t] being [uint32_t]. *)
Definition sizeof_offset_t : Z := 4.

Record Tuple : Type := mkTuple {
  field_count : Z;          (* uint32_t *)
  data_used : Z;            (* uint32_t *)
  num_offsets : Z;          (* uint32_t *)
  first_field_offset : Z;   (* uint16_t *)
  some_useful_data : Z;     (* uint16_t *)
  data : list byte          (* char[MAX_TEST_TUPLE_DATA_SIZE] *)
}.

(** [get_offset(i)] used as an rvalue: [((offset_t * )data)[i - 1]]. *)
Definition get_offset (t : Tuple) (i : Z) : result Z :=
  _ <- assert (0 <? i);;
  bs <- load (data t) (sizeof_offset_t * (i - 1)) sizeof_offset_t;;
  Ok (le_decode bs).

(** [get_offset(i) = v]: the buffer after the assignment. *)
Definition set_offset (m : list byte) (i : Z) (v : Z) : result (list byte) :=
  _ <- assert (0 <? i);;
  store m (sizeof_offset_t * (i - 1)) (le_encode 4 (v mod 2 ^ 32)).

(** [get_field(i)]: the position in [data] the returned pointer designates. *)
Definition get_field (t : Tuple) (i : Z) : result Z :=
  if i =? 0 then Ok (first_field_offset t)
  else get_offset t i.

Definition reset (t : Tuple) (a_num_offsets : Z) : result Tuple :=
  _ <- assert (0 <? a_num_offsets);;
  Ok {| field_count := 0;
        data_used := (((a_num_offsets - 1) mod 2 ^ 32) * sizeof_offset_t) mod 2 ^ 32;
        num_offsets := a_num_offsets;
        first_field_offset := first_field_offset t;
        some_useful_data := some_useful_data t;
        data := data t |}.

(** The part the two [add] overloads share, after the value was encoded:
    [m] is the buffer and [p] the position the encoder left. *)
Definition save_offset (t : Tuple) (m : list byte) (p : Z) : result Tuple :=
  '(ffo, m) <-
    (if field_count t =? 0 then Ok (data_used t mod 2 ^ 16, m)
     else if field_count t <? num_offsets t then
       m' <- set_offset m (field_count t) (data_used t);;
       Ok (first_field_offset t, m')
     else Ok (first_field_offset t, m));;
  Ok {| field_count := (field_count t + 1) mod 2 ^ 32;
        data_used := p mod 2 ^ 32;
        num_offsets := num_offsets t;
        first_field_offset := ffo;
        some_useful_data := some_useful_data t;
        data := m |}.

(** [add(uint64_t value)] *)
Definition add_uint (t : Tuple) (value : Z) : result Tuple :=
  '(m, p) <- mp_encode_uint value (data t, data_used t);;
  save_offset t m p.

(** [add(const char *string, uint32_t len)] *)
Definition add_string (t : Tuple) (string : list byte) (len : Z) : result Tuple :=
  '(m, p) <- mp_encode_string string len (data t, data_used t);;
  save_offset t m p.

(** A value handed to [add]. *)
Inductive field_value : Type :=
| FUint (value : Z)
| FString (string : list byte).

Definition add (t : Tuple) (f : field_value) : result Tuple :=
  match f with
  | FUint value => add_uint t value
  | FString string => add_string t string (zlen string)
  end.

Fixpoint add_all (t : Tuple) (fs : list field_value) : result Tuple :=
  match fs with
  | [] => Ok t
  | f :: fs' => t' <- add t f;; add_all t' fs'
  end.

(** [reset(k)] followed by the appends [fs], in order. *)
Definition build (t0 : Tuple) (k : Z) (fs : list field_value) : result Tuple :=
  t <- reset t0 k;;
  add_all t fs.

(** ** main.cpp: KeyDef and the comparators *)

Inductive field_type_t : Type := UINT | STRING | UNDEFINED.

Definition field_type_eqb (a b : field_type_t) : bool :=
  match a, b with
  | UINT, UINT | STRING, STRING | UNDEFINED, UNDEFINED => true
  | _, _ => false
  end.

Record KeyPart : Type := mkKeyPart {
  field_type : field_type_t;
  field_no : Z              (* size_t *)
}.

(** The function [tuple_compare_f] points to. *)
Inductive compare_fn : Type :=
| DefaultTupleCompare
| TupleCompareByFirstUint.

Record KeyDef : Type := mkKeyDef {
  part_count : Z;           (* size_t *)
  parts : list KeyPart;     (* KeyPart[MAX_NUM_FIELDS_IN_KEY], the entries
                               that were assigned *)
  tuple_compare_f : compare_fn
}.

(** [def->parts[i]] *)
Definition part_at (def : KeyDef) (i : Z) : result KeyPart :=
  if (0 <=? i) && (i <? MAX_NUM_FIELDS_IN_KEY) then
    match nth_error (parts def) (Z.to_nat i) with
    | Some p => Ok p
    | None => Err OutOfBounds
    end
  else Err OutOfBounds.

(** What [memcmp] returns on two byte sequences of one length: the C standard
    fixes the sign (that of the difference of the first pair of differing
    bytes, as [unsigned char]); the model returns that difference. *)
Fixpoint memcmp_bytes (s1 s2 : list byte) : Z :=
  match s1, s2 with
  | a :: s1', b :: s2' =>
      if Z_of_byte a =? Z_of_byte b then memcmp_bytes s1' s2'
      else Z_of_byte a - Z_of_byte b
  | _, _ => 0
  end.

Definition memcmp (m1 : list byte) (p1 : Z) (m2 : list byte) (p2 : Z) (n : Z)
  : result Z :=
  s1 <- load m1 p1 n;;
  s2 <- load m2 p2 n;;
  Ok (memcmp_bytes s1 s2).

(** The test [i == 0 || parts[i].field_no != parts[i - 1].field_no + 1];
    the sum is taken in [size_t], 64 bits wide. *)
Definition must_reposition (def : KeyDef) (i : Z) : result bool :=
  if i =? 0 then Ok true
  else
    cur <- part_at def i;;
    prev <- part_at def (i - 1);;
    Ok (negb (field_no cur =? (field_no prev + 1) mod 2 ^ 64)).

(** The conditional repositioning at the head of the loop body: the cursors
    for [tuple1] and [tuple2] the rest of the body works with. *)
Definition position_cursors (def : KeyDef) (tuple1 tuple2 : Tuple)
    (i : Z) (part : KeyPart) (part1 part2 : Z) : result (Z * Z) :=
  repos <- must_reposition def i;;
  if repos : bool then
    p1 <- get_field tuple1 (field_no part);;
    p2 <- get_field tuple2 (field_no part);;
    Ok (p1, p2)
  else Ok (part1, part2).

(** What one run of the loop body ends in: a [return], or the next
    iteration with the cursors the decoders left. *)
Inductive step_result : Type :=
| Return (r : Z)
| Continue (part1 part2 : Z).

(** The second half of the loop body: decode one field of each tuple at the
    cursors and compare the values, [ty] being the field type the [if]
    tests. *)
Definition compare_fields (ty : field_type_t) (tuple1 tuple2 : Tuple)
    (part1 part2 : Z) : result step_result :=
  if field_type_eqb ty UINT then
    '(value1, part1) <- mp_decode_uint (data tuple1) part1;;
    '(value2, part2) <- mp_decode_uint (data tuple2) part2;;
    if value1 <? value2 then Ok (Return (-1))
    else if value1 >? value2 then Ok (Return 1)
    else Ok (Continue part1 part2)
  else
    '(string1, len1, part1) <- mp_decode_string (data tuple1) part1;;
    '(string2, len2, part2) <- mp_decode_string (data tuple2) part2;;
    let min_len := if len1 <? len2 then len1 else len2 in
    r <- memcmp (data tuple1) string1 (data tuple2) string2 min_len;;
    if negb (r =? 0) then Ok (Return r)
    else if len1 <? len2 then Ok (Return (-1))
    else if len1 >? len2 then Ok (Return 1)
    else Ok (Continue part1 part2).

(** The loop of [default_tuple_compare]: [n] iterations remain, [i] is the
    loop variable, [part1] and [part2] the two cursors.  The type tested is
    that of [def->parts[0]]. *)
Fixpoint compare_parts (def : KeyDef) (tuple1 tuple2 : Tuple)
    (n : nat) (i : Z) (part1 part2 : Z) : result Z :=
  match n with
  | O => Ok 0
  | S n' =>
    part <- part_at def i;;
    '(part1, part2) <- position_cursors def tuple1 tuple2 i part part1 part2;;
    part0 <- part_at def 0;;
    s <- compare_fields (field_type part0) tuple1 tuple2 part1 part2;;
    match s with
    | Return r => Ok r
    | Continue part1 part2 =>
        compare_parts def tuple1 tuple2 n' (i + 1) part1 part2
    end
  end.

(** The cursors are not initialised before the loop; the first iteration
    always assigns them, so the initial value is never read. *)
Definition default_tuple_compare (def : KeyDef) (tuple1 tuple2 : Tuple)
  : result Z :=
  _ <- assert (0 <? part_count def);;
  compare_parts def tuple1 tuple2 (Z.to_nat (part_count def)) 0 0 0.

Definition tuple_compare_by_first_uint (def : KeyDef) (tuple1 tuple2 : Tuple)
  : result Z :=
  let part1 := first_field_offset tuple1 in
  let part2 := first_field_offset tuple2 in
  '(value1, _) <- mp_decode_uint (data tuple1) part1;;
  '(value2, _) <- mp_decode_uint (data tuple2) part2;;
  Ok (if value1 <? value2 then -1 else if value1 >? value2 then 1 else 0).

(** [def->tuple_compare_f(def, tuple1, tuple2)] *)
Definition call_tuple_compare (def : KeyDef) (tuple1 tuple2 : Tuple)
  : result Z :=
  match tuple_compare_f def with
  | DefaultTupleCompare => default_tuple_compare def tuple1 tuple2
  | TupleCompareByFirstUint => tuple_compare_by_first_uint def tuple1 tuple2
  end.

(** ** The wire format, as the format table gives it *)

(** Big-endian byte sequence of a [w]-byte integer, most significant byte
    first. *)
Fixpoint be_bytes (w : nat) (v : Z) : list byte :=
  match w with
  | O => []
  | S w' => byte_of_Z (v / 2 ^ (8 * Z.of_nat w')) :: be_bytes w' v
  end.

(** The value a big-endian byte sequence denotes. *)
Definition be_value (bs : list byte) : Z := le_decode (rev bs).

Inductive uint_form : Type := FixInt | UInt8 | UInt16 | UInt32 | UInt64.

(** Number of bytes a form takes on the wire. *)
Definition form_size (f : uint_form) : Z :=
  match f with
  | FixInt => 1 | UInt8 => 2 | UInt16 => 3 | UInt32 => 5 | UInt64 => 9
  end.

(** Largest value a form is able to represent. *)
Definition form_max (f : uint_form) : Z :=
  match f with
  | FixInt => 0x7f
  | UInt8 => 0xFF
  | UInt16 => 0xFFFF
  | UInt32 => 0xFFFFFFFF
  | UInt64 => 2 ^ 64 - 1
  end.

(** Bytes of [v] in a given form: marker, then the big-endian payload. *)
Definition form_bytes (f : uint_form) (v : Z) : list byte :=
  match f with
  | FixInt => [byte_of_Z v]
  | UInt8 => byte_of_Z 0xcc :: be_bytes 1 v
  | UInt16 => byte_of_Z 0xcd :: be_bytes 2 v
  | UInt32 => byte_of_Z 0xce :: be_bytes 4 v
  | UInt64 => byte_of_Z 0xcf :: be_bytes 8 v
  end.

(** The first form of the table whose condition [v] meets. *)
Definition uint_form_of (v : Z) : uint_form :=
  if v <=? 0x7f then FixInt
  else if v <=? 0xFF then UInt8
  else if v <=? 0xFFFF then UInt16
  else if v <=? 0xFFFFFFFF then UInt32
  else UInt64.

(** Wire bytes of the integer [v]. *)
Definition uint_wire (v : Z) : list byte := form_bytes (uint_form_of v) v.

(** Marker and length field of a string of [len] bytes. *)
Definition string_header (len : Z) : list byte :=
  if len <=? 31 then [byte_of_Z (Z.lor 0xa0 len)]
  else if len <=? 0xFF then byte_of_Z 0xd9 :: be_bytes 1 len
  else if len <=? 0xFFFF then byte_of_Z 0xda :: be_bytes 2 len
  else byte_of_Z 0xdb :: be_bytes 4 len.

(** Wire bytes of the string [s]: header, then the raw bytes. *)
Definition string_wire (s : list byte) : list byte :=
  string_header (zlen s) ++ s.

(** The markers each decoder recognises. *)
Definition uint_marker (c : Z) : Prop :=
  c <= 0x7f \/ c = 0xcc \/ c = 0xcd \/ c = 0xce \/ c = 0xcf.

Definition string_marker (c : Z) : Prop :=
  0xa0 <= c <= 0xbf \/ c = 0xd9 \/ c = 0xda \/ c = 0xdb.

(** Wire bytes of a field value. *)
Definition field_wire (f : field_value) : list byte :=
  match f with
  | FUint v => uint_wire v
  | FString s => string_wire s
  end.

(** The values the two [add] overloads accept by their types. *)
Definition valid_field (f : field_value) : Prop :=
  match f with
  | FUint v => 0 <= v < 2 ^ 64
  | FString s => zlen s < 2 ^ 32
  end.

(** Wire bytes of a sequence of fields, one after the other. *)
Definition payload (fs : list field_value) : list byte :=
  concat (map field_wire fs).

(** The encoder [add] runs for a value. *)
Definition encode_field (f : field_value) (c : wcursor) : result wcursor :=
  match f with
  | FUint v => mp_encode_uint v c
  | FString s => mp_encode_string s (zlen s) c
  end.

(** ** Layout of a record built by [reset] and appends *)

(** Bytes taken by the offset slots of fields [1 .. k-1]. *)
Definition slots_size (k : Z) : Z := sizeof_offset_t * (k - 1).

(** Where the encoding of field [i] begins when the fields lie one after
    the other behind the slots. *)
Definition field_pos (k : Z) (fs : list field_value) (i : Z) : Z :=
  slots_size k + zlen (payload (firstn (Z.to_nat i) fs)).

(** The state of a tuple after [reset k] and the appends [fs], when slots
    and fields fit in the buffer. *)
Record tuple_inv (k : Z) (fs : list field_value) (t : Tuple) : Prop := {
  inv_len : zlen (data t) = MAX_TEST_TUPLE_DATA_SIZE;
  inv_k : 1 <= k;
  inv_num : num_offsets t = k;
  inv_count : field_count t = zlen fs;
  inv_used : data_used t = slots_size k + zlen (payload fs);
  inv_fit : slots_size k + zlen (payload fs) <= MAX_TEST_TUPLE_DATA_SIZE;
  inv_first : fs <> [] -> first_field_offset t = slots_size k;
  inv_payload :
    load (data t) (slots_size k) (zlen (payload fs)) = Ok (payload fs);
  inv_slots :
    forall i, 1 <= i < k -> i < zlen fs ->
    get_offset t i = Ok (field_pos k fs i)
}.

(** The write cursor at the moment field [i] is appended, that is, the
    position at which [add] starts to encode field [i]. *)
Definition encoding_begins (t0 : Tuple) (k : Z) (fs : list field_value)
    (i : Z) : result Z :=
  t <- build t0 k (firstn (Z.to_nat i) fs);;
  Ok (data_used t).

(** A record built by [reset k] and the appends [fs], the offset slots
    fitting in the buffer and the appended values being of the argument
    types of [add]. *)
Definition built (k : Z) (fs : list field_value) (t : Tuple) : Prop :=
  exists t0,
    zlen (data t0) = MAX_TEST_TUPLE_DATA_SIZE /\
    1 <= k /\
    slots_size k <= MAX_TEST_TUPLE_DATA_SIZE /\
    Forall valid_field fs /\
    build t0 k fs = Ok t.

(** Key part [part] names a field both records hold inside their indexed
    prefix. *)
Definition in_prefix (k1 : Z) (fs1 : list field_value)
    (k2 : Z) (fs2 : list field_value) (part : KeyPart) : Prop :=
  0 <= field_no part /\
  field_no part < k1 /\ field_no part < zlen fs1 /\
  field_no part < k2 /\ field_no part < zlen fs2.

(** The cursors entering iteration [i] are usable: when the body does not
    reposition them, they are at the field key part [i] names. *)
Definition cursors_ready (k1 k2 : Z) (fs1 fs2 : list field_value)
    (def : KeyDef) (i p1 p2 : Z) : Prop :=
  must_reposition def i = Ok false ->
  forall part, part_at def i = Ok part ->
  p1 = field_pos k1 fs1 (field_no part) /\
  p2 = field_pos k2 fs2 (field_no part).

(** ** Comparators and orders the code is compared with *)

(** [default_tuple_compare] without the cursor reuse: [get_field] is called
    for both tuples in every iteration; nothing else differs. *)
Fixpoint reference_compare_parts (def : KeyDef) (tuple1 tuple2 : Tuple)
    (n : nat) (i : Z) : result Z :=
  match n with
  | O => Ok 0
  | S n' =>
    part <- part_at def i;;
    part1 <- get_field tuple1 (field_no part);;
    part2 <- get_field tuple2 (field_no part);;
    part0 <- part_at def 0;;
    s <- compare_fields (field_type part0) tuple1 tuple2 part1 part2;;
    match s with
    | Return r => Ok r
    | Continue _ _ => reference_compare_parts def tuple1 tuple2 n' (i + 1)
    end
  end.

Definition reference_tuple_compare (def : KeyDef) (tuple1 tuple2 : Tuple)
  : result Z :=
  _ <- assert (0 <? part_count def);;
  reference_compare_parts def tuple1 tuple2 (Z.to_nat (part_count def)) 0.

(** [default_tuple_compare] with one change: the field of key part [i] is
    decoded with the type key part [i] declares ("Each part stores field_no
    and that field type"), not with that of part 0. *)
Fixpoint per_part_compare_parts (def : KeyDef) (tuple1 tuple2 : Tuple)
    (n : nat) (i : Z) (part1 part2 : Z) : result Z :=
  match n with
  | O => Ok 0
  | S n' =>
    part <- part_at def i;;
    '(part1, part2) <- position_cursors def tuple1 tuple2 i part part1 part2;;
    s <- compare_fields (field_type part) tuple1 tuple2 part1 part2;;
    match s with
    | Return r => Ok r
    | Continue part1 part2 =>
        per_part_compare_parts def tuple1 tuple2 n' (i + 1) part1 part2
    end
  end.

Definition per_part_tuple_compare (def : KeyDef) (tuple1 tuple2 : Tuple)
  : result Z :=
  _ <- assert (0 <? part_count def);;
  per_part_compare_parts def tuple1 tuple2 (Z.to_nat (part_count def)) 0 0 0.

(** Byte-wise comparison of two byte sequences of one length. *)
Fixpoint compare_bytes (s1 s2 : list byte) : comparison :=
  match s1, s2 with
  | a :: s1', b :: s2' =>
      match Z_of_byte a ?= Z_of_byte b with
      | Eq => compare_bytes s1' s2'
      | c => c
      end
  | _, _ => Eq
  end.

(** Lexicographic string order: byte-wise over the shorter length, the
    shorter string less when the common prefix is equal. *)
Definition compare_string (s1 s2 : list byte) : comparison :=
  let n := Nat.min (length s1) (length s2) in
  match compare_bytes (firstn n s1) (firstn n s2) with
  | Eq => zlen s1 ?= zlen s2
  | c => c
  end.

(** What one run of the loop body has to end in for two fields that compare
    as [c]: a negative or a positive result, or the next iteration with the
    cursors [next1], [next2]. *)
Definition step_agrees (c : comparison) (s : step_result) (next1 next2 : Z)
  : Prop :=
  match c with
  | Lt => exists r, s = Return r /\ r < 0
  | Gt => exists r, s = Return r /\ 0 < r
  | Eq => s = Continue next1 next2
  end.

(** Lexicographic comparison of two lists under the comparison [cmp] of
    their elements, a proper prefix being less. *)
Fixpoint lex {A : Type} (cmp : A -> A -> comparison) (l1 l2 : list A)
  : comparison :=
  match l1, l2 with
  | [], [] => Eq
  | [], _ :: _ => Lt
  | _ :: _, [] => Gt
  | a :: l1', b :: l2' =>
      match cmp a b with
      | Eq => lex cmp l1' l2'
      | c => c
      end
  end.

(** Order of two bytes as [unsigned char]. *)
Definition byte_compare (a b : byte) : comparison :=
  Z_of_byte a ?= Z_of_byte b.

(** A field holds a value of the declared type. *)
Definition has_type (ty : field_type_t) (f : field_value) : Prop :=
  match ty, f with
  | UINT, FUint _ => True
  | STRING, FString _ => True
  | _, _ => False
  end.

(** Order of two field values: integers by value, strings
    lexicographically; an integer is put before a string. *)
Definition compare_values (f1 f2 : field_value) : comparison :=
  match f1, f2 with
  | FUint a, FUint b => a ?= b
  | FString a, FString b => lex byte_compare a b
  | FUint _, FString _ => Lt
  | FString _, FUint _ => Gt
  end.

(** The field a key part selects. *)
Definition select (fs : list field_value) (part : KeyPart) : field_value :=
  nth (Z.to_nat (field_no part)) fs (FUint 0).

(** The key of a record: the fields the parts select, in the order of the
    parts. *)
Definition key_of (def : KeyDef) (fs : list field_value) : list field_value :=
  map (select fs) (firstn (Z.to_nat (part_count def)) (parts def)).

(** A record, given by the size [k] of its indexed prefix and its fields
    [fs], holds in every field the definition references, inside the prefix,
    a value of the type the key part declares. *)
Definition conforms (def : KeyDef) (k : Z) (fs : list field_value) : Prop :=
  forall j, 0 <= j < part_count def ->
  exists part f,
    part_at def j = Ok part /\
    0 <= field_no part < k /\
    nth_error fs (Z.to_nat (field_no part)) = Some f /\
    has_type (field_type part) f.

(** All parts declare one type, UINT or STRING. *)
Definition homogeneous (def : KeyDef) (ty : field_type_t) : Prop :=
  (ty = UINT \/ ty = STRING) /\
  forall j part, 0 <= j < part_count def -> part_at def j = Ok part ->
  field_type part = ty.

(** The ordering a comparator result stands for. *)
Definition ordering (r : result Z) : option comparison :=
  match r with
  | Ok z => Some (z ?= 0)
  | Err _ => None
  end.

(** The fields selected by the [n] parts from part [i] on. *)
Definition keys_from (def : KeyDef) (fs : list field_value) (i : Z) (n : nat)
  : list field_value :=
  map (select fs) (firstn n (skipn (Z.to_nat i) (parts def))).

(** ** Sample buffers, records and key definitions *)

(** A string literal as bytes. *)
Definition bytes_of (l : list Z) : list byte := map byte_of_Z l.

Definition zero_data : list byte :=
  repeat x00 (Z.to_nat MAX_TEST_TUPLE_DATA_SIZE).

(** An element of the static array [tuples], zero-initialised. *)
Definition blank_tuple : Tuple :=
  {| field_count := 0; data_used := 0; num_offsets := 0;
     first_field_offset := 0; some_useful_data := 0; data := zero_data |}.

Definition hello : list byte := bytes_of [104; 101; 108; 108; 111].

Definition scenario1_fields : list field_value := [FUint 42; FString hello].

(** A number of slots whose byte size wraps around in [reset]. *)
Definition wrapping_num_offsets : Z := 2 ^ 30 + 1.

(** Five fields of one byte each. *)
Definition five_nines : list field_value :=
  [FUint 9; FUint 9; FUint 9; FUint 9; FUint 9].

(** The tuple [build] returns on the blank tuple. *)
Definition build_or_blank (k : Z) (fs : list field_value) : Tuple :=
  match build blank_tuple k fs with
  | Ok t => t
  | Err _ => blank_tuple
  end.

(** The tuple holding one field, 42, built with two slots. *)
Definition one_field_tuple : Tuple :=
  Eval vm_compute in build_or_blank 2 [FUint 42].

(** The three key definitions of [main]. *)
Definition first_uint_def : KeyDef :=
  mkKeyDef 1 [mkKeyPart UINT 0] DefaultTupleCompare.

Definition sequential_uint_def : KeyDef :=
  mkKeyDef 2 [mkKeyPart UINT 1; mkKeyPart UINT 2] DefaultTupleCompare.

Definition string_pair_def : KeyDef :=
  mkKeyDef 2 [mkKeyPart STRING 2; mkKeyPart STRING 1] DefaultTupleCompare.

(** Consecutive parts starting at field 0. *)
Definition leading_uints_def : KeyDef :=
  mkKeyDef 2 [mkKeyPart UINT 0; mkKeyPart UINT 1] DefaultTupleCompare.

(** A key over an integer field and the string field that follows it. *)
Definition uint_then_string_def : KeyDef :=
  mkKeyDef 2 [mkKeyPart UINT 0; mkKeyPart STRING 1] DefaultTupleCompare.

Definition single_string_def : KeyDef :=
  mkKeyDef 1 [mkKeyPart STRING 0] DefaultTupleCompare.

Definition tuple_123 : Tuple :=
  Eval vm_compute in build_or_blank 3 [FUint 1; FUint 2; FUint 3].

Definition tuple_124 : Tuple :=
  Eval vm_compute in build_or_blank 3 [FUint 1; FUint 2; FUint 4].

Definition tuple_5 : Tuple := Eval vm_compute in build_or_blank 1 [FUint 5].

Definition tuple_300 : Tuple := Eval vm_compute in build_or_blank 1 [FUint 300].

(** Six one-byte fields behind no slot at all ([reset 1]). *)
Definition unindexed_9 : Tuple :=
  Eval vm_compute in
    build_or_blank 1 [FUint 5; FUint 0; FUint 0; FUint 0; FUint 0; FUint 9].

Definition unindexed_7 : Tuple :=
  Eval vm_compute in
    build_or_blank 1 [FUint 5; FUint 0; FUint 0; FUint 0; FUint 0; FUint 7].

(** A record with an integer in field 0 and a string in field 1. *)
Definition tuple_7_a : Tuple :=
  Eval vm_compute in build_or_blank 2 [FUint 7; FString (bytes_of [97])].

(** Records with the integer 7 in field 0 and a string in field 1. *)
Definition tuple_7_ab : Tuple :=
  Eval vm_compute in build_or_blank 2 [FUint 7; FString (bytes_of [97; 98])].

Definition tuple_7_abc : Tuple :=
  Eval vm_compute in
    build_or_blank 2 [FUint 7; FString (bytes_of [97; 98; 99])].

(** A key on the string in field 1 alone. *)
Definition second_string_def : KeyDef :=
  mkKeyDef 1 [mkKeyPart STRING 1] DefaultTupleCompare.

(** The comparator on two records of one string field each. *)
Definition compare_one_string (s1 s2 : list byte) : result Z :=
  t1 <- build blank_tuple 1 [FString s1];;
  t2 <- build blank_tuple 1 [FString s2];;
  default_tuple_compare single_string_def t1 t2.

Definition tuple_b_ab : Tuple :=
  Eval vm_compute in
    build_or_blank 3
      [FUint 1; FString (bytes_of [98]); FString (bytes_of [97; 98])].

Definition tuple_b_abc : Tuple :=
  Eval vm_compute in
    build_or_blank 3
      [FUint 1; FString (bytes_of [98]); FString (bytes_of [97; 98; 99])].

Definition tuple_c_ab : Tuple :=
  Eval vm_compute in
    build_or_blank 3
      [FUint 1; FString (bytes_of [99]); FString (bytes_of [97; 98])].

(** A key on field 1 alone. *)
Definition second_uint_def : KeyDef :=
  mkKeyDef 1 [mkKeyPart UINT 1] DefaultTupleCompare.

(** Five integers and a string behind no slot at all ([reset 1]). *)
Definition unindexed_a : Tuple :=
  Eval vm_compute in
    build_or_blank 1
      [FUint 5; FUint 0; FUint 0; FUint 0; FUint 0; FString (bytes_of [97])].

(** ** Decoding the fields of a record one after the other *)

(** The type a value is encoded as. *)
Definition type_of (f : field_value) : field_type_t :=
  match f with
  | FUint _ => UINT
  | FString _ => STRING
  end.

(** One field read the way the loop body of [default_tuple_compare] reads
    it for the type [ty]: the decoder for [ty], and for a string the bytes
    of the view it returns; the value and the advanced cursor. *)
Definition decode_field (ty : field_type_t) (m : list byte) (p : Z)
  : result (field_value * Z) :=
  if field_type_eqb ty UINT then
    '(value, p) <- mp_decode_uint m p;;
    Ok (FUint value, p)
  else
    '(string, len, p) <- mp_decode_string m p;;
    s <- load m string len;;
    Ok (FString s, p).

(** Fields of the types [tys] decoded in sequence, each from the cursor the
    one before left. *)
Fixpoint decode_fields (tys : list field_type_t) (m : list byte) (p : Z)
  : result (list field_value * Z) :=
  match tys with
  | [] => Ok ([], p)
  | ty :: tys' =>
      '(f, p) <- decode_field ty m p;;
      '(fs, p) <- decode_fields tys' m p;;
      Ok (f :: fs, p)
  end.

(** The outcome of the loop body with the two tuples exchanged. *)
Definition swap_step (s : step_result) : step_result :=
  match s with
  | Return r => Return (- r)
  | Continue p1 p2 => Continue p2 p1
  end.

(** ** main.cpp: bench_key_def, the part before the timed loop *)

(** [a[i]] on a local array. *)
Definition array_get {A : Type} (a : list A) (i : Z) : result A :=
  if 0 <=? i then
    match nth_error a (Z.to_nat i) with
    | Some x => Ok x
    | None => Err OutOfBounds
    end
  else Err OutOfBounds.

Fixpoint list_set {A : Type} (a : list A) (i : nat) (x : A) : list A :=
  match a, i with
  | [], _ => []
  | _ :: a', O => x :: a'
  | y :: a', S i' => y :: list_set a' i' x
  end.

(** [a[i] = x] on a local array. *)
Definition array_set {A : Type} (a : list A) (i : Z) (x : A)
  : result (list A) :=
  if (0 <=? i) && (i <? zlen a) then Ok (list_set a (Z.to_nat i) x)
  else Err OutOfBounds.

(** The loop over the key parts at the head of [bench_key_def]: [n]
    iterations remain, [i] is the loop variable, [types] the array
    [field_type] and [max_field_no] the running maximum. *)
Fixpoint scan_parts (def : KeyDef) (n : nat) (i : Z)
    (types : list field_type_t) (max_field_no : Z)
  : result (list field_type_t * Z) :=
  match n with
  | O => Ok (types, max_field_no)
  | S n' =>
    part <- part_at def i;;
    let field_no := field_no part in
    _ <- assert (field_no <? TEST_FIELD_COUNT_IN_TUPLE);;
    ty <- array_get types field_no;;
    _ <- assert (field_type_eqb ty UNDEFINED);;
    types <- array_set types field_no (field_type part);;
    ty <- array_get types field_no;;
    _ <- assert (negb (field_type_eqb ty UNDEFINED));;
    let max_field_no :=
      if (i =? 0) || (field_no >? max_field_no) then field_no
      else max_field_no in
    scan_parts def n' (i + 1) types max_field_no
  end.

(** The array [field_type] and [max_field_no] as the generation loop finds
    them. *)
Definition scan_key_def (def : KeyDef) : result (list field_type_t * Z) :=
  scan_parts def (Z.to_nat (part_count def)) 0
    (repeat UNDEFINED (Z.to_nat TEST_FIELD_COUNT_IN_TUPLE)) 0.

(** The generation of the tuples calls [rand]; [rand c] stands for the
    result of the call number [c], and the number of calls made so far is
    passed along.  [junk c] is what the uninitialised [char string[16]]
    holds when it is declared after [c] calls of [rand]. *)

(** The loop [for (k = 0; k < len; k++) string[k] = 'a' + rand() % 20]:
    [n] iterations remain. *)
Fixpoint fill_string (rand : nat -> Z) (string : list byte) (n : nat)
    (k : Z) (c : nat) : result (list byte * nat) :=
  match n with
  | O => Ok (string, c)
  | S n' =>
    string <- array_set string k (byte_of_Z (97 + rand c mod 20));;
    fill_string rand string n' (k + 1) (S c)
  end.

(** The body of the loop over [j]: one field of type [ty = field_type[j]]
    generated and appended. *)
Definition gen_field (rand : nat -> Z) (junk : nat -> list byte)
    (ty : field_type_t) (t : Tuple) (c : nat) : result (Tuple * nat) :=
  let '(generate_type, c) :=
    if field_type_eqb ty UNDEFINED
    then (if negb (rand c mod 2 =? 0) then UINT else STRING, S c)
    else (ty, c) in
  if field_type_eqb generate_type UINT then
    let value := rand c in
    t <- add_uint t value;;
    Ok (t, S c)
  else
    let len := (3 + rand c mod 6) mod 2 ^ 32 in
    '(string, c) <- fill_string rand (junk c) (Z.to_nat len) 0 (S c);;
    t <- add_string t string len;;
    Ok (t, c).

Fixpoint gen_fields (rand : nat -> Z) (junk : nat -> list byte)
    (types : list field_type_t) (t : Tuple) (c : nat)
  : result (Tuple * nat) :=
  match types with
  | [] => Ok (t, c)
  | ty :: types' =>
    '(t, c) <- gen_field rand junk ty t c;;
    gen_fields rand junk types' t c
  end.

(** One iteration of the loop over the tuples: [tuples[i]] is reset and
    filled with [TEST_FIELD_COUNT_IN_TUPLE] fields. *)
Definition gen_tuple (rand : nat -> Z) (junk : nat -> list byte)
    (types : list field_type_t) (max_field_no : Z) (t : Tuple) (c : nat)
  : result (Tuple * nat) :=
  t <- reset t ((max_field_no + 1) mod 2 ^ 32);;
  gen_fields rand junk types t c.

(** A field as the generation loop produces it for the entry [ty] of
    [field_type]: of that type when it is defined, an integer [rand]
    returned or a string of 3 to 8 bytes. *)
Definition generated (ty : field_type_t) (f : field_value) : Prop :=
  match f with
  | FUint v => ty <> STRING /\ 0 <= v < 2 ^ 31
  | FString s => ty <> UINT /\ 3 <= zlen s <= 8
  end.

(** A linear congruential sequence, as a sample of [rand]. *)
Definition sample_rand (c : nat) : Z :=
  (Z.of_nat c * 1103515245 + 12345) mod 2 ^ 31.

(** What the scan has established after the parts [0 .. i-1]: every part
    scanned names a field below 16 and at most [max_field_no], declares a
    type other than UNDEFINED which [types] holds at that field; no two
    parts scanned name one field; [max_field_no] is named by a part
    scanned, or is 0 when none was. *)
Definition scan_inv (def : KeyDef) (i : Z) (types : list field_type_t)
    (max_field_no : Z) : Prop :=
  length types = 16%nat /\
  0 <= max_field_no < 16 /\
  (forall j, 0 <= j < i ->
     exists part,
       part_at def j = Ok part /\
       0 <= field_no part < 16 /\
       field_no part <= max_field_no /\
       field_type part <> UNDEFINED /\
       nth_error types (Z.to_nat (field_no part)) = Some (field_type part)) /\
  (forall j1 j2 p1 p2, 0 <= j1 < j2 -> j2 < i ->
     part_at def j1 = Ok p1 -> part_at def j2 = Ok p2 ->
     field_no p1 <> field_no p2) /\
  (0 < i ->
     exists j part,
       0 <= j < i /\ part_at def j = Ok part /\ field_no part = max_field_no).

(** The array [field_type] the scan leaves for [string_pair_def]. *)
Definition string_pair_field_types : list field_type_t :=
  [UNDEFINED; STRING; STRING] ++ repeat UNDEFINED 13.

(** A string buffer that holds zeros when it is declared. *)
Definition zero_junk (c : nat) : list byte := repeat x00 16.

(** * Part II. Properties *)

(** ** Bytes *)

Lemma Z_of_byte_range (b : byte) : 0 <= Z_of_byte b < 256.
Proof.
  unfold Z_of_byte. pose proof (Byte.to_N_bounded b). lia.
Qed.

Lemma Z_of_byte_of_Z (z : Z) : Z_of_byte (byte_of_Z z) = z mod 256.
Proof.
  unfold Z_of_byte, byte_of_Z.
  assert (Hr : 0 <= z mod 256 < 256) by (apply Z.mod_pos_bound; lia).
  destruct (Byte.of_N (Z.to_N (z mod 256))) as [b|] eqn:E.
  - apply Byte.to_of_N in E. rewrite E. lia.
  - apply Byte.of_N_None_iff in E. lia.
Qed.

Lemma byte_of_Z_of_byte (b : byte) : byte_of_Z (Z_of_byte b) = b.
Proof.
  unfold byte_of_Z. pose proof (Z_of_byte_range b) as Hr.
  rewrite Z.mod_small by lia. unfold Z_of_byte.
  rewrite N2Z.id, Byte.of_to_N. reflexivity.
Qed.

Lemma byte_of_Z_mod (z : Z) : byte_of_Z (z mod 256) = byte_of_Z z.
Proof.
  unfold byte_of_Z. rewrite Z.mod_mod by lia. reflexivity.
Qed.

Lemma Z_of_byte_inj (a b : byte) : Z_of_byte a = Z_of_byte b -> a = b.
Proof.
  intros H. rewrite <- (byte_of_Z_of_byte a), <- (byte_of_Z_of_byte b).
  now rewrite H.
Qed.

(** ** Integer objects *)

Lemma le_encode_length (w : nat) (t : Z) : length (le_encode w t) = w.
Proof.
  revert t. induction w as [|w IH]; intros t; simpl; [reflexivity|].
  now rewrite IH.
Qed.

Lemma le_decode_range (bs : list byte) :
  0 <= le_decode bs < 2 ^ (8 * zlen bs).
Proof.
  unfold zlen. induction bs as [|b bs IH]; cbn [le_decode].
  - simpl. lia.
  - pose proof (Z_of_byte_range b).
    replace (8 * Z.of_nat (length (b :: bs))) with (8 + 8 * Z.of_nat (length bs))
      by (simpl length; lia).
    rewrite Z.pow_add_r by lia. change (2 ^ 8) with 256.
    set (X := 2 ^ (8 * Z.of_nat (length bs))) in *. lia.
Qed.

Lemma le_decode_encode (w : nat) (t : Z) :
  le_decode (le_encode w t) = t mod 2 ^ (8 * Z.of_nat w).
Proof.
  revert t. induction w as [|w IH]; intros t.
  - simpl. now rewrite Z.mod_1_r.
  - cbn [le_encode le_decode]. rewrite IH, Z_of_byte_of_Z.
    replace (8 * Z.of_nat (S w)) with (8 + 8 * Z.of_nat w) by lia.
    rewrite Z.pow_add_r by lia. change (2 ^ 8) with 256.
    rewrite Z.rem_mul_r by lia. reflexivity.
Qed.

Lemma le_encode_decode (bs : list byte) :
  le_encode (length bs) (le_decode bs) = bs.
Proof.
  induction bs as [|b bs IH]; [reflexivity|].
  cbn [length le_encode le_decode].
  pose proof (Z_of_byte_range b) as Hb.
  replace (Z_of_byte b + 256 * le_decode bs)
    with (Z_of_byte b + le_decode bs * 256) by lia.
  f_equal.
  - rewrite <- byte_of_Z_mod, Z.mod_add by lia.
    rewrite Z.mod_small by lia. apply byte_of_Z_of_byte.
  - rewrite Z.div_add by lia.
    rewrite Z.div_small by lia. exact IH.
Qed.

Lemma be_bytes_length (w : nat) (v : Z) : length (be_bytes w v) = w.
Proof.
  induction w as [|w IH]; simpl; [reflexivity|]. now rewrite IH.
Qed.

Lemma be_bytes_snoc (w : nat) (v : Z) :
  be_bytes w (v / 256) ++ [byte_of_Z v] = be_bytes (S w) v.
Proof.
  induction w as [|w IH].
  - simpl. now rewrite Z.div_1_r.
  - change (be_bytes (S w) (v / 256)) with
      (byte_of_Z (v / 256 / 2 ^ (8 * Z.of_nat w)) :: be_bytes w (v / 256)).
    rewrite <- app_comm_cons, IH.
    change (be_bytes (S (S w)) v) with
      (byte_of_Z (v / 2 ^ (8 * Z.of_nat (S w))) :: be_bytes (S w) v).
    f_equal. f_equal.
    rewrite Z.div_div by lia. f_equal.
    replace (8 * Z.of_nat (S w)) with (8 + 8 * Z.of_nat w) by lia.
    rewrite Z.pow_add_r by lia. reflexivity.
Qed.

Lemma rev_le_encode (w : nat) (v : Z) : rev (le_encode w v) = be_bytes w v.
Proof.
  revert v. induction w as [|w IH]; intros v; [reflexivity|].
  cbn [le_encode rev]. rewrite IH. apply be_bytes_snoc.
Qed.

Lemma be_value_bytes (w : nat) (v : Z) :
  be_value (be_bytes w v) = v mod 2 ^ (8 * Z.of_nat w).
Proof.
  unfold be_value. rewrite <- rev_le_encode, rev_involutive.
  apply le_decode_encode.
Qed.

(** ** bswap *)

Lemma le_encode_bswap (w : nat) (t : Z) :
  le_encode w (bswap w t) = be_bytes w t.
Proof.
  rewrite <- rev_le_encode.
  destruct w as [|[|w]]; [reflexivity|reflexivity|].
  unfold bswap.
  rewrite <- (le_encode_length (S (S w)) t) at 1.
  rewrite <- length_rev. apply le_encode_decode.
Qed.

Lemma bswap_le_decode (w : nat) (bs : list byte) :
  length bs = w -> bswap w (le_decode bs) = be_value bs.
Proof.
  intros Hl. unfold be_value.
  destruct w as [|[|w]].
  - destruct bs; [reflexivity|discriminate].
  - destruct bs as [|b [|? ?]]; try discriminate. reflexivity.
  - unfold bswap. rewrite <- Hl, le_encode_decode. reflexivity.
Qed.

(** ** Buffers: slices, [load] and [store] *)

Lemma slice_length (m : list byte) (p n : nat) :
  (p + n <= length m)%nat -> length (slice m p n) = n.
Proof.
  intros H. unfold slice. rewrite firstn_length_le; [reflexivity|].
  rewrite length_skipn. lia.
Qed.

Lemma slice_app_l (a b : list byte) (p n : nat) :
  (p + n <= length a)%nat -> slice (a ++ b) p n = slice a p n.
Proof.
  intros H. unfold slice. rewrite skipn_app, firstn_app.
  replace (n - length (skipn p a))%nat with 0%nat
    by (rewrite length_skipn; lia).
  rewrite firstn_0. apply app_nil_r.
Qed.

Lemma slice_app_r (a b : list byte) (p n : nat) :
  (length a <= p)%nat -> slice (a ++ b) p n = slice b (p - length a) n.
Proof.
  intros H. unfold slice. rewrite skipn_app.
  rewrite skipn_all2 by lia. reflexivity.
Qed.

Lemma slice_full (m : list byte) : slice m 0 (length m) = m.
Proof.
  unfold slice. rewrite skipn_0. apply firstn_all.
Qed.

Lemma slice_split (m : list byte) (p n1 n2 : nat) :
  slice m p (n1 + n2) = slice m p n1 ++ slice m (p + n1) n2.
Proof.
  unfold slice.
  rewrite <- (firstn_skipn n1 (firstn (n1 + n2) (skipn p m))).
  rewrite firstn_firstn, Nat.min_l by lia. f_equal.
  rewrite skipn_firstn_comm, skipn_skipn.
  f_equal; [lia | f_equal; lia].
Qed.

Lemma load_Ok (m : list byte) (p n : Z) :
  0 <= p -> 0 <= n -> p + n <= zlen m ->
  load m p n = Ok (slice m (Z.to_nat p) (Z.to_nat n)).
Proof.
  intros Hp Hn Hb. unfold load.
  destruct (0 <=? p) eqn:E1; [|lia].
  destruct (0 <=? n) eqn:E2; [|lia].
  destruct (p + n <=? zlen m) eqn:E3; [|lia].
  reflexivity.
Qed.

Lemma load_inv (m : list byte) (p n : Z) (bs : list byte) :
  load m p n = Ok bs ->
  0 <= p /\ 0 <= n /\ p + n <= zlen m /\
  bs = slice m (Z.to_nat p) (Z.to_nat n) /\ zlen bs = n.
Proof.
  unfold load.
  destruct (0 <=? p) eqn:E1; [|discriminate].
  destruct (0 <=? n) eqn:E2; [|discriminate].
  destruct (p + n <=? zlen m) eqn:E3; [|discriminate].
  cbn [andb]. intros H. injection H as <-.
  unfold zlen in *. repeat split; try lia.
  fold (slice m (Z.to_nat p) (Z.to_nat n)).
  rewrite slice_length; lia.
Qed.

Lemma load_Err (m : list byte) (p n : Z) (e : error) :
  load m p n = Err e -> e = OutOfBounds.
Proof.
  unfold load. destruct (_ && _); [discriminate|]. now intros [= <-].
Qed.

Lemma store_Ok (m : list byte) (p : Z) (bs : list byte) :
  0 <= p -> p + zlen bs <= zlen m ->
  store m p bs =
  Ok (firstn (Z.to_nat p) m ++ bs ++ skipn (Z.to_nat (p + zlen bs)) m).
Proof.
  intros Hp Hb. unfold store.
  destruct (0 <=? p) eqn:E1; [|lia].
  destruct (p + zlen bs <=? zlen m) eqn:E2; [|lia].
  reflexivity.
Qed.

Lemma store_inv (m : list byte) (p : Z) (bs m' : list byte) :
  store m p bs = Ok m' ->
  0 <= p /\ p + zlen bs <= zlen m /\
  m' = firstn (Z.to_nat p) m ++ bs ++ skipn (Z.to_nat (p + zlen bs)) m.
Proof.
  unfold store.
  destruct (0 <=? p) eqn:E1; [|discriminate].
  destruct (p + zlen bs <=? zlen m) eqn:E2; [|discriminate].
  cbn [andb]. intros H. injection H as <-. repeat split; lia.
Qed.

Lemma store_Err (m : list byte) (p : Z) (bs : list byte) (e : error) :
  store m p bs = Err e -> e = OutOfBounds.
Proof.
  unfold store. destruct (_ && _); [discriminate|]. now intros [= <-].
Qed.

Lemma store_length (m : list byte) (p : Z) (bs m' : list byte) :
  store m p bs = Ok m' -> zlen m' = zlen m.
Proof.
  intros H. apply store_inv in H as (Hp & Hb & ->).
  unfold zlen in *.
  rewrite !length_app, length_firstn, length_skipn. lia.
Qed.

(** Reading back what was stored. *)
Lemma load_store_same (m : list byte) (p : Z) (bs m' : list byte) :
  store m p bs = Ok m' -> load m' p (zlen bs) = Ok bs.
Proof.
  intros H. pose proof (store_length _ _ _ _ H) as Hl.
  apply store_inv in H as (Hp & Hb & ->). unfold zlen in *.
  rewrite load_Ok by (unfold zlen; lia). f_equal.
  rewrite slice_app_r by (rewrite length_firstn; lia).
  rewrite length_firstn.
  replace (Z.to_nat p - Nat.min (Z.to_nat p) (length m))%nat with 0%nat by lia.
  rewrite slice_app_l by lia.
  rewrite Nat2Z.id. apply slice_full.
Qed.

(** A store leaves every disjoint range as it was. *)
Lemma load_store_other (m : list byte) (p : Z) (bs m' : list byte) (q n : Z) :
  store m p bs = Ok m' ->
  q + n <= p \/ p + zlen bs <= q ->
  load m' q n = load m q n.
Proof.
  intros H Hd. pose proof (store_length _ _ _ _ H) as Hl.
  apply store_inv in H as (Hp & Hb & Hm').
  unfold load. rewrite Hl.
  destruct ((0 <=? q) && (0 <=? n) && (q + n <=? zlen m)) eqn:E; [|reflexivity].
  apply andb_prop in E as [E E3]. apply andb_prop in E as [E1 E2].
  f_equal. fold (slice m' (Z.to_nat q) (Z.to_nat n)).
  fold (slice m (Z.to_nat q) (Z.to_nat n)).
  rewrite Hm'. unfold zlen in *.
  rewrite <- (firstn_skipn (Z.to_nat p) m) at 3.
  destruct Hd as [Hd|Hd].
  - rewrite !slice_app_l by (rewrite length_firstn; lia). reflexivity.
  - rewrite <- (firstn_skipn (length bs) (skipn (Z.to_nat p) m)).
    rewrite skipn_skipn.
    rewrite !slice_app_r by (rewrite length_firstn; lia).
    rewrite !slice_app_r;
      rewrite ?length_firstn, ?length_skipn; try lia.
    f_equal; [f_equal; lia | lia].
Qed.

Lemma zlen_app {A : Type} (a b : list A) : zlen (a ++ b) = zlen a + zlen b.
Proof. unfold zlen. rewrite length_app. lia. Qed.

Lemma zlen_nonneg {A : Type} (a : list A) : 0 <= zlen a.
Proof. unfold zlen. lia. Qed.

Lemma app_eq_length {A : Type} (a b c d : list A) :
  a ++ b = c ++ d -> length a = length c -> a = c /\ b = d.
Proof.
  revert c. induction a as [|x a IH]; intros [|y c] H Hl; try discriminate.
  - now split.
  - cbn in H. injection H as -> H. injection Hl as Hl.
    destruct (IH c H Hl) as [-> ->]. now split.
Qed.

(** Two adjacent stores are one store of the concatenation. *)
Lemma store_store_app (m : list byte) (p : Z) (a b : list byte) :
  (m1 <- store m p a;; store m1 (p + zlen a) b) = store m p (a ++ b).
Proof.
  pose proof (zlen_nonneg a) as Ha0. pose proof (zlen_nonneg b) as Hb0.
  destruct (store m p a) as [m1|e] eqn:Ha; cbn [bind].
  - pose proof (store_length _ _ _ _ Ha) as Hl.
    apply store_inv in Ha as (Hp & Hb & ->).
    unfold store at 1 2. rewrite Hl.
    rewrite zlen_app, Z.add_assoc.
    replace (0 <=? p + zlen a) with true by lia.
    replace (0 <=? p) with true by lia.
    cbn [andb].
    destruct (p + zlen a + zlen b <=? zlen m) eqn:E; [|reflexivity].
    f_equal. unfold zlen in *.
    rewrite firstn_app, firstn_firstn, Nat.min_r by lia.
    rewrite length_firstn.
    replace (Z.to_nat (p + Z.of_nat (length a))
             - Nat.min (Z.to_nat p) (length m))%nat with (length a) by lia.
    rewrite firstn_app, firstn_all, Nat.sub_diag, firstn_0, app_nil_r.
    rewrite <- !app_assoc. f_equal. f_equal. f_equal.
    rewrite !skipn_app.
    rewrite (skipn_all2 (firstn _ m)) by (rewrite length_firstn; lia).
    rewrite (skipn_all2 a) by (rewrite length_firstn; lia).
    cbn [app]. rewrite skipn_skipn. f_equal.
    rewrite length_firstn. lia.
  - pose proof (store_Err _ _ _ _ Ha) as ->.
    unfold store in *. rewrite zlen_app.
    destruct (0 <=? p) eqn:E1; [|reflexivity].
    destruct (p + zlen a <=? zlen m) eqn:E2; [discriminate|].
    replace (p + (zlen a + zlen b) <=? zlen m) with false by lia.
    reflexivity.
Qed.

Lemma load_app_inv (m : list byte) (p : Z) (a b : list byte) :
  load m p (zlen (a ++ b)) = Ok (a ++ b) ->
  load m p (zlen a) = Ok a /\ load m (p + zlen a) (zlen b) = Ok b.
Proof.
  intros H. apply load_inv in H as (Hp & Hn & Hb & Hs & _).
  rewrite zlen_app in *. unfold zlen in *.
  rewrite !load_Ok by (unfold zlen; lia).
  replace (Z.to_nat (Z.of_nat (length a) + Z.of_nat (length b)))
    with (length a + length b)%nat in Hs by lia.
  rewrite slice_split in Hs.
  apply app_eq_length in Hs as [Hs1 Hs2].
  - rewrite !Nat2Z.id.
    replace (Z.to_nat (p + Z.of_nat (length a)))
      with (Z.to_nat p + length a)%nat by lia.
    now rewrite <- Hs1, <- Hs2.
  - rewrite slice_length; lia.
Qed.

(** ** The codec writes and reads the wire format *)

Lemma le_encode_mod (w : nat) (t : Z) :
  le_encode w (t mod 2 ^ (8 * Z.of_nat w)) = le_encode w t.
Proof.
  rewrite <- le_decode_encode.
  rewrite <- (le_encode_length w t) at 1. apply le_encode_decode.
Qed.

Lemma be_bytes_mod (w : nat) (t : Z) :
  be_bytes w (t mod 2 ^ (8 * Z.of_nat w)) = be_bytes w t.
Proof.
  rewrite <- !rev_le_encode. now rewrite le_encode_mod.
Qed.

Lemma zlen_be_bytes (w : nat) (v : Z) : zlen (be_bytes w v) = Z.of_nat w.
Proof. unfold zlen. now rewrite be_bytes_length. Qed.

Lemma mp_write_store (w : nat) (t : Z) (m : list byte) (p : Z) :
  mp_write w t (m, p) =
  (m' <- store m p (be_bytes w t);; Ok (m', p + zlen (be_bytes w t))).
Proof.
  unfold mp_write. now rewrite le_encode_bswap, be_bytes_mod, zlen_be_bytes.
Qed.

Lemma mp_write_two (w1 w2 : nat) (t1 t2 : Z) (m : list byte) (p : Z) :
  (c <- mp_write w1 t1 (m, p);; mp_write w2 t2 c) =
  (m' <- store m p (be_bytes w1 t1 ++ be_bytes w2 t2);;
   Ok (m', p + zlen (be_bytes w1 t1 ++ be_bytes w2 t2))).
Proof.
  rewrite <- store_store_app, mp_write_store.
  destruct (store m p (be_bytes w1 t1)) as [m1|e]; cbn [bind]; [|reflexivity].
  rewrite mp_write_store, zlen_app, Z.add_assoc. reflexivity.
Qed.

Lemma be_bytes_1 (v : Z) : be_bytes 1 v = [byte_of_Z v].
Proof. cbn. now rewrite Z.div_1_r. Qed.

Lemma mp_encode_uint_store (v : Z) (m : list byte) (p : Z) :
  mp_encode_uint v (m, p) =
  (m' <- store m p (uint_wire v);; Ok (m', p + zlen (uint_wire v))).
Proof.
  unfold mp_encode_uint, uint_wire, uint_form_of, UINT8_MAX, UINT16_MAX,
    UINT32_MAX.
  destruct (v <=? 0x7f).
  { rewrite mp_write_store, be_bytes_1. reflexivity. }
  repeat match goal with
         | |- context [if ?b then _ else _] => destruct b
         end;
    rewrite mp_write_two, be_bytes_1; reflexivity.
Qed.

Lemma load_full (s : list byte) : load s 0 (zlen s) = Ok s.
Proof.
  rewrite load_Ok by (pose proof (zlen_nonneg s); lia).
  unfold zlen. rewrite Nat2Z.id. change (Z.to_nat 0) with 0%nat.
  now rewrite slice_full.
Qed.

Lemma mp_encode_string_store (s : list byte) (m : list byte) (p : Z) :
  mp_encode_string s (zlen s) (m, p) =
  (m' <- store m p (string_wire s);; Ok (m', p + zlen (string_wire s))).
Proof.
  unfold mp_encode_string, string_wire.
  rewrite <- store_store_app, zlen_app.
  assert (Hh : forall c : wcursor,
    (if zlen s <=? 31 then mp_write 1 (Z.lor 0xa0 (zlen s)) c
     else if zlen s <=? UINT8_MAX then
       c <- mp_write 1 0xd9 c;; mp_write 1 (zlen s) c
     else if zlen s <=? UINT16_MAX then
       c <- mp_write 1 0xda c;; mp_write 2 (zlen s) c
     else c <- mp_write 1 0xdb c;; mp_write 4 (zlen s) c) =
    (m' <- store (fst c) (snd c) (string_header (zlen s));;
     Ok (m', snd c + zlen (string_header (zlen s))))).
  { intros [m0 p0]. cbn [fst snd].
    unfold string_header, UINT8_MAX, UINT16_MAX.
    destruct (zlen s <=? 31).
    { rewrite mp_write_store, be_bytes_1. reflexivity. }
    repeat match goal with
           | |- context [if ?b then _ else _] => destruct b
           end;
      rewrite mp_write_two, be_bytes_1; reflexivity. }
  rewrite Hh. cbn [fst snd].
  destruct (store m p (string_header (zlen s))) as [m1|e]; cbn [bind];
    [|reflexivity].
  rewrite load_full. cbn [bind].
  destruct (store m1 _ s); cbn [bind]; [|reflexivity].
  now rewrite Z.add_assoc.
Qed.

Lemma mp_read_load (w : nat) (m : list byte) (p : Z) (bs : list byte) :
  load m p (Z.of_nat w) = Ok bs ->
  mp_read w m p = Ok (be_value bs, p + Z.of_nat w).
Proof.
  intros H. unfold mp_read. rewrite H. cbn [bind].
  apply load_inv in H as (_ & _ & _ & _ & Hl).
  rewrite bswap_le_decode; [reflexivity|]. unfold zlen in Hl. lia.
Qed.

Lemma be_value_1 (b : byte) : be_value [b] = Z_of_byte b.
Proof. unfold be_value. cbn. lia. Qed.

Lemma load_cons_inv (m : list byte) (p : Z) (b : byte) (bs : list byte) :
  load m p (zlen (b :: bs)) = Ok (b :: bs) ->
  load m p 1 = Ok [b] /\ load m (p + 1) (zlen bs) = Ok bs.
Proof.
  intros H. apply (load_app_inv m p [b] bs) in H. exact H.
Qed.

(** Decoding a buffer that holds the wire bytes of [v] at [p]. *)
Lemma mp_decode_uint_wire (v : Z) (m : list byte) (p : Z) :
  0 <= v < 2 ^ 64 ->
  load m p (zlen (uint_wire v)) = Ok (uint_wire v) ->
  mp_decode_uint m p = Ok (v, p + zlen (uint_wire v)).
Proof.
  intros Hv H. unfold mp_decode_uint.
  unfold uint_wire, uint_form_of in *.
  destruct (v <=? 0x7f) eqn:E1.
  { cbn [form_bytes] in *. change (zlen [byte_of_Z v]) with 1 in *.
    rewrite (mp_read_load 1 _ _ _ H). cbn [bind].
    rewrite be_value_1, Z_of_byte_of_Z, Z.mod_small by lia.
    replace (v =? 0xcc) with false by lia.
    replace (v =? 0xcd) with false by lia.
    replace (v =? 0xce) with false by lia.
    replace (v =? 0xcf) with false by lia.
    rewrite E1. reflexivity. }
  assert (Hk : forall (mk : Z) (w : nat),
    0 <= v < 2 ^ (8 * Z.of_nat w) ->
    load m p (zlen (byte_of_Z mk :: be_bytes w v))
      = Ok (byte_of_Z mk :: be_bytes w v) ->
    mp_read 1 m p = Ok (mk mod 256, p + 1) /\
    mp_read w m (p + 1)
      = Ok (v, p + zlen (byte_of_Z mk :: be_bytes w v))).
  { intros mk w Hr Hl. apply load_cons_inv in Hl as [H1 H2].
    rewrite zlen_be_bytes in H2.
    rewrite (mp_read_load 1 _ _ _ H1), (mp_read_load w _ _ _ H2).
    rewrite be_value_1, Z_of_byte_of_Z, be_value_bytes, (Z.mod_small v) by exact Hr.
    split; [reflexivity|].
    do 2 f_equal. unfold zlen. cbn [length]. rewrite be_bytes_length. lia. }
  destruct (v <=? 0xFF) eqn:E2;
    [|destruct (v <=? 0xFFFF) eqn:E3;
      [|destruct (v <=? 0xFFFFFFFF) eqn:E4]];
    cbn [form_bytes] in *;
    (apply Hk in H as [H1 H2]; [|cbn; lia]);
    rewrite H1; cbn [bind]; exact H2.
Qed.

(** A boolean property checked on every integer of a finite range. *)
Lemma forall_range (P : Z -> bool) (n : nat) :
  forallb P (map Z.of_nat (seq 0 n)) = true ->
  forall z, 0 <= z < Z.of_nat n -> P z = true.
Proof.
  intros H z Hz. rewrite forallb_forall in H. apply H.
  apply in_map_iff. exists (Z.to_nat z). split; [lia|].
  apply in_seq. lia.
Qed.

Lemma fixstr_marker (len : Z) :
  0 <= len <= 31 ->
  let c := Z.lor 0xa0 len mod 256 in
  0xa0 <= c <= 0xbf /\ Z.land c 0x1f = len.
Proof.
  intros Hl.
  pose proof (forall_range
    (fun len => let c := Z.lor 0xa0 len mod 256 in
                (0xa0 <=? c) && (c <=? 0xbf) && (Z.land c 0x1f =? len))
    32 eq_refl len ltac:(lia)) as H.
  cbv zeta in *.
  apply andb_prop in H as [H H3]. apply andb_prop in H as [H1 H2].
  lia.
Qed.

(** Decoding a buffer that holds a string header for length [len] at [p]. *)
Lemma mp_decode_string_header (len : Z) (m : list byte) (p : Z) :
  0 <= len < 2 ^ 32 ->
  load m p (zlen (string_header len)) = Ok (string_header len) ->
  mp_decode_string m p =
  Ok (p + zlen (string_header len), len, p + zlen (string_header len) + len).
Proof.
  intros Hv H. unfold mp_decode_string, string_header in *.
  destruct (len <=? 31) eqn:E1.
  { change (zlen [byte_of_Z (Z.lor 0xa0 len)]) with 1 in *.
    rewrite (mp_read_load 1 _ _ _ H). cbn [bind].
    rewrite be_value_1, Z_of_byte_of_Z.
    destruct (fixstr_marker len ltac:(lia)) as [Hc Hland].
    cbv zeta in Hc, Hland. change (Z.of_nat 1) with 1.
    set (c := Z.lor 0xa0 len mod 256) in *.
    replace (c =? 0xd9) with false by lia.
    replace (c =? 0xda) with false by lia.
    replace (c =? 0xdb) with false by lia.
    replace (0xa0 <=? c) with true by lia.
    replace (c <=? 0xbf) with true by lia.
    cbn [andb assert bind]. now rewrite Hland. }
  assert (Hk : forall (mk : Z) (w : nat),
    0 <= len < 2 ^ (8 * Z.of_nat w) ->
    load m p (zlen (byte_of_Z mk :: be_bytes w len))
      = Ok (byte_of_Z mk :: be_bytes w len) ->
    mp_read 1 m p = Ok (mk mod 256, p + 1) /\
    mp_read w m (p + 1)
      = Ok (len, p + zlen (byte_of_Z mk :: be_bytes w len))).
  { intros mk w Hr Hl. apply load_cons_inv in Hl as [H1 H2].
    rewrite zlen_be_bytes in H2.
    rewrite (mp_read_load 1 _ _ _ H1), (mp_read_load w _ _ _ H2).
    rewrite be_value_1, Z_of_byte_of_Z, be_value_bytes, (Z.mod_small len)
      by exact Hr.
    split; [reflexivity|].
    do 2 f_equal. unfold zlen. cbn [length]. rewrite be_bytes_length. lia. }
  destruct (len <=? 0xFF) eqn:E2; [|destruct (len <=? 0xFFFF) eqn:E3];
    (apply Hk in H as [H1 H2]; [|cbn; lia]);
    rewrite H1; cbn [bind];
    match type of H2 with
    | ?l = _ =>
        match goal with
        | |- bind ?r ?k = ?R => change (bind l k = R)
        end
    end;
    rewrite H2; reflexivity.
Qed.

Lemma mp_decode_string_wire (s : list byte) (m : list byte) (p : Z) :
  zlen s < 2 ^ 32 ->
  load m p (zlen (string_wire s)) = Ok (string_wire s) ->
  mp_decode_string m p =
    Ok (p + zlen (string_header (zlen s)), zlen s, p + zlen (string_wire s))
  /\ load m (p + zlen (string_header (zlen s))) (zlen s) = Ok s.
Proof.
  intros Hs H. unfold string_wire in *.
  apply load_app_inv in H as [H1 H2]. split; [|exact H2].
  rewrite (mp_decode_string_header (zlen s)); auto.
  - now rewrite zlen_app, Z.add_assoc.
  - pose proof (zlen_nonneg s). lia.
Qed.

Lemma uint_form_of_max (v : Z) : 0 <= v < 2 ^ 64 -> v <= form_max (uint_form_of v).
Proof.
  intros Hv. unfold uint_form_of.
  repeat match goal with
         | |- context [if ?b then _ else _] => destruct b eqn:?
         end; cbn; lia.
Qed.

Lemma uint_form_of_minimal (v : Z) (g : uint_form) :
  0 <= v -> v <= form_max g -> form_size (uint_form_of v) <= form_size g.
Proof.
  intros Hv Hg. unfold uint_form_of.
  repeat match goal with
         | |- context [if ?b then _ else _] => destruct b eqn:?
         end; destruct g; cbn in *; lia.
Qed.

Lemma zlen_form_bytes (f : uint_form) (v : Z) :
  zlen (form_bytes f v) = form_size f.
Proof. destruct f; reflexivity. Qed.

Lemma zlen_uint_wire_bound (v : Z) : 1 <= zlen (uint_wire v) <= 9.
Proof.
  unfold uint_wire. rewrite zlen_form_bytes.
  destruct (uint_form_of v); cbn; lia.
Qed.

Lemma zlen_string_header_bound (len : Z) : 1 <= zlen (string_header len) <= 5.
Proof.
  unfold string_header.
  repeat match goal with
         | |- context [if ?b then _ else _] => destruct b
         end; cbn; lia.
Qed.

Lemma mp_read_Err (w : nat) (m : list byte) (p : Z) (e : error) :
  mp_read w m p = Err e -> e = OutOfBounds.
Proof.
  unfold mp_read. destruct (load m p (Z.of_nat w)) eqn:E; cbn [bind].
  - discriminate.
  - intros [= <-]. eapply load_Err; eauto.
Qed.

Lemma mp_read_Ok (w : nat) (m : list byte) (p : Z) :
  0 <= p -> p + Z.of_nat w <= zlen m -> exists r, mp_read w m p = Ok r.
Proof.
  intros Hp Hb. unfold mp_read. rewrite load_Ok by lia. cbn [bind]. eauto.
Qed.

(** ** The scalar codec: round trip, minimal encoding, malformed markers *)

(** C2. Round trip: for every 64-bit [v], encoding [v] at a position with room
    and decoding from that position returns [v], the read cursor ending where
    the write cursor ended; for every byte string [s] shorter than [2^32], the
    same holds for strings: the decoded length is that of [s], the returned
    view holds the bytes of [s], and the cursor ends past marker, length field
    and payload. *)
Theorem codec_round_trip (v : Z) (s m : list byte) (p : Z) :
  0 <= v < 2 ^ 64 ->
  zlen s <= 2 ^ 32 - 1 ->
  0 <= p ->
  p + zlen (uint_wire v) <= zlen m ->
  p + zlen (string_wire s) <= zlen m ->
  (exists m',
      mp_encode_uint v (m, p) = Ok (m', p + zlen (uint_wire v)) /\
      mp_decode_uint m' p = Ok (v, p + zlen (uint_wire v)))
  /\
  (exists m' view,
      mp_encode_string s (zlen s) (m, p) = Ok (m', p + zlen (string_wire s)) /\
      mp_decode_string m' p = Ok (view, zlen s, p + zlen (string_wire s)) /\
      load m' view (zlen s) = Ok s /\
      view + zlen s = p + zlen (string_header (zlen s)) + zlen s /\
      zlen (string_wire s) = zlen (string_header (zlen s)) + zlen s).
Proof.
  intros Hv Hs Hp Hu Hw. split.
  - rewrite mp_encode_uint_store.
    destruct (store m p (uint_wire v)) as [m'|e] eqn:E.
    + exists m'. cbn [bind]. split; [reflexivity|].
      apply mp_decode_uint_wire; [exact Hv|].
      eapply load_store_same; eauto.
    + rewrite store_Ok in E by assumption. discriminate.
  - rewrite mp_encode_string_store.
    destruct (store m p (string_wire s)) as [m'|e] eqn:E.
    + apply load_store_same in E.
      destruct (mp_decode_string_wire s m' p ltac:(lia) E) as [Hd Hl].
      exists m', (p + zlen (string_header (zlen s))). cbn [bind].
      repeat split; auto. unfold string_wire. apply zlen_app.
    + rewrite store_Ok in E by assumption. discriminate.
Qed.

Lemma codec_round_trip_witness :
  (exists m',
      mp_encode_uint 300 (zero_data, 4) = Ok (m', 4 + zlen (uint_wire 300)) /\
      mp_decode_uint m' 4 = Ok (300, 4 + zlen (uint_wire 300)))
  /\
  (exists m' view,
      mp_encode_string (bytes_of [104; 105]) 2 (zero_data, 4)
        = Ok (m', 4 + zlen (string_wire (bytes_of [104; 105]))) /\
      mp_decode_string m' 4
        = Ok (view, 2, 4 + zlen (string_wire (bytes_of [104; 105]))) /\
      load m' view 2 = Ok (bytes_of [104; 105]) /\
      view + 2 = 4 + zlen (string_header 2) + 2 /\
      zlen (string_wire (bytes_of [104; 105])) = zlen (string_header 2) + 2).
Proof.
  apply (codec_round_trip 300 (bytes_of [104; 105]) zero_data 4);
    vm_compute; intuition discriminate.
Defined.

(** C6. Minimal encoding: [mp_encode_uint] emits, at the cursor, the bytes of
    [v] in the smallest of the five forms able to represent [v]: the value
    itself for [v <= 0x7f], else [0xcc] and 1 byte for [v <= 0xFF], else
    [0xcd] and 2 big-endian bytes for [v <= 0xFFFF], else [0xce] and 4
    big-endian bytes for [v <= 0xFFFFFFFF], else [0xcf] and 8 big-endian
    bytes; 127 takes one byte and 128 is [0xcc 0x80]. *)
Theorem encode_uint_minimal (v : Z) (m : list byte) (p : Z) :
  0 <= v < 2 ^ 64 ->
  0 <= p ->
  p + 9 <= zlen m ->
  (exists f,
      mp_encode_uint v (m, p)
        = Ok (splice m p (form_bytes f v), p + form_size f) /\
      v <= form_max f /\
      (forall g, v <= form_max g -> form_size f <= form_size g) /\
      (v <= 0x7f -> f = FixInt) /\
      (0x7f < v <= 0xFF -> f = UInt8) /\
      (0xFF < v <= 0xFFFF -> f = UInt16) /\
      (0xFFFF < v <= 0xFFFFFFFF -> f = UInt32) /\
      (0xFFFFFFFF < v -> f = UInt64))
  /\ mp_encode_uint 127 (m, p) = Ok (splice m p [byte_of_Z 127], p + 1)
  /\ mp_encode_uint 128 (m, p)
     = Ok (splice m p [byte_of_Z 0xcc; byte_of_Z 128], p + 2).
Proof.
  intros Hv Hp Hb.
  assert (Hst : forall u, mp_encode_uint u (m, p)
            = Ok (splice m p (uint_wire u), p + zlen (uint_wire u))).
  { intros u. rewrite mp_encode_uint_store, store_Ok; [reflexivity|lia|].
    pose proof (zlen_uint_wire_bound u). lia. }
  split; [|split; [apply (Hst 127) | apply (Hst 128)]].
  exists (uint_form_of v). rewrite Hst.
  unfold uint_wire at 2. rewrite zlen_form_bytes.
  split; [reflexivity|].
  split; [now apply uint_form_of_max|].
  split; [intros g; apply uint_form_of_minimal; lia|].
  unfold uint_form_of.
  repeat match goal with
         | |- context [if ?b then _ else _] => destruct b eqn:?
         end; repeat split; intros; try reflexivity; lia.
Qed.

Lemma encode_uint_minimal_witness :
  (exists f,
      mp_encode_uint 65536 (zero_data, 0)
        = Ok (splice zero_data 0 (form_bytes f 65536), 0 + form_size f) /\
      65536 <= form_max f /\
      (forall g, 65536 <= form_max g -> form_size f <= form_size g) /\
      (65536 <= 0x7f -> f = FixInt) /\
      (0x7f < 65536 <= 0xFF -> f = UInt8) /\
      (0xFF < 65536 <= 0xFFFF -> f = UInt16) /\
      (0xFFFF < 65536 <= 0xFFFFFFFF -> f = UInt32) /\
      (0xFFFFFFFF < 65536 -> f = UInt64))
  /\ mp_encode_uint 127 (zero_data, 0)
     = Ok (splice zero_data 0 [byte_of_Z 127], 0 + 1)
  /\ mp_encode_uint 128 (zero_data, 0)
     = Ok (splice zero_data 0 [byte_of_Z 0xcc; byte_of_Z 128], 0 + 2).
Proof.
  apply (encode_uint_minimal 65536 zero_data 0); vm_compute;
    intuition discriminate.
Defined.

(** C8. Malformed markers: on an input whose first byte is [b],
    [mp_decode_uint] takes the failing assertion exactly when [b] is neither
    at most [0x7f] nor one of [0xcc..0xcf], and [mp_decode_string] exactly
    when [b] is outside [0xa0..0xbf] and [0xd9..0xdb]; on a recognised first
    byte, with the bytes the widest form needs inside the buffer, both return
    a value. *)
Theorem decode_fails_iff_marker_unknown (m : list byte) (p : Z) (b : byte) :
  load m p 1 = Ok [b] ->
  (mp_decode_uint m p = Err AssertFailed <-> ~ uint_marker (Z_of_byte b)) /\
  (mp_decode_string m p = Err AssertFailed <-> ~ string_marker (Z_of_byte b)) /\
  (uint_marker (Z_of_byte b) -> p + 9 <= zlen m ->
   exists r, mp_decode_uint m p = Ok r) /\
  (string_marker (Z_of_byte b) -> p + 5 <= zlen m ->
   exists r, mp_decode_string m p = Ok r).
Proof.
  intros H.
  pose proof (Z_of_byte_range b) as Hr.
  pose proof (load_inv _ _ _ _ H) as (Hp & _ & _ & _ & _).
  unfold mp_decode_uint, mp_decode_string, uint_marker, string_marker.
  rewrite (mp_read_load 1 _ _ _ H). cbn [bind].
  rewrite be_value_1. change (Z.of_nat 1) with 1.
  set (c := Z_of_byte b) in *.
  assert (Hne : forall w, mp_read w m (p + 1) <> Err AssertFailed).
  { intros w Hw. apply mp_read_Err in Hw. discriminate. }
  assert (Hne' : forall w (k : Z * Z -> result (Z * Z * Z)),
             (forall x, k x <> Err AssertFailed) ->
             bind (mp_read w m (p + 1)) k <> Err AssertFailed).
  { intros w k Hk. destruct (mp_read w m (p + 1)) eqn:E; cbn [bind].
    - apply Hk.
    - apply mp_read_Err in E. subst. discriminate. }
  repeat split.
  - destruct (c =? 0xcc) eqn:E1; [intros X; now apply Hne in X|].
    destruct (c =? 0xcd) eqn:E2; [intros X; now apply Hne in X|].
    destruct (c =? 0xce) eqn:E3; [intros X; now apply Hne in X|].
    destruct (c =? 0xcf) eqn:E4; [intros X; now apply Hne in X|].
    destruct (c <=? 0x7f) eqn:E5; cbn [assert bind]; [discriminate|].
    intros _. lia.
  - intros Hn.
    destruct (c =? 0xcc) eqn:E1; [lia|].
    destruct (c =? 0xcd) eqn:E2; [lia|].
    destruct (c =? 0xce) eqn:E3; [lia|].
    destruct (c =? 0xcf) eqn:E4; [lia|].
    destruct (c <=? 0x7f) eqn:E5; [lia|]. reflexivity.
  - destruct (c =? 0xd9) eqn:E1;
      [intros X; apply Hne' in X; [easy | intros [? ?]; discriminate]|].
    destruct (c =? 0xda) eqn:E2;
      [intros X; apply Hne' in X; [easy | intros [? ?]; discriminate]|].
    destruct (c =? 0xdb) eqn:E3;
      [intros X; apply Hne' in X; [easy | intros [? ?]; discriminate]|].
    destruct ((0xa0 <=? c) && (c <=? 0xbf)) eqn:E4; cbn [assert bind];
      [discriminate|].
    intros _. apply andb_false_iff in E4. lia.
  - intros Hn.
    destruct (c =? 0xd9) eqn:E1; [lia|].
    destruct (c =? 0xda) eqn:E2; [lia|].
    destruct (c =? 0xdb) eqn:E3; [lia|].
    destruct ((0xa0 <=? c) && (c <=? 0xbf)) eqn:E4; [|reflexivity].
    apply andb_prop in E4. lia.
  - intros Hm Hb.
    destruct (c =? 0xcc) eqn:E1; [apply mp_read_Ok; cbn; lia|].
    destruct (c =? 0xcd) eqn:E2; [apply mp_read_Ok; cbn; lia|].
    destruct (c =? 0xce) eqn:E3; [apply mp_read_Ok; cbn; lia|].
    destruct (c =? 0xcf) eqn:E4; [apply mp_read_Ok; cbn; lia|].
    replace (c <=? 0x7f) with true by lia. cbn [assert bind]. eauto.
  - intros Hm Hb.
    assert (Hok : forall w, (Z.of_nat w <= 4) ->
      exists r, (' (len, p0) <- mp_read w m (p + 1);;
                 Ok (p0, len, p0 + len)) = Ok r).
    { intros w Hw. destruct (mp_read_Ok w m (p + 1)) as [[l q] ->];
        [lia|lia|]. cbn [bind]. eauto. }
    destruct (c =? 0xd9) eqn:E1; [apply Hok; cbn; lia|].
    destruct (c =? 0xda) eqn:E2; [apply Hok; cbn; lia|].
    destruct (c =? 0xdb) eqn:E3; [apply Hok; cbn; lia|].
    replace ((0xa0 <=? c) && (c <=? 0xbf)) with true
      by (symmetry; apply andb_true_intro; lia).
    cbn [assert bind]. eauto.
Qed.

Lemma decode_fails_iff_marker_unknown_witness :
  (mp_decode_uint (bytes_of [0xa5; 0; 0; 0; 0; 0; 0; 0; 0]) 0 = Err AssertFailed
     <-> ~ uint_marker (Z_of_byte (byte_of_Z 0xa5))) /\
  (mp_decode_string (bytes_of [0xa5; 0; 0; 0; 0; 0; 0; 0; 0]) 0 = Err AssertFailed
     <-> ~ string_marker (Z_of_byte (byte_of_Z 0xa5))) /\
  (uint_marker (Z_of_byte (byte_of_Z 0xa5)) ->
   0 + 9 <= zlen (bytes_of [0xa5; 0; 0; 0; 0; 0; 0; 0; 0]) ->
   exists r, mp_decode_uint (bytes_of [0xa5; 0; 0; 0; 0; 0; 0; 0; 0]) 0 = Ok r) /\
  (string_marker (Z_of_byte (byte_of_Z 0xa5)) ->
   0 + 5 <= zlen (bytes_of [0xa5; 0; 0; 0; 0; 0; 0; 0; 0]) ->
   exists r, mp_decode_string (bytes_of [0xa5; 0; 0; 0; 0; 0; 0; 0; 0]) 0 = Ok r).
Proof.
  apply (decode_fails_iff_marker_unknown
           (bytes_of [0xa5; 0; 0; 0; 0; 0; 0; 0; 0]) 0 (byte_of_Z 0xa5)).
  reflexivity.
Defined.

(** ** Layout of a tuple built by [reset] and appends *)

Lemma payload_app (a b : list field_value) :
  payload (a ++ b) = payload a ++ payload b.
Proof. unfold payload. now rewrite map_app, concat_app. Qed.

Lemma payload_snoc (fs : list field_value) (f : field_value) :
  payload (fs ++ [f]) = payload fs ++ field_wire f.
Proof. rewrite payload_app. unfold payload. cbn. now rewrite app_nil_r. Qed.

Lemma field_pos_snoc (k : Z) (fs : list field_value) (f : field_value) (i : Z) :
  i <= zlen fs -> field_pos k (fs ++ [f]) i = field_pos k fs i.
Proof.
  intros Hi. unfold field_pos, zlen in *. rewrite firstn_app.
  replace (Z.to_nat i - length fs)%nat with 0%nat by lia.
  now rewrite firstn_0, app_nil_r.
Qed.

Lemma field_pos_all (k : Z) (fs : list field_value) :
  field_pos k fs (zlen fs) = slots_size k + zlen (payload fs).
Proof.
  unfold field_pos, zlen. now rewrite Nat2Z.id, firstn_all.
Qed.

Lemma load_app (m : list byte) (p : Z) (a b : list byte) :
  load m p (zlen a) = Ok a ->
  load m (p + zlen a) (zlen b) = Ok b ->
  load m p (zlen (a ++ b)) = Ok (a ++ b).
Proof.
  intros Ha Hb.
  apply load_inv in Ha as (Hp & _ & _ & Ha & _).
  apply load_inv in Hb as (_ & _ & Hb1 & Hb & _).
  rewrite zlen_app. pose proof (zlen_nonneg a). pose proof (zlen_nonneg b).
  rewrite load_Ok by lia. f_equal.
  replace (Z.to_nat (zlen a + zlen b)) with (length a + length b)%nat
    by (unfold zlen; lia).
  rewrite slice_split. unfold zlen in *.
  rewrite Nat2Z.id in Ha, Hb.
  replace (Z.to_nat (p + Z.of_nat (length a)))
    with (Z.to_nat p + length a)%nat in Hb by lia.
  now rewrite <- Ha, <- Hb.
Qed.

Lemma add_store (t : Tuple) (f : field_value) :
  add t f =
  (m <- store (data t) (data_used t) (field_wire f);;
   save_offset t m (data_used t + zlen (field_wire f))).
Proof.
  destruct f as [v|s]; cbn [add field_wire]; unfold add_uint, add_string.
  - rewrite mp_encode_uint_store.
    now destruct (store (data t) (data_used t) (uint_wire v)).
  - rewrite mp_encode_string_store.
    now destruct (store (data t) (data_used t) (string_wire s)).
Qed.

Lemma reset_inv (t0 : Tuple) (k : Z) :
  zlen (data t0) = MAX_TEST_TUPLE_DATA_SIZE ->
  1 <= k ->
  slots_size k <= MAX_TEST_TUPLE_DATA_SIZE ->
  exists t, reset t0 k = Ok t /\ tuple_inv k [] t.
Proof.
  intros Hl Hk Hs. unfold reset.
  replace (0 <? k) with true by lia. cbn [assert bind].
  eexists. split; [reflexivity|].
  assert (Hs' : 4 * (k - 1) <= 256) by exact Hs.
  assert (Hz : zlen (payload []) = 0) by reflexivity.
  constructor; cbn [data num_offsets field_count data_used first_field_offset];
    try assumption; try reflexivity; rewrite ?Hz, ?Z.add_0_r.
  - unfold slots_size, sizeof_offset_t.
    rewrite (Z.mod_small (k - 1)) by lia.
    rewrite Z.mod_small by lia. lia.
  - exact Hs.
  - congruence.
  - apply load_Ok; unfold slots_size, sizeof_offset_t in *; lia.
  - intros i Hi1 Hi. unfold zlen in Hi. cbn [length] in Hi. lia.
Qed.

Lemma le_decode_encode_small (w : nat) (v : Z) :
  0 <= v < 2 ^ (8 * Z.of_nat w) -> le_decode (le_encode w v) = v.
Proof. intros H. rewrite le_decode_encode. now apply Z.mod_small. Qed.

Lemma zlen_le_encode (w : nat) (v : Z) : zlen (le_encode w v) = Z.of_nat w.
Proof. unfold zlen. now rewrite le_encode_length. Qed.

Lemma zlen_field_wire_pos (f : field_value) : 1 <= zlen (field_wire f).
Proof.
  destruct f as [v|s]; cbn [field_wire].
  - pose proof (zlen_uint_wire_bound v). lia.
  - unfold string_wire. rewrite zlen_app.
    pose proof (zlen_string_header_bound (zlen s)).
    pose proof (zlen_nonneg s). lia.
Qed.

(** One append keeps the layout. *)
Lemma add_inv (k : Z) (fs : list field_value) (t : Tuple) (f : field_value) :
  tuple_inv k fs t ->
  slots_size k + zlen (payload (fs ++ [f])) <= MAX_TEST_TUPLE_DATA_SIZE ->
  exists t', add t f = Ok t' /\ tuple_inv k (fs ++ [f]) t'.
Proof.
  intros [Hlen Hk Hnum Hcnt Hused Hfit Hfirst Hpay Hslots] Hroom.
  rewrite payload_snoc, zlen_app in Hroom.
  pose proof (zlen_nonneg (payload fs)) as Hp0.
  pose proof (zlen_field_wire_pos f) as Hf0.
  pose proof (zlen_nonneg fs) as Hfs0.
  assert (Hss : slots_size k = 4 * (k - 1)) by reflexivity.
  assert (HM : MAX_TEST_TUPLE_DATA_SIZE = 256) by reflexivity.
  rewrite add_store.
  destruct (store (data t) (data_used t) (field_wire f)) as [m1|e] eqn:Est;
    [|rewrite store_Ok in Est by lia; discriminate].
  cbn [bind].
  pose proof (store_length _ _ _ _ Est) as Hl1.
  pose proof (load_store_same _ _ _ _ Est) as Hsame.
  (* the payload, the new field included, is in [m1] *)
  assert (Hpay1 : load m1 (slots_size k) (zlen (payload (fs ++ [f])))
                  = Ok (payload (fs ++ [f]))).
  { rewrite payload_snoc. apply load_app.
    - rewrite (load_store_other _ _ _ _ _ _ Est) by lia. exact Hpay.
    - rewrite <- Hused. exact Hsame. }
  assert (Hcnt' : (field_count t + 1) mod 2 ^ 32 = zlen (fs ++ [f])).
  { rewrite zlen_app, Hcnt. change (zlen [f]) with 1.
    apply Z.mod_small.
    assert (zlen fs <= zlen (payload fs)).
    { clear. induction fs as [|g fs IH]; [reflexivity|].
      change (g :: fs) with ([g] ++ fs). rewrite payload_app, !zlen_app.
      change (zlen [g]) with 1. unfold payload at 1. cbn [map concat].
      rewrite app_nil_r. pose proof (zlen_field_wire_pos g). lia. }
    lia. }
  assert (Hused' : (data_used t + zlen (field_wire f)) mod 2 ^ 32
                   = slots_size k + zlen (payload (fs ++ [f]))).
  { rewrite payload_snoc, zlen_app, Hused. rewrite Z.mod_small; lia. }
  assert (Hfit' : slots_size k + zlen (payload (fs ++ [f]))
                  <= MAX_TEST_TUPLE_DATA_SIZE).
  { rewrite payload_snoc, zlen_app. lia. }
  assert (Hne : fs ++ [f] <> []) by (now destruct fs).
  (* the slots written so far are as they were *)
  assert (Hold : forall m i, 1 <= i < k -> i < zlen fs ->
             load m (4 * (i - 1)) 4 = load (data t) (4 * (i - 1)) 4 ->
             get_offset {| field_count := zlen (fs ++ [f]);
                           data_used := 0; num_offsets := k;
                           first_field_offset := 0; some_useful_data := 0;
                           data := m |} i
             = Ok (field_pos k (fs ++ [f]) i)).
  { intros m i Hi1 Hi2 Hm. rewrite field_pos_snoc by lia.
    rewrite <- (Hslots i Hi1 Hi2). unfold get_offset. cbn [data].
    unfold sizeof_offset_t. now rewrite Hm. }
  unfold save_offset. rewrite Hcnt. rewrite Hcnt in Hcnt'.
  destruct (zlen fs =? 0) eqn:E0; cbn [bind].
  - (* first field *)
    eexists. split; [reflexivity|].
    assert (fs = []) by (destruct fs; [reflexivity|cbn in E0; lia]). subst fs.
    constructor; cbn [data num_offsets field_count data_used first_field_offset];
      try assumption; try lia.
    + intros _. rewrite Hused. cbn [payload map concat].
      change (zlen []) with 0. rewrite Z.add_0_r. apply Z.mod_small. lia.
    + intros i Hi1 Hi2. cbn in Hi2. lia.
  - rewrite Hnum. destruct (zlen fs <? k) eqn:E1; cbn [bind].
    + (* a field with an offset slot *)
      unfold set_offset. replace (0 <? zlen fs) with true by lia.
      cbn [assert bind]. unfold sizeof_offset_t.
      assert (Hslot : 4 * (zlen fs - 1) + 4 <= slots_size k)
        by (unfold slots_size, sizeof_offset_t; lia).
      destruct (store m1 (4 * (zlen fs - 1))
                  (le_encode 4 (data_used t mod 2 ^ 32))) as [m2|e] eqn:Est2;
        [|rewrite store_Ok in Est2 by (rewrite ?zlen_le_encode; lia);
          discriminate].
      cbn [bind]. eexists. split; [reflexivity|].
      pose proof (store_length _ _ _ _ Est2) as Hl2.
      pose proof (load_store_same _ _ _ _ Est2) as Hsame2.
      rewrite zlen_le_encode in Hsame2.
      constructor;
        cbn [data num_offsets field_count data_used first_field_offset];
        try assumption; try lia.
      * intros _. apply Hfirst. destruct fs; [cbn in E0; lia|discriminate].
      * rewrite (load_store_other _ _ _ _ _ _ Est2)
          by (rewrite zlen_le_encode; lia).
        exact Hpay1.
      * intros i Hi1 Hi2. rewrite zlen_app in Hi2. change (zlen [f]) with 1 in Hi2.
        destruct (Z.eq_dec i (zlen fs)) as [->|Hne'].
        -- unfold get_offset. replace (0 <? zlen fs) with true by lia.
           cbn [assert bind data]. unfold sizeof_offset_t.
           change (Z.of_nat 4) with 4 in Hsame2. rewrite Hsame2. cbn [bind].
           rewrite le_decode_encode_small
             by (apply Z.mod_pos_bound; reflexivity).
           rewrite Z.mod_small by lia.
           rewrite field_pos_snoc, field_pos_all by lia.
           now rewrite Hused.
        -- pose proof (Hold m2 i Hi1 ltac:(lia)) as Ho.
           unfold get_offset in *. cbn [data] in *. apply Ho.
           rewrite (load_store_other _ _ _ _ _ _ Est2)
             by (rewrite zlen_le_encode; lia).
           rewrite (load_store_other _ _ _ _ _ _ Est) by lia. reflexivity.
    + (* a field past the indexed prefix *)
      eexists. split; [reflexivity|].
      constructor;
        cbn [data num_offsets field_count data_used first_field_offset];
        try assumption; try lia.
      * intros _. apply Hfirst. destruct fs; [cbn in E0; lia|discriminate].
      * intros i Hi1 Hi2.
        pose proof (Hold m1 i Hi1 ltac:(lia)) as Ho.
        unfold get_offset in *. cbn [data] in *. apply Ho.
        rewrite (load_store_other _ _ _ _ _ _ Est) by lia. reflexivity.
Qed.

Lemma add_Ok_room (k : Z) (fs : list field_value) (t t' : Tuple)
    (f : field_value) :
  tuple_inv k fs t ->
  add t f = Ok t' ->
  slots_size k + zlen (payload (fs ++ [f])) <= MAX_TEST_TUPLE_DATA_SIZE.
Proof.
  intros Hinv Hadd. rewrite add_store in Hadd.
  destruct (store (data t) (data_used t) (field_wire f)) as [m|e] eqn:E;
    [|discriminate].
  apply store_inv in E as (_ & Hb & _).
  rewrite payload_snoc, zlen_app.
  rewrite (inv_len _ _ _ Hinv), (inv_used _ _ _ Hinv) in Hb. lia.
Qed.

Lemma add_inv_Ok (k : Z) (fs : list field_value) (t t' : Tuple)
    (f : field_value) :
  tuple_inv k fs t -> add t f = Ok t' -> tuple_inv k (fs ++ [f]) t'.
Proof.
  intros Hinv Hadd.
  destruct (add_inv k fs t f Hinv (add_Ok_room _ _ _ _ _ Hinv Hadd))
    as (t'' & Hadd' & Hinv').
  congruence.
Qed.

Lemma add_all_inv (k : Z) (fs pre : list field_value) (t : Tuple) :
  tuple_inv k pre t ->
  slots_size k + zlen (payload (pre ++ fs)) <= MAX_TEST_TUPLE_DATA_SIZE ->
  exists t', add_all t fs = Ok t' /\ tuple_inv k (pre ++ fs) t'.
Proof.
  revert pre t. induction fs as [|f fs IH]; intros pre t Hinv Hroom.
  - exists t. rewrite app_nil_r. now split.
  - cbn [add_all].
    replace (pre ++ f :: fs) with ((pre ++ [f]) ++ fs) in *
      by (now rewrite <- app_assoc).
    destruct (add_inv k pre t f Hinv) as (t1 & Hadd & Hinv1).
    { rewrite payload_app, zlen_app in Hroom.
      pose proof (zlen_nonneg (payload fs)). lia. }
    rewrite Hadd. cbn [bind]. now apply IH.
Qed.

Lemma add_all_inv_Ok (k : Z) (fs pre : list field_value) (t t' : Tuple) :
  tuple_inv k pre t -> add_all t fs = Ok t' -> tuple_inv k (pre ++ fs) t'.
Proof.
  revert pre t. induction fs as [|f fs IH]; intros pre t Hinv Hadd.
  - cbn in Hadd. injection Hadd as <-. now rewrite app_nil_r.
  - cbn [add_all] in Hadd.
    destruct (add t f) as [t1|e] eqn:E; [|discriminate]. cbn [bind] in Hadd.
    replace (pre ++ f :: fs) with ((pre ++ [f]) ++ fs)
      by (now rewrite <- app_assoc).
    eapply IH; [|exact Hadd]. eapply add_inv_Ok; eauto.
Qed.

(** A tuple built in a buffer that has room for slots and fields. *)
Lemma build_inv (t0 : Tuple) (k : Z) (fs : list field_value) :
  zlen (data t0) = MAX_TEST_TUPLE_DATA_SIZE ->
  1 <= k ->
  slots_size k + zlen (payload fs) <= MAX_TEST_TUPLE_DATA_SIZE ->
  exists t, build t0 k fs = Ok t /\ tuple_inv k fs t.
Proof.
  intros Hl Hk Hroom. unfold build.
  destruct (reset_inv t0 k Hl Hk) as (t1 & -> & Hinv1).
  { pose proof (zlen_nonneg (payload fs)). lia. }
  cbn [bind]. now apply (add_all_inv k fs []).
Qed.

Lemma build_inv_Ok (t0 t : Tuple) (k : Z) (fs : list field_value) :
  zlen (data t0) = MAX_TEST_TUPLE_DATA_SIZE ->
  1 <= k ->
  slots_size k <= MAX_TEST_TUPLE_DATA_SIZE ->
  build t0 k fs = Ok t ->
  tuple_inv k fs t.
Proof.
  intros Hl Hk Hs Hb. unfold build in Hb.
  destruct (reset_inv t0 k Hl Hk Hs) as (t1 & E & Hinv1).
  rewrite E in Hb. cbn [bind] in Hb.
  now apply (add_all_inv_Ok k fs [] t1 t).
Qed.

Lemma nth_error_split_firstn {A : Type} (l : list A) (n : nat) (x : A) :
  nth_error l n = Some x -> firstn (S n) l = firstn n l ++ [x].
Proof.
  revert l. induction n as [|n IH]; intros [|y l] H; try discriminate.
  - cbn in H. injection H as ->. reflexivity.
  - cbn [nth_error] in H.
    change (y :: firstn (S n) l = (y :: firstn n l) ++ [x]).
    now rewrite (IH l H).
Qed.

Lemma field_pos_succ (k : Z) (fs : list field_value) (i : Z) (f : field_value) :
  0 <= i ->
  nth_error fs (Z.to_nat i) = Some f ->
  field_pos k fs (i + 1) = field_pos k fs i + zlen (field_wire f).
Proof.
  intros Hi Hn. unfold field_pos.
  replace (Z.to_nat (i + 1)) with (S (Z.to_nat i)) by lia.
  rewrite (nth_error_split_firstn _ _ _ Hn), payload_snoc, zlen_app. lia.
Qed.

(** The buffer holds the encoding of field [i] at [field_pos k fs i]. *)
Lemma field_at (k : Z) (fs : list field_value) (t : Tuple)
    (i : Z) (f : field_value) :
  tuple_inv k fs t ->
  0 <= i ->
  nth_error fs (Z.to_nat i) = Some f ->
  load (data t) (field_pos k fs i) (zlen (field_wire f)) = Ok (field_wire f).
Proof.
  intros Hinv Hi Hn.
  pose proof (inv_payload _ _ _ Hinv) as Hp.
  pose proof (nth_error_split_firstn _ _ _ Hn) as Hs.
  rewrite <- (firstn_skipn (S (Z.to_nat i)) fs) in Hp.
  rewrite Hs, payload_app, payload_snoc in Hp.
  apply load_app_inv in Hp as [Hp _].
  apply load_app_inv in Hp as [_ Hp]. exact Hp.
Qed.

Lemma get_field_inv (k : Z) (fs : list field_value) (t : Tuple) (i : Z) :
  tuple_inv k fs t ->
  0 <= i < k ->
  i < zlen fs ->
  get_field t i = Ok (field_pos k fs i).
Proof.
  intros Hinv Hi Hl. unfold get_field.
  destruct (i =? 0) eqn:E.
  - assert (i = 0) by lia. subst i.
    rewrite (inv_first _ _ _ Hinv) by (destruct fs; [cbn in Hl; lia|discriminate]).
    unfold field_pos. cbn. now rewrite Z.add_0_r.
  - apply (inv_slots _ _ _ Hinv); lia.
Qed.

Lemma encoding_begins_inv (t0 : Tuple) (k : Z) (fs : list field_value)
    (t : Tuple) (i : Z) :
  zlen (data t0) = MAX_TEST_TUPLE_DATA_SIZE ->
  1 <= k ->
  tuple_inv k fs t ->
  0 <= i ->
  encoding_begins t0 k fs i = Ok (field_pos k fs i).
Proof.
  intros Hl Hk Hinv Hi. unfold encoding_begins.
  destruct (build_inv t0 k (firstn (Z.to_nat i) fs) Hl Hk) as (t1 & -> & Hinv1).
  - pose proof (inv_fit _ _ _ Hinv) as Hfit.
    rewrite <- (firstn_skipn (Z.to_nat i) fs), payload_app, zlen_app in Hfit.
    pose proof (zlen_nonneg (payload (skipn (Z.to_nat i) fs))). lia.
  - cbn [bind]. now rewrite (inv_used _ _ _ Hinv1).
Qed.

(** ** The record: offsets and frame of an append *)

(** C5 (amended). For a record built by [reset k], [k >= 1] with the [k - 1]
    offset slots fitting in the buffer, followed by in-order appends: for
    every existing field [i] with [1 <= i < k], the offset slot of field [i]
    holds the position at which field [i] was encoded, and the buffer holds
    the encoding of field [i] there; [get_field 0] returns the position at
    which field 0 was encoded.  Such a record is built whenever slots and
    fields fit in the buffer.  For the fields [42, "hello"] and two slots,
    [get_field 0] designates the byte 42 and [get_field 1] the marker
    [0xa5]. *)
Theorem offsets_locate_fields (t0 : Tuple) (k : Z) (fs : list field_value) :
  zlen (data t0) = MAX_TEST_TUPLE_DATA_SIZE ->
  1 <= k ->
  slots_size k <= MAX_TEST_TUPLE_DATA_SIZE ->
  (slots_size k + zlen (payload fs) <= MAX_TEST_TUPLE_DATA_SIZE ->
   exists t, build t0 k fs = Ok t)
  /\
  (forall t, build t0 k fs = Ok t ->
     (forall i f, 1 <= i < k -> i < field_count t ->
        nth_error fs (Z.to_nat i) = Some f ->
        exists pos,
          get_offset t i = Ok pos /\
          get_field t i = Ok pos /\
          encoding_begins t0 k fs i = Ok pos /\
          load (data t) pos (zlen (field_wire f)) = Ok (field_wire f))
     /\
     (forall f, nth_error fs 0 = Some f ->
        exists pos,
          get_field t 0 = Ok pos /\
          encoding_begins t0 k fs 0 = Ok pos /\
          load (data t) pos (zlen (field_wire f)) = Ok (field_wire f)))
  /\
  (exists t, build blank_tuple 2 scenario1_fields = Ok t /\
     get_field t 0 = Ok 4 /\ load (data t) 4 1 = Ok [byte_of_Z 42] /\
     get_field t 1 = Ok 5 /\ load (data t) 5 1 = Ok [byte_of_Z 0xa5]).
Proof.
  intros Hl Hk Hs. split; [|split].
  - intros Hroom. destruct (build_inv t0 k fs Hl Hk Hroom) as (t & Hb & _).
    eauto.
  - intros t Hb. pose proof (build_inv_Ok _ _ _ _ Hl Hk Hs Hb) as Hinv.
    split.
    + intros i f Hi Hc Hn. exists (field_pos k fs i).
      rewrite (inv_count _ _ _ Hinv) in Hc.
      split; [apply (inv_slots _ _ _ Hinv); lia|].
      split; [apply (get_field_inv k fs); auto; lia|].
      split; [apply (encoding_begins_inv t0 k fs t); auto; lia|].
      apply (field_at k fs t); auto; lia.
    + intros f Hn. exists (field_pos k fs 0).
      assert (Hc : 0 < zlen fs) by (destruct fs; [discriminate|cbn; lia]).
      split; [apply (get_field_inv k fs); auto; lia|].
      split; [apply (encoding_begins_inv t0 k fs t); auto; lia|].
      apply (field_at k fs t); auto; lia.
  - vm_compute. eexists. repeat split.
Qed.

Lemma offsets_locate_fields_witness :
  (slots_size 2 + zlen (payload scenario1_fields) <= MAX_TEST_TUPLE_DATA_SIZE ->
   exists t, build blank_tuple 2 scenario1_fields = Ok t)
  /\
  (forall t, build blank_tuple 2 scenario1_fields = Ok t ->
     (forall i f, 1 <= i < 2 -> i < field_count t ->
        nth_error scenario1_fields (Z.to_nat i) = Some f ->
        exists pos,
          get_offset t i = Ok pos /\
          get_field t i = Ok pos /\
          encoding_begins blank_tuple 2 scenario1_fields i = Ok pos /\
          load (data t) pos (zlen (field_wire f)) = Ok (field_wire f))
     /\
     (forall f, nth_error scenario1_fields 0 = Some f ->
        exists pos,
          get_field t 0 = Ok pos /\
          encoding_begins blank_tuple 2 scenario1_fields 0 = Ok pos /\
          load (data t) pos (zlen (field_wire f)) = Ok (field_wire f)))
  /\
  (exists t, build blank_tuple 2 scenario1_fields = Ok t /\
     get_field t 0 = Ok 4 /\ load (data t) 4 1 = Ok [byte_of_Z 42] /\
     get_field t 1 = Ok 5 /\ load (data t) 5 1 = Ok [byte_of_Z 0xa5]).
Proof.
  apply (offsets_locate_fields blank_tuple 2 scenario1_fields).
  - reflexivity.
  - lia.
  - vm_compute. discriminate.
Defined.

(** C5 as stated fails when the slot area does not fit: [reset] with
    [2^30 + 1] slots computes [data_used = 0], five one-byte fields are then
    appended inside the buffer, field 2 is encoded at position 2, and its
    slot ends up holding 9. *)
Lemma offsets_wrap_counterexample :
  exists t,
    build blank_tuple wrapping_num_offsets five_nines = Ok t /\
    1 <= wrapping_num_offsets /\
    1 <= 2 < wrapping_num_offsets /\
    2 < field_count t /\
    encoding_begins blank_tuple wrapping_num_offsets five_nines 2 = Ok 2 /\
    get_offset t 2 = Ok 9 /\
    get_offset t 2
      <> encoding_begins blank_tuple wrapping_num_offsets five_nines 2.
Proof.
  vm_compute. eexists. repeat split; discriminate.
Qed.

(** C10 (amended). For a record built by [reset k] with the [k - 1] offset
    slots fitting in the buffer, holding at least one field and with room for
    the encoding of [f]: [add] returns, and leaves the bytes of the fields
    appended before, the offset slots stored before, the first-field offset
    and [num_offsets] as they were; [data_used] grows by the number of bytes
    the encoder wrote and [field_count] by one. *)
Theorem add_frame (t0 t : Tuple) (k : Z) (fs : list field_value)
    (f : field_value) :
  zlen (data t0) = MAX_TEST_TUPLE_DATA_SIZE ->
  1 <= k ->
  slots_size k <= MAX_TEST_TUPLE_DATA_SIZE ->
  build t0 k fs = Ok t ->
  1 <= field_count t ->
  data_used t + zlen (field_wire f) <= MAX_TEST_TUPLE_DATA_SIZE ->
  exists t',
    add t f = Ok t' /\
    load (data t) (first_field_offset t) (data_used t - first_field_offset t)
      = Ok (payload fs) /\
    load (data t') (first_field_offset t) (data_used t - first_field_offset t)
      = Ok (payload fs) /\
    (forall i, 1 <= i < num_offsets t -> i < field_count t ->
       get_offset t' i = get_offset t i) /\
    first_field_offset t' = first_field_offset t /\
    num_offsets t' = num_offsets t /\
    (exists m, encode_field f (data t, data_used t) = Ok (m, data_used t')) /\
    data_used t' = data_used t + zlen (field_wire f) /\
    field_count t' = field_count t + 1.
Proof.
  intros Hl Hk Hs Hb Hc Hroom.
  pose proof (build_inv_Ok _ _ _ _ Hl Hk Hs Hb) as Hinv.
  destruct (add_inv k fs t f Hinv) as (t' & Hadd & Hinv').
  { rewrite payload_snoc, zlen_app, Z.add_assoc, <- (inv_used _ _ _ Hinv).
    exact Hroom. }
  exists t'. split; [exact Hadd|].
  assert (Hne : fs <> []).
  { rewrite (inv_count _ _ _ Hinv) in Hc. destruct fs; [cbn in Hc; lia|].
    discriminate. }
  assert (Hne' : fs ++ [f] <> []) by (now destruct fs).
  pose proof (inv_first _ _ _ Hinv Hne) as Hf.
  pose proof (inv_first _ _ _ Hinv' Hne') as Hf'.
  pose proof (inv_used _ _ _ Hinv) as Hu.
  pose proof (inv_used _ _ _ Hinv') as Hu'.
  rewrite payload_snoc, zlen_app in Hu'.
  assert (Hss : slots_size k = 4 * (k - 1)) by reflexivity.
  pose proof (zlen_nonneg (payload fs)) as Hp0.
  rewrite Hf.
  replace (data_used t - slots_size k) with (zlen (payload fs)) by lia.
  split; [apply (inv_payload _ _ _ Hinv)|].
  split.
  { pose proof (inv_payload _ _ _ Hinv') as Hp.
    rewrite payload_snoc in Hp. now apply load_app_inv in Hp as [Hp _]. }
  split.
  { intros i Hi1 Hi2.
    rewrite (inv_num _ _ _ Hinv) in Hi1. rewrite (inv_count _ _ _ Hinv) in Hi2.
    rewrite (inv_slots _ _ _ Hinv) by lia.
    rewrite (inv_slots _ _ _ Hinv')
      by (rewrite ?zlen_app; change (zlen [f]) with 1; lia).
    now rewrite field_pos_snoc by lia. }
  split; [congruence|].
  split; [rewrite (inv_num _ _ _ Hinv), (inv_num _ _ _ Hinv'); reflexivity|].
  split.
  { assert (He : encode_field f (data t, data_used t) =
                 (m <- store (data t) (data_used t) (field_wire f);;
                  Ok (m, data_used t + zlen (field_wire f)))).
    { destruct f; cbn [encode_field field_wire];
        [apply mp_encode_uint_store | apply mp_encode_string_store]. }
    rewrite He, store_Ok.
    - cbn [bind]. eexists. do 2 f_equal. lia.
    - lia.
    - rewrite (inv_len _ _ _ Hinv). exact Hroom. }
  split; [lia|].
  rewrite (inv_count _ _ _ Hinv), (inv_count _ _ _ Hinv'), zlen_app.
  reflexivity.
Qed.

Lemma add_frame_witness :
  exists t',
    add one_field_tuple (FString hello) = Ok t' /\
    load (data one_field_tuple) (first_field_offset one_field_tuple)
         (data_used one_field_tuple - first_field_offset one_field_tuple)
      = Ok (payload [FUint 42]) /\
    load (data t') (first_field_offset one_field_tuple)
         (data_used one_field_tuple - first_field_offset one_field_tuple)
      = Ok (payload [FUint 42]) /\
    (forall i, 1 <= i < num_offsets one_field_tuple ->
               i < field_count one_field_tuple ->
       get_offset t' i = get_offset one_field_tuple i) /\
    first_field_offset t' = first_field_offset one_field_tuple /\
    num_offsets t' = num_offsets one_field_tuple /\
    (exists m, encode_field (FString hello)
                 (data one_field_tuple, data_used one_field_tuple)
               = Ok (m, data_used t')) /\
    data_used t' = data_used one_field_tuple + zlen (field_wire (FString hello)) /\
    field_count t' = field_count one_field_tuple + 1.
Proof.
  apply (add_frame blank_tuple one_field_tuple 2 [FUint 42] (FString hello)).
  - reflexivity.
  - lia.
  - vm_compute. discriminate.
  - vm_compute. reflexivity.
  - vm_compute. discriminate.
  - vm_compute. discriminate.
Defined.

(** C10 as stated fails when the slot area does not fit: after [reset] with
    [2^30 + 1] slots and one append, the record has one field, 9, at
    position 0 and room left; appending 7 stores the slot of field 1 over
    position 0, and the byte of field 0 becomes 1. *)
Lemma add_wrap_counterexample :
  exists t t',
    build blank_tuple wrapping_num_offsets [FUint 9] = Ok t /\
    1 <= field_count t /\
    data_used t + zlen (field_wire (FUint 7)) <= MAX_TEST_TUPLE_DATA_SIZE /\
    add t (FUint 7) = Ok t' /\
    load (data t) (first_field_offset t) (data_used t - first_field_offset t)
      = Ok [byte_of_Z 9] /\
    load (data t') (first_field_offset t) (data_used t - first_field_offset t)
      = Ok [byte_of_Z 1] /\
    load (data t') (first_field_offset t) (data_used t - first_field_offset t)
      <> load (data t) (first_field_offset t)
              (data_used t - first_field_offset t).
Proof.
  do 2 eexists.
  split; [vm_compute; reflexivity|].
  split; [vm_compute; discriminate|].
  split; [vm_compute; discriminate|].
  split; [vm_compute; reflexivity|].
  split; [vm_compute; reflexivity|].
  split; vm_compute; [reflexivity | discriminate].
Qed.

(** ** Built records *)

Lemma built_inv (k : Z) (fs : list field_value) (t : Tuple) :
  built k fs t -> tuple_inv k fs t.
Proof.
  intros (t0 & Hl & Hk & Hs & _ & Hb). eapply build_inv_Ok; eauto.
Qed.

Lemma built_valid (k : Z) (fs : list field_value) (t : Tuple)
    (i : nat) (f : field_value) :
  built k fs t -> nth_error fs i = Some f -> valid_field f.
Proof.
  intros (t0 & _ & _ & _ & Hv & _) Hn.
  rewrite Forall_forall in Hv. apply Hv. eapply nth_error_In; eauto.
Qed.

(** ** Decoding at a field of a built record *)

Lemma mp_decode_uint_bad_marker (m : list byte) (p : Z) (b : byte) :
  load m p 1 = Ok [b] ->
  ~ uint_marker (Z_of_byte b) ->
  mp_decode_uint m p = Err AssertFailed.
Proof.
  intros H Hn. unfold uint_marker in Hn. unfold mp_decode_uint.
  rewrite (mp_read_load 1 _ _ _ H). cbn [bind]. rewrite be_value_1.
  set (c := Z_of_byte b) in *.
  destruct (c =? 0xcc) eqn:E1; [lia|].
  destruct (c =? 0xcd) eqn:E2; [lia|].
  destruct (c =? 0xce) eqn:E3; [lia|].
  destruct (c =? 0xcf) eqn:E4; [lia|].
  destruct (c <=? 0x7f) eqn:E5; [lia|]. reflexivity.
Qed.

Lemma mp_decode_string_bad_marker (m : list byte) (p : Z) (b : byte) :
  load m p 1 = Ok [b] ->
  ~ string_marker (Z_of_byte b) ->
  mp_decode_string m p = Err AssertFailed.
Proof.
  intros H Hn. unfold string_marker in Hn. unfold mp_decode_string.
  rewrite (mp_read_load 1 _ _ _ H). cbn [bind]. rewrite be_value_1.
  set (c := Z_of_byte b) in *.
  destruct (c =? 0xd9) eqn:E1; [lia|].
  destruct (c =? 0xda) eqn:E2; [lia|].
  destruct (c =? 0xdb) eqn:E3; [lia|].
  destruct ((0xa0 <=? c) && (c <=? 0xbf)) eqn:E4; [|reflexivity].
  apply andb_prop in E4. lia.
Qed.

(** The first byte of an encoded integer is no string marker. *)
Lemma uint_wire_head (v : Z) :
  0 <= v < 2 ^ 64 ->
  exists b rest, uint_wire v = b :: rest /\ ~ string_marker (Z_of_byte b).
Proof.
  intros Hv. unfold uint_wire, uint_form_of, string_marker.
  destruct (v <=? 0x7f) eqn:E1.
  { cbn [form_bytes]. do 2 eexists. split; [reflexivity|].
    rewrite Z_of_byte_of_Z, Z.mod_small by lia. lia. }
  repeat match goal with
         | |- context [if ?b then _ else _] => destruct b
         end; cbn [form_bytes]; do 2 eexists; (split; [reflexivity|]);
    rewrite Z_of_byte_of_Z; cbn; lia.
Qed.

(** The first byte of an encoded string is no integer marker. *)
Lemma string_wire_head (s : list byte) :
  exists b rest, string_wire s = b :: rest /\ ~ uint_marker (Z_of_byte b).
Proof.
  unfold string_wire, string_header, uint_marker.
  destruct (zlen s <=? 31) eqn:E1.
  { cbn [app]. do 2 eexists. split; [reflexivity|].
    rewrite Z_of_byte_of_Z.
    pose proof (zlen_nonneg s).
    destruct (fixstr_marker (zlen s) ltac:(lia)) as [Hc _]. cbv zeta in Hc.
    lia. }
  repeat match goal with
         | |- context [if ?b then _ else _] => destruct b
         end; cbn [app]; do 2 eexists; (split; [reflexivity|]);
    rewrite Z_of_byte_of_Z; cbn; lia.
Qed.

Lemma mp_decode_uint_at (k : Z) (fs : list field_value) (t : Tuple)
    (i : Z) (f : field_value) :
  built k fs t ->
  0 <= i ->
  nth_error fs (Z.to_nat i) = Some f ->
  mp_decode_uint (data t) (field_pos k fs i) =
  match f with
  | FUint v => Ok (v, field_pos k fs (i + 1))
  | FString _ => Err AssertFailed
  end.
Proof.
  intros Hb Hi Hn.
  pose proof (built_inv _ _ _ Hb) as Hinv.
  pose proof (built_valid _ _ _ _ _ Hb Hn) as Hv.
  pose proof (field_at _ _ _ _ _ Hinv Hi Hn) as Hl.
  rewrite (field_pos_succ _ _ _ _ Hi Hn).
  destruct f as [v|s]; cbn [field_wire valid_field] in *.
  - now apply mp_decode_uint_wire.
  - destruct (string_wire_head s) as (b & rest & E & Hm).
    rewrite E in Hl. apply load_cons_inv in Hl as [Hl _].
    eapply mp_decode_uint_bad_marker; eauto.
Qed.

Lemma mp_decode_string_at (k : Z) (fs : list field_value) (t : Tuple)
    (i : Z) (f : field_value) :
  built k fs t ->
  0 <= i ->
  nth_error fs (Z.to_nat i) = Some f ->
  mp_decode_string (data t) (field_pos k fs i) =
  match f with
  | FUint _ => Err AssertFailed
  | FString s =>
      Ok (field_pos k fs i + zlen (string_header (zlen s)), zlen s,
          field_pos k fs (i + 1))
  end.
Proof.
  intros Hb Hi Hn.
  pose proof (built_inv _ _ _ Hb) as Hinv.
  pose proof (built_valid _ _ _ _ _ Hb Hn) as Hv.
  pose proof (field_at _ _ _ _ _ Hinv Hi Hn) as Hl.
  rewrite (field_pos_succ _ _ _ _ Hi Hn).
  destruct f as [v|s]; cbn [field_wire valid_field] in *.
  - destruct (uint_wire_head v Hv) as (b & rest & E & Hm).
    rewrite E in Hl. apply load_cons_inv in Hl as [Hl _].
    eapply mp_decode_string_bad_marker; eauto.
  - now apply mp_decode_string_wire.
Qed.

(** The bytes of a string field lie behind its header. *)
Lemma string_bytes_at (k : Z) (fs : list field_value) (t : Tuple)
    (i : Z) (s : list byte) :
  built k fs t ->
  0 <= i ->
  nth_error fs (Z.to_nat i) = Some (FString s) ->
  load (data t) (field_pos k fs i + zlen (string_header (zlen s))) (zlen s)
  = Ok s.
Proof.
  intros Hb Hi Hn.
  pose proof (built_inv _ _ _ Hb) as Hinv.
  pose proof (field_at _ _ _ _ _ Hinv Hi Hn) as Hl.
  cbn [field_wire] in Hl. unfold string_wire in Hl.
  now apply load_app_inv in Hl as [_ Hl].
Qed.

(** ** The loop of the comparator on built records *)

Lemma part_at_prev (def : KeyDef) (i : Z) (part : KeyPart) :
  part_at def i = Ok part -> 0 < i -> exists prev, part_at def (i - 1) = Ok prev.
Proof.
  unfold part_at, MAX_NUM_FIELDS_IN_KEY. intros H Hi.
  destruct ((0 <=? i) && (i <? 16)) eqn:E; [|discriminate].
  apply andb_prop in E as [E1 E2].
  replace ((0 <=? i - 1) && (i - 1 <? 16)) with true
    by (symmetry; apply andb_true_intro; lia).
  destruct (nth_error (parts def) (Z.to_nat i)) eqn:En; [|discriminate].
  assert (Hlt : (Z.to_nat (i - 1) < length (parts def))%nat).
  { assert (Z.to_nat i < length (parts def))%nat
      by (apply nth_error_Some; congruence).
    lia. }
  apply nth_error_Some in Hlt.
  destruct (nth_error (parts def) (Z.to_nat (i - 1))); [eauto|congruence].
Qed.

Lemma nth_error_zlen {A : Type} (l : list A) (i : Z) :
  0 <= i < zlen l -> exists x, nth_error l (Z.to_nat i) = Some x.
Proof.
  intros Hi. unfold zlen in Hi.
  destruct (nth_error l (Z.to_nat i)) eqn:E; [eauto|].
  apply nth_error_None in E. lia.
Qed.

Section BuiltPair.

Variables (k1 k2 : Z) (fs1 fs2 : list field_value) (t1 t2 : Tuple).
Hypothesis Hb1 : built k1 fs1 t1.
Hypothesis Hb2 : built k2 fs2 t2.

Lemma position_cursors_at (def : KeyDef) (i : Z) (part : KeyPart) (p1 p2 : Z) :
  part_at def i = Ok part ->
  0 <= i ->
  in_prefix k1 fs1 k2 fs2 part ->
  cursors_ready k1 k2 fs1 fs2 def i p1 p2 ->
  position_cursors def t1 t2 i part p1 p2 =
  Ok (field_pos k1 fs1 (field_no part), field_pos k2 fs2 (field_no part)).
Proof.
  intros Hp Hi (Hf0 & Hf1 & Hf2 & Hf3 & Hf4) Hc.
  unfold position_cursors.
  assert (Hg : (p1 <- get_field t1 (field_no part);;
                p2 <- get_field t2 (field_no part);; Ok (p1, p2)) =
               Ok (field_pos k1 fs1 (field_no part),
                   field_pos k2 fs2 (field_no part))).
  { rewrite (get_field_inv k1 fs1 t1) by (auto using built_inv; lia).
    rewrite (get_field_inv k2 fs2 t2) by (auto using built_inv; lia).
    reflexivity. }
  destruct (must_reposition def i) as [[|]|e] eqn:Em; cbn [bind].
  - exact Hg.
  - destruct (Hc Em part Hp) as [-> ->]. reflexivity.
  - exfalso. unfold must_reposition in Em.
    destruct (i =? 0) eqn:E0; [discriminate|].
    rewrite Hp in Em. cbn [bind] in Em.
    destruct (part_at_prev def i part Hp ltac:(lia)) as [prev Hprev].
    rewrite Hprev in Em. discriminate.
Qed.

(** When the comparison of two fields goes on to the next key part, the
    cursors are at the fields that follow. *)
Lemma compare_fields_next (ty : field_type_t) (j q1 q2 : Z) :
  0 <= j -> j < zlen fs1 -> j < zlen fs2 ->
  compare_fields ty t1 t2 (field_pos k1 fs1 j) (field_pos k2 fs2 j)
    = Ok (Continue q1 q2) ->
  q1 = field_pos k1 fs1 (j + 1) /\ q2 = field_pos k2 fs2 (j + 1).
Proof.
  intros Hj Hj1 Hj2.
  destruct (nth_error_zlen fs1 j ltac:(lia)) as [f1 Hn1].
  destruct (nth_error_zlen fs2 j ltac:(lia)) as [f2 Hn2].
  unfold compare_fields.
  rewrite (mp_decode_uint_at _ _ _ _ _ Hb1 Hj Hn1).
  rewrite (mp_decode_uint_at _ _ _ _ _ Hb2 Hj Hn2).
  rewrite (mp_decode_string_at _ _ _ _ _ Hb1 Hj Hn1).
  rewrite (mp_decode_string_at _ _ _ _ _ Hb2 Hj Hn2).
  destruct (field_type_eqb ty UINT).
  - destruct f1 as [v1|s1]; cbn [bind]; [|discriminate].
    destruct f2 as [v2|s2]; cbn [bind]; [|discriminate].
    destruct (v1 <? v2); [discriminate|].
    destruct (v1 >? v2); [discriminate|].
    intros [= <- <-]. now split.
  - destruct f1 as [v1|s1]; cbn [bind]; [discriminate|].
    destruct f2 as [v2|s2]; cbn [bind]; [discriminate|].
    cbv zeta.
    destruct (memcmp _ _ _ _ _) as [r|e]; cbn [bind]; [|discriminate].
    destruct (negb (r =? 0)); [discriminate|].
    destruct (zlen s1 <? zlen s2); [discriminate|].
    destruct (zlen s1 >? zlen s2); [discriminate|].
    intros [= <- <-]. now split.
Qed.

Lemma cursors_ready_next (def : KeyDef) (i : Z) (part : KeyPart) :
  part_at def i = Ok part ->
  in_prefix k1 fs1 k2 fs2 part ->
  cursors_ready k1 k2 fs1 fs2 def (i + 1)
    (field_pos k1 fs1 (field_no part + 1))
    (field_pos k2 fs2 (field_no part + 1)).
Proof.
  intros Hp (Hf0 & Hf1 & Hf2 & Hf3 & Hf4) Hm part' Hp'.
  unfold must_reposition in Hm.
  destruct (i + 1 =? 0); [discriminate|].
  rewrite Hp' in Hm. cbn [bind] in Hm.
  replace (i + 1 - 1) with i in Hm by lia.
  rewrite Hp in Hm. cbn [bind] in Hm.
  injection Hm as Hm. apply negb_false_iff in Hm.
  pose proof (inv_fit _ _ _ (built_inv _ _ _ Hb1)) as Hfit.
  assert (Hz : zlen fs1 <= 256).
  { pose proof (built_inv _ _ _ Hb1) as Hinv.
    pose proof (inv_count _ _ _ Hinv) as Hc.
    destruct Hb1 as (t0 & Hl & Hk & Hs & _ & Hbuild).
    assert (zlen fs1 <= zlen (payload fs1)).
    { clear. induction fs1 as [|g fs IH]; [reflexivity|].
      change (g :: fs) with ([g] ++ fs). rewrite payload_app, !zlen_app.
      change (zlen [g]) with 1. unfold payload at 1. cbn [map concat].
      rewrite app_nil_r. pose proof (zlen_field_wire_pos g). lia. }
    assert (slots_size k1 = 4 * (k1 - 1)) by reflexivity.
    change MAX_TEST_TUPLE_DATA_SIZE with 256 in *. lia. }
  rewrite Z.mod_small in Hm by lia.
  assert (field_no part' = field_no part + 1) by lia.
  now replace (field_no part') with (field_no part + 1).
Qed.

(** The loop with cursor reuse computes what the loop without it computes. *)
Lemma compare_parts_reference (def : KeyDef) (n : nat) :
  forall i p1 p2,
  0 <= i ->
  (forall j part, i <= j < i + Z.of_nat n -> part_at def j = Ok part ->
                  in_prefix k1 fs1 k2 fs2 part) ->
  cursors_ready k1 k2 fs1 fs2 def i p1 p2 ->
  compare_parts def t1 t2 n i p1 p2 = reference_compare_parts def t1 t2 n i.
Proof.
  induction n as [|n IH]; intros i p1 p2 Hi Hrange Hc; [reflexivity|].
  cbn [compare_parts reference_compare_parts].
  destruct (part_at def i) as [part|e] eqn:Hp; cbn [bind]; [|reflexivity].
  pose proof (Hrange i part ltac:(lia) Hp) as Hin.
  rewrite (position_cursors_at def i part p1 p2 Hp Hi Hin Hc). cbn [bind].
  destruct Hin as (Hf0 & Hf1 & Hf2 & Hf3 & Hf4).
  rewrite (get_field_inv k1 fs1 t1) by (auto using built_inv; lia).
  rewrite (get_field_inv k2 fs2 t2) by (auto using built_inv; lia).
  cbn [bind].
  destruct (part_at def 0) as [part0|e]; cbn [bind]; [|reflexivity].
  destruct (compare_fields _ _ _ _ _) as [[r|q1 q2]|e] eqn:Ec; cbn [bind];
    try reflexivity.
  apply compare_fields_next in Ec as [-> ->]; try lia.
  apply IH.
  - lia.
  - intros j part' Hj. apply Hrange. lia.
  - apply (cursors_ready_next def i part Hp). repeat split; assumption.
Qed.

End BuiltPair.

(** ** Closed instances of built records *)

Lemma built_blank (k : Z) (fs : list field_value) (t : Tuple) :
  1 <= k ->
  slots_size k <= MAX_TEST_TUPLE_DATA_SIZE ->
  Forall valid_field fs ->
  build blank_tuple k fs = Ok t ->
  built k fs t.
Proof.
  intros Hk Hs Hv Hb. exists blank_tuple. repeat split; auto.
Qed.

Ltac valid_fields :=
  repeat (apply Forall_cons || apply Forall_nil);
  vm_compute; try reflexivity; (split; [discriminate | reflexivity]).

Ltac built_from_blank :=
  apply built_blank;
  [lia | vm_compute; discriminate | valid_fields | reflexivity].

(** ** The comparators: cursor reuse, the first-integer comparator, the type
    tested *)

(** C4 (amended). For records built by [reset] and in-order appends with the
    offset slots fitting in the buffer, and a key definition every part of
    which names a field below the field count and below [num_offsets] of both
    records, [default_tuple_compare] returns what the comparator that calls
    [get_field] in every iteration returns.  Definitions whose parts name
    strictly consecutive fields, on records holding the declared types in
    those fields, are a special case. *)
Theorem cursor_reuse_transparent (def : KeyDef) (k1 k2 : Z)
    (fs1 fs2 : list field_value) (t1 t2 : Tuple) :
  built k1 fs1 t1 ->
  built k2 fs2 t2 ->
  (forall j part, 0 <= j < part_count def -> part_at def j = Ok part ->
                  in_prefix k1 fs1 k2 fs2 part) ->
  default_tuple_compare def t1 t2 = reference_tuple_compare def t1 t2.
Proof.
  intros Hb1 Hb2 Hrange.
  unfold default_tuple_compare, reference_tuple_compare.
  destruct (assert (0 <? part_count def)) as [[]|e] eqn:Ea; cbn [bind];
    [|reflexivity].
  apply (compare_parts_reference k1 k2 fs1 fs2 t1 t2 Hb1 Hb2).
  - lia.
  - intros j part Hj. apply Hrange. lia.
  - intros Hm. discriminate.
Qed.

Lemma cursor_reuse_transparent_witness :
  default_tuple_compare sequential_uint_def tuple_123 tuple_124
  = reference_tuple_compare sequential_uint_def tuple_123 tuple_124.
Proof.
  apply (cursor_reuse_transparent sequential_uint_def 3 3
           [FUint 1; FUint 2; FUint 3] [FUint 1; FUint 2; FUint 4]).
  - built_from_blank.
  - built_from_blank.
  - intros j part Hj Hp.
    assert (Hc : j = 0 \/ j = 1) by (cbn in Hj; lia).
    destruct Hc as [-> | ->]; vm_compute in Hp; injection Hp as <-;
      vm_compute; repeat split; discriminate.
Defined.

(** C4 as stated fails for fields outside the indexed prefix: the two records
    hold six integers each behind [reset 1], the key names fields 0 and 1,
    fields 0 and 1 are equal in both; with the cursor reuse the result is 0,
    while [get_field 1] reads the integer 5 out of the first four field bytes
    and the comparison at position 5 finds 9 against 7. *)
Lemma cursor_reuse_counterexample :
  build blank_tuple 1 [FUint 5; FUint 0; FUint 0; FUint 0; FUint 0; FUint 9]
    = Ok unindexed_9 /\
  build blank_tuple 1 [FUint 5; FUint 0; FUint 0; FUint 0; FUint 0; FUint 7]
    = Ok unindexed_7 /\
  default_tuple_compare leading_uints_def unindexed_9 unindexed_7 = Ok 0 /\
  reference_tuple_compare leading_uints_def unindexed_9 unindexed_7 = Ok 1 /\
  default_tuple_compare leading_uints_def unindexed_9 unindexed_7
    <> reference_tuple_compare leading_uints_def unindexed_9 unindexed_7.
Proof.
  split; [vm_compute; reflexivity|].
  split; [vm_compute; reflexivity|].
  split; [vm_compute; reflexivity|].
  split; vm_compute; [reflexivity | discriminate].
Qed.

Lemma first_uint_same (rest : list KeyPart) (f : compare_fn) (t1 t2 : Tuple) :
  tuple_compare_by_first_uint (mkKeyDef 1 (mkKeyPart UINT 0 :: rest) f) t1 t2
  = default_tuple_compare (mkKeyDef 1 (mkKeyPart UINT 0 :: rest) f) t1 t2.
Proof.
  unfold tuple_compare_by_first_uint, default_tuple_compare.
  change (Z.to_nat (part_count (mkKeyDef 1 (mkKeyPart UINT 0 :: rest) f)))
    with 1%nat.
  cbn [part_count assert bind compare_parts].
  change (part_at (mkKeyDef 1 (mkKeyPart UINT 0 :: rest) f) 0)
    with (Ok (mkKeyPart UINT 0)).
  cbn [bind position_cursors must_reposition Z.eqb get_field field_no
       field_type field_type_eqb compare_fields].
  destruct (mp_decode_uint (data t1) (first_field_offset t1)) as [[v1 q1]|e];
    cbn [bind]; [|reflexivity].
  destruct (mp_decode_uint (data t2) (first_field_offset t2)) as [[v2 q2]|e];
    cbn [bind]; [|reflexivity].
  destruct (v1 <? v2); [reflexivity|].
  destruct (v1 >? v2); reflexivity.
Qed.

(** C9. For the key definition [(field 0, UINT)] and two records whose
    field 0 is an encoded integer (the bytes at the first-field offset decode
    to [v1] and to [v2]), [tuple_compare_by_first_uint] and
    [default_tuple_compare] return the same result, which is -1, 0 or 1
    according to the order of the two integers. *)
Theorem first_uint_comparators_agree (rest : list KeyPart) (f : compare_fn)
    (t1 t2 : Tuple) (v1 q1 v2 q2 : Z) :
  mp_decode_uint (data t1) (first_field_offset t1) = Ok (v1, q1) ->
  mp_decode_uint (data t2) (first_field_offset t2) = Ok (v2, q2) ->
  let def := mkKeyDef 1 (mkKeyPart UINT 0 :: rest) f in
  tuple_compare_by_first_uint def t1 t2 = default_tuple_compare def t1 t2 /\
  default_tuple_compare def t1 t2 =
    Ok (if v1 <? v2 then -1 else if v1 >? v2 then 1 else 0).
Proof.
  intros Hd1 Hd2 def. split; [apply first_uint_same|].
  unfold def. rewrite <- first_uint_same. unfold tuple_compare_by_first_uint.
  rewrite Hd1, Hd2. reflexivity.
Qed.

Lemma first_uint_comparators_agree_witness :
  tuple_compare_by_first_uint first_uint_def tuple_5 tuple_300
    = default_tuple_compare first_uint_def tuple_5 tuple_300 /\
  default_tuple_compare first_uint_def tuple_5 tuple_300 =
    Ok (if 5 <? 300 then -1 else if 5 >? 300 then 1 else 0).
Proof.
  apply (first_uint_comparators_agree [] DefaultTupleCompare
           tuple_5 tuple_300 5 1 300 3); reflexivity.
Defined.

(** Every built record that begins with an integer meets the premise of
    C9. *)
Lemma built_first_uint (k : Z) (v : Z) (fs : list field_value) (t : Tuple) :
  built k (FUint v :: fs) t ->
  exists q, mp_decode_uint (data t) (first_field_offset t) = Ok (v, q).
Proof.
  intros Hb. pose proof (built_inv _ _ _ Hb) as Hi.
  rewrite (inv_first _ _ _ Hi) by discriminate.
  pose proof (mp_decode_uint_at _ _ _ 0 _ Hb ltac:(lia) eq_refl) as Hd.
  unfold field_pos in Hd at 1.
  cbn [Z.to_nat firstn payload map concat] in Hd.
  change (zlen []) with 0 in Hd. rewrite Z.add_0_r in Hd. eauto.
Qed.

(** C1, at the failing input.  The key is [(field 0, UINT), (field 1,
    STRING)] and the record holds the integer 7 and the string "a".  Field 1
    begins at position 5; decoded as the STRING its key part declares, the
    two fields compare equal and the comparator that tests the type of each
    part returns 0.
    [default_tuple_compare] decodes field 1 with the type of part 0, as an
    integer, and ends in the failing assertion of [mp_decode_uint]. *)
Theorem second_part_decoded_as_first :
  build blank_tuple 2 [FUint 7; FString (bytes_of [97])] = Ok tuple_7_a /\
  get_field tuple_7_a 1 = Ok 5 /\
  mp_decode_string (data tuple_7_a) 5 = Ok (6, 1, 7) /\
  mp_decode_uint (data tuple_7_a) 5 = Err AssertFailed /\
  per_part_tuple_compare uint_then_string_def tuple_7_a tuple_7_a = Ok 0 /\
  default_tuple_compare uint_then_string_def tuple_7_a tuple_7_a
    = Err AssertFailed.
Proof.
  repeat split; vm_compute; reflexivity.
Qed.

(** ** String comparison *)

Lemma memcmp_bytes_sign (a b : list byte) :
  (memcmp_bytes a b ?= 0) = compare_bytes a b.
Proof.
  revert b. induction a as [|x a IH]; intros [|y b]; try reflexivity.
  cbn [memcmp_bytes compare_bytes].
  pose proof (Z_of_byte_range x). pose proof (Z_of_byte_range y).
  destruct (Z_of_byte x =? Z_of_byte y) eqn:E.
  - apply Z.eqb_eq in E. rewrite E, Z.compare_refl. apply IH.
  - apply Z.eqb_neq in E.
    destruct (Z_of_byte x ?= Z_of_byte y) eqn:Ec.
    + apply Z.compare_eq in Ec. contradiction.
    + rewrite Z.compare_lt_iff in Ec |- *. lia.
    + rewrite Z.compare_gt_iff in Ec |- *. lia.
Qed.

Lemma load_prefix (m : list byte) (p : Z) (s : list byte) (n : Z) :
  load m p (zlen s) = Ok s ->
  0 <= n <= zlen s ->
  load m p n = Ok (firstn (Z.to_nat n) s).
Proof.
  intros H Hn. apply load_inv in H as (Hp & _ & Hb & Hs & _).
  rewrite load_Ok by lia. f_equal.
  set (N := Z.to_nat n). rewrite Hs. unfold slice.
  rewrite firstn_firstn. f_equal. unfold N, zlen in *. lia.
Qed.

Lemma compare_fields_strings (k1 k2 : Z) (fs1 fs2 : list field_value)
    (t1 t2 : Tuple) (j1 j2 : Z) (s1 s2 : list byte) :
  built k1 fs1 t1 ->
  built k2 fs2 t2 ->
  0 <= j1 -> 0 <= j2 ->
  nth_error fs1 (Z.to_nat j1) = Some (FString s1) ->
  nth_error fs2 (Z.to_nat j2) = Some (FString s2) ->
  exists s,
    compare_fields STRING t1 t2 (field_pos k1 fs1 j1) (field_pos k2 fs2 j2)
      = Ok s /\
    step_agrees (compare_string s1 s2) s
      (field_pos k1 fs1 (j1 + 1)) (field_pos k2 fs2 (j2 + 1)).
Proof.
  intros Hb1 Hb2 Hj1 Hj2 Hn1 Hn2.
  unfold compare_fields. cbn [field_type_eqb].
  rewrite (mp_decode_string_at _ _ _ _ _ Hb1 Hj1 Hn1).
  rewrite (mp_decode_string_at _ _ _ _ _ Hb2 Hj2 Hn2).
  cbn [bind]. cbv zeta.
  pose proof (string_bytes_at _ _ _ _ _ Hb1 Hj1 Hn1) as Hl1.
  pose proof (string_bytes_at _ _ _ _ _ Hb2 Hj2 Hn2) as Hl2.
  pose proof (zlen_nonneg s1) as H1. pose proof (zlen_nonneg s2) as H2.
  set (min_len := if zlen s1 <? zlen s2 then zlen s1 else zlen s2).
  assert (Hmin : 0 <= min_len <= zlen s1 /\ min_len <= zlen s2 /\
                 Z.to_nat min_len = Nat.min (length s1) (length s2)).
  { unfold min_len, zlen in *. destruct (_ <? _) eqn:E; lia. }
  destruct Hmin as (Hm1 & Hm2 & Hm3).
  unfold memcmp.
  rewrite (load_prefix _ _ _ _ Hl1) by lia.
  rewrite (load_prefix _ _ _ _ Hl2) by lia.
  cbn [bind]. rewrite Hm3.
  unfold compare_string, step_agrees.
  rewrite <- memcmp_bytes_sign.
  set (r := memcmp_bytes _ _).
  destruct (r ?= 0) eqn:Er.
  - apply Z.compare_eq in Er. rewrite Er. cbn [Z.eqb negb].
    destruct (zlen s1 ?= zlen s2) eqn:El.
    + apply Z.compare_eq in El.
      replace (zlen s1 <? zlen s2) with false by lia.
      replace (zlen s1 >? zlen s2) with false by lia.
      eexists. split; reflexivity.
    + rewrite Z.compare_lt_iff in El.
      replace (zlen s1 <? zlen s2) with true by lia.
      eexists. split; [reflexivity|]. exists (-1). split; [reflexivity|lia].
    + rewrite Z.compare_gt_iff in El.
      replace (zlen s1 <? zlen s2) with false by lia.
      replace (zlen s1 >? zlen s2) with true by lia.
      eexists. split; [reflexivity|]. exists 1. split; [reflexivity|lia].
  - rewrite Z.compare_lt_iff in Er.
    replace (negb (r =? 0)) with true by (symmetry; apply negb_true_iff; lia).
    eexists. split; [reflexivity|]. exists r. split; [reflexivity|lia].
  - rewrite Z.compare_gt_iff in Er.
    replace (negb (r =? 0)) with true by (symmetry; apply negb_true_iff; lia).
    eexists. split; [reflexivity|]. exists r. split; [reflexivity|lia].
Qed.

(** The STRING branch of the loop, which is taken when part 0 declares
    STRING.  An iteration that compares two string fields [s1], [s2] of the
    indexed prefix under a STRING key part: the raw bytes are compared over
    the shorter of the two lengths and, the common prefix being equal, the
    shorter string is the lesser.  The comparator returns a negative result
    when [s1] is less, a positive one when it is greater, and goes on with
    the next key part, the cursors behind the two fields, when they are
    equal.  "ab" against "abc" is less, "b" against "a" greater, "x" against
    "x" equal. *)
Theorem string_parts_lexicographic (def : KeyDef) (k1 k2 : Z)
    (fs1 fs2 : list field_value) (t1 t2 : Tuple)
    (n : nat) (i p1 p2 : Z) (part part0 : KeyPart) (s1 s2 : list byte) :
  built k1 fs1 t1 ->
  built k2 fs2 t2 ->
  0 <= i ->
  part_at def i = Ok part ->
  part_at def 0 = Ok part0 ->
  field_type part = STRING ->
  field_type part0 = STRING ->
  in_prefix k1 fs1 k2 fs2 part ->
  cursors_ready k1 k2 fs1 fs2 def i p1 p2 ->
  nth_error fs1 (Z.to_nat (field_no part)) = Some (FString s1) ->
  nth_error fs2 (Z.to_nat (field_no part)) = Some (FString s2) ->
  match compare_string s1 s2 with
  | Lt => exists r, compare_parts def t1 t2 (S n) i p1 p2 = Ok r /\ r < 0
  | Gt => exists r, compare_parts def t1 t2 (S n) i p1 p2 = Ok r /\ 0 < r
  | Eq => compare_parts def t1 t2 (S n) i p1 p2
          = compare_parts def t1 t2 n (i + 1)
              (field_pos k1 fs1 (field_no part + 1))
              (field_pos k2 fs2 (field_no part + 1))
  end
  /\ compare_string (bytes_of [97; 98]) (bytes_of [97; 98; 99]) = Lt
  /\ compare_one_string (bytes_of [97; 98]) (bytes_of [97; 98; 99]) = Ok (-1)
  /\ compare_string (bytes_of [98]) (bytes_of [97]) = Gt
  /\ compare_one_string (bytes_of [98]) (bytes_of [97]) = Ok 1
  /\ compare_string (bytes_of [120]) (bytes_of [120]) = Eq
  /\ compare_one_string (bytes_of [120]) (bytes_of [120]) = Ok 0.
Proof.
  intros Hb1 Hb2 Hi Hp Hp0 Hty Hty0 Hin Hc Hn1 Hn2.
  split; [|repeat split; vm_compute; reflexivity].
  cbn [compare_parts]. rewrite Hp. cbn [bind].
  rewrite (position_cursors_at k1 k2 fs1 fs2 t1 t2 Hb1 Hb2
             def i part p1 p2 Hp Hi Hin Hc).
  cbn [bind]. rewrite Hp0. cbn [bind]. rewrite Hty0.
  destruct Hin as (Hf0 & _).
  destruct (compare_fields_strings k1 k2 fs1 fs2 t1 t2
              (field_no part) (field_no part) s1 s2
              Hb1 Hb2 Hf0 Hf0 Hn1 Hn2) as (s & -> & Hs).
  cbn [bind]. unfold step_agrees in Hs.
  destruct (compare_string s1 s2).
  - now rewrite Hs.
  - destruct Hs as (r & -> & Hr). eauto.
  - destruct Hs as (r & -> & Hr). eauto.
Qed.

Lemma string_parts_lexicographic_witness :
  match compare_string (bytes_of [97; 98]) (bytes_of [97; 98; 99]) with
  | Lt => exists r,
      compare_parts string_pair_def tuple_b_ab tuple_b_abc 2 0 0 0 = Ok r /\
      r < 0
  | Gt => exists r,
      compare_parts string_pair_def tuple_b_ab tuple_b_abc 2 0 0 0 = Ok r /\
      0 < r
  | Eq => compare_parts string_pair_def tuple_b_ab tuple_b_abc 2 0 0 0
          = compare_parts string_pair_def tuple_b_ab tuple_b_abc 1 (0 + 1)
              (field_pos 3
                 [FUint 1; FString (bytes_of [98]); FString (bytes_of [97; 98])]
                 (2 + 1))
              (field_pos 3
                 [FUint 1; FString (bytes_of [98]);
                  FString (bytes_of [97; 98; 99])]
                 (2 + 1))
  end
  /\ compare_string (bytes_of [97; 98]) (bytes_of [97; 98; 99]) = Lt
  /\ compare_one_string (bytes_of [97; 98]) (bytes_of [97; 98; 99]) = Ok (-1)
  /\ compare_string (bytes_of [98]) (bytes_of [97]) = Gt
  /\ compare_one_string (bytes_of [98]) (bytes_of [97]) = Ok 1
  /\ compare_string (bytes_of [120]) (bytes_of [120]) = Eq
  /\ compare_one_string (bytes_of [120]) (bytes_of [120]) = Ok 0.
Proof.
  apply (string_parts_lexicographic string_pair_def 3 3
           [FUint 1; FString (bytes_of [98]); FString (bytes_of [97; 98])]
           [FUint 1; FString (bytes_of [98]); FString (bytes_of [97; 98; 99])]
           tuple_b_ab tuple_b_abc 1 0 0 0
           (mkKeyPart STRING 2) (mkKeyPart STRING 2)).
  - built_from_blank.
  - built_from_blank.
  - lia.
  - reflexivity.
  - reflexivity.
  - reflexivity.
  - reflexivity.
  - unfold in_prefix, zlen. cbn [field_no length]. lia.
  - intros H. vm_compute in H. discriminate.
  - reflexivity.
  - reflexivity.
Defined.

(** C7, at the failing input.  The key is [(field 0, UINT), (field 1,
    STRING)]; the two records hold the integer 7 and the strings "ab" and
    "abc".  Key part 1 declares STRING and names field 1, which begins at
    position 5 in both records and holds a string in both; "ab" is less than
    "abc", which is what the comparator returns under the key [(field 1,
    STRING)], and what the comparator that tests the type of each part
    returns under the key given.  [default_tuple_compare] takes the branch
    of the type of part 0 for part 1 too, decodes the two strings as
    integers, and ends in the failing assertion of [mp_decode_uint]. *)
Theorem string_part_behind_uint_part :
  build blank_tuple 2 [FUint 7; FString (bytes_of [97; 98])] = Ok tuple_7_ab /\
  build blank_tuple 2 [FUint 7; FString (bytes_of [97; 98; 99])]
    = Ok tuple_7_abc /\
  part_at uint_then_string_def 1 = Ok (mkKeyPart STRING 1) /\
  get_field tuple_7_ab 1 = Ok 5 /\
  get_field tuple_7_abc 1 = Ok 5 /\
  mp_decode_string (data tuple_7_ab) 5 = Ok (6, 2, 8) /\
  mp_decode_string (data tuple_7_abc) 5 = Ok (6, 3, 9) /\
  load (data tuple_7_ab) 6 2 = Ok (bytes_of [97; 98]) /\
  load (data tuple_7_abc) 6 3 = Ok (bytes_of [97; 98; 99]) /\
  compare_string (bytes_of [97; 98]) (bytes_of [97; 98; 99]) = Lt /\
  default_tuple_compare second_string_def tuple_7_ab tuple_7_abc = Ok (-1) /\
  per_part_tuple_compare uint_then_string_def tuple_7_ab tuple_7_abc
    = Ok (-1) /\
  default_tuple_compare uint_then_string_def tuple_7_ab tuple_7_abc
    = Err AssertFailed.
Proof.
  repeat split; vm_compute; reflexivity.
Qed.

(** ** Lexicographic orders *)

Section Lex.

Variable A : Type.
Variable cmp : A -> A -> comparison.

Hypothesis cmp_refl : forall a, cmp a a = Eq.
Hypothesis cmp_eq : forall a b, cmp a b = Eq -> a = b.
Hypothesis cmp_opp : forall a b, cmp b a = CompOpp (cmp a b).
Hypothesis cmp_trans :
  forall a b c, cmp a b = Lt -> cmp b c = Lt -> cmp a c = Lt.

Lemma lex_refl (l : list A) : lex cmp l l = Eq.
Proof.
  induction l as [|a l IH]; [reflexivity|]. cbn. now rewrite cmp_refl.
Qed.

Lemma lex_eq (l1 l2 : list A) : lex cmp l1 l2 = Eq -> l1 = l2.
Proof.
  revert l2. induction l1 as [|a l1 IH]; intros [|b l2] H;
    try reflexivity; try discriminate.
  cbn in H. destruct (cmp a b) eqn:E; try discriminate.
  apply cmp_eq in E. subst b. f_equal. now apply IH.
Qed.

Lemma lex_opp (l1 l2 : list A) : lex cmp l2 l1 = CompOpp (lex cmp l1 l2).
Proof.
  revert l2. induction l1 as [|a l1 IH]; intros [|b l2]; try reflexivity.
  cbn. rewrite (cmp_opp a b). destruct (cmp a b); cbn; auto.
Qed.

Lemma lex_trans (l1 l2 l3 : list A) :
  lex cmp l1 l2 = Lt -> lex cmp l2 l3 = Lt -> lex cmp l1 l3 = Lt.
Proof.
  revert l2 l3.
  induction l1 as [|a l1 IH]; intros [|b l2] [|c l3] H12 H23;
    try reflexivity; try discriminate.
  cbn in *.
  destruct (cmp a b) eqn:Eab; try discriminate.
  - apply cmp_eq in Eab. subst b.
    destruct (cmp a c); try discriminate; eauto.
  - destruct (cmp b c) eqn:Ebc; try discriminate.
    + apply cmp_eq in Ebc. subst c. now rewrite Eab.
    + now rewrite (cmp_trans _ _ _ Eab Ebc).
Qed.

End Lex.

Lemma byte_compare_refl (a : byte) : byte_compare a a = Eq.
Proof. apply Z.compare_refl. Qed.

Lemma byte_compare_eq (a b : byte) : byte_compare a b = Eq -> a = b.
Proof. intros H. apply Z_of_byte_inj. now apply Z.compare_eq. Qed.

Lemma byte_compare_opp (a b : byte) :
  byte_compare b a = CompOpp (byte_compare a b).
Proof. apply Z.compare_antisym. Qed.

Lemma byte_compare_trans (a b c : byte) :
  byte_compare a b = Lt -> byte_compare b c = Lt -> byte_compare a c = Lt.
Proof.
  unfold byte_compare. rewrite !Z.compare_lt_iff. lia.
Qed.

(** The comparison over the shorter length with the length as tie-break is
    the lexicographic order of the byte strings. *)
Lemma compare_string_lex (s1 s2 : list byte) :
  compare_string s1 s2 = lex byte_compare s1 s2.
Proof.
  unfold compare_string. revert s2.
  induction s1 as [|a s1 IH]; intros [|b s2]; try reflexivity.
  cbn [length Nat.min firstn compare_bytes lex].
  fold (byte_compare a b).
  destruct (byte_compare a b); try reflexivity.
  rewrite <- IH.
  replace (zlen (a :: s1) ?= zlen (b :: s2)) with (zlen s1 ?= zlen s2);
    [reflexivity|].
  unfold zlen. cbn [length]. rewrite !Nat2Z.inj_succ.
  destruct (Z.compare_spec (Z.of_nat (length s1)) (Z.of_nat (length s2)));
    symmetry;
    [apply Z.compare_eq_iff | apply Z.compare_lt_iff | apply Z.compare_gt_iff];
    lia.
Qed.

(** ** The order the comparator induces *)

Lemma compare_values_refl (a : field_value) : compare_values a a = Eq.
Proof.
  destruct a; cbn; [apply Z.compare_refl|].
  apply lex_refl, byte_compare_refl.
Qed.

Lemma compare_values_eq (a b : field_value) :
  compare_values a b = Eq -> a = b.
Proof.
  destruct a, b; cbn; intros H; try discriminate.
  - f_equal. now apply Z.compare_eq.
  - f_equal. eapply lex_eq; eauto using byte_compare_eq.
Qed.

Lemma compare_values_opp (a b : field_value) :
  compare_values b a = CompOpp (compare_values a b).
Proof.
  destruct a, b; cbn; try reflexivity; [apply Z.compare_antisym|].
  apply lex_opp, byte_compare_opp.
Qed.

Lemma compare_values_trans (a b c : field_value) :
  compare_values a b = Lt -> compare_values b c = Lt ->
  compare_values a c = Lt.
Proof.
  destruct a, b, c; cbn; intros H1 H2; try reflexivity; try discriminate.
  - rewrite Z.compare_lt_iff in *. lia.
  - eapply lex_trans; eauto using byte_compare_eq, byte_compare_trans.
Qed.

Lemma skipn_nth_error {A : Type} (l : list A) (i : nat) (x : A) :
  nth_error l i = Some x -> skipn i l = x :: skipn (S i) l.
Proof.
  revert l. induction i as [|i IH]; intros [|y l] H; try discriminate.
  - cbn in H. now injection H as ->.
  - cbn [nth_error] in H. cbn [skipn]. now apply IH.
Qed.

Lemma part_at_nth (def : KeyDef) (i : Z) (part : KeyPart) :
  part_at def i = Ok part -> nth_error (parts def) (Z.to_nat i) = Some part.
Proof.
  unfold part_at. destruct (_ && _); [|discriminate].
  destruct (nth_error (parts def) (Z.to_nat i)); [|discriminate].
  now intros [= ->].
Qed.

Lemma keys_from_step (def : KeyDef) (fs : list field_value) (i : Z) (n : nat)
    (part : KeyPart) :
  0 <= i ->
  part_at def i = Ok part ->
  keys_from def fs i (S n) = select fs part :: keys_from def fs (i + 1) n.
Proof.
  intros Hi Hp. unfold keys_from.
  rewrite (skipn_nth_error _ _ _ (part_at_nth _ _ _ Hp)).
  replace (Z.to_nat (i + 1)) with (S (Z.to_nat i)) by lia.
  reflexivity.
Qed.

Lemma select_nth_error (fs : list field_value) (part : KeyPart)
    (f : field_value) :
  nth_error fs (Z.to_nat (field_no part)) = Some f -> select fs part = f.
Proof.
  intros H. unfold select. now apply nth_error_nth.
Qed.

Lemma compare_fields_uints (k1 k2 : Z) (fs1 fs2 : list field_value)
    (t1 t2 : Tuple) (j1 j2 : Z) (v1 v2 : Z) :
  built k1 fs1 t1 ->
  built k2 fs2 t2 ->
  0 <= j1 -> 0 <= j2 ->
  nth_error fs1 (Z.to_nat j1) = Some (FUint v1) ->
  nth_error fs2 (Z.to_nat j2) = Some (FUint v2) ->
  exists s,
    compare_fields UINT t1 t2 (field_pos k1 fs1 j1) (field_pos k2 fs2 j2)
      = Ok s /\
    step_agrees (v1 ?= v2) s
      (field_pos k1 fs1 (j1 + 1)) (field_pos k2 fs2 (j2 + 1)).
Proof.
  intros Hb1 Hb2 Hj1 Hj2 Hn1 Hn2.
  unfold compare_fields. cbn [field_type_eqb].
  rewrite (mp_decode_uint_at _ _ _ _ _ Hb1 Hj1 Hn1).
  rewrite (mp_decode_uint_at _ _ _ _ _ Hb2 Hj2 Hn2).
  cbn [bind]. unfold step_agrees.
  destruct (Z.compare_spec v1 v2) as [E|E|E].
  - replace (v1 <? v2) with false by lia.
    replace (v1 >? v2) with false by lia.
    eexists. split; reflexivity.
  - replace (v1 <? v2) with true by lia.
    eexists. split; [reflexivity|]. exists (-1). split; [reflexivity|lia].
  - replace (v1 <? v2) with false by lia.
    replace (v1 >? v2) with true by lia.
    eexists. split; [reflexivity|]. exists 1. split; [reflexivity|lia].
Qed.

Section BuiltPairOrder.

Variables (k1 k2 : Z) (fs1 fs2 : list field_value) (t1 t2 : Tuple).
Hypothesis Hb1 : built k1 fs1 t1.
Hypothesis Hb2 : built k2 fs2 t2.

(** Two fields of the type the loop tests are compared by their values. *)
Lemma compare_fields_typed (ty : field_type_t) (j : Z) (f1 f2 : field_value) :
  0 <= j ->
  nth_error fs1 (Z.to_nat j) = Some f1 ->
  nth_error fs2 (Z.to_nat j) = Some f2 ->
  has_type ty f1 ->
  has_type ty f2 ->
  exists s,
    compare_fields ty t1 t2 (field_pos k1 fs1 j) (field_pos k2 fs2 j) = Ok s /\
    step_agrees (compare_values f1 f2) s
      (field_pos k1 fs1 (j + 1)) (field_pos k2 fs2 (j + 1)).
Proof.
  intros Hj Hn1 Hn2 Ht1 Ht2.
  destruct ty, f1 as [v1|s1], f2 as [v2|s2]; cbn in Ht1, Ht2; try contradiction.
  - now apply (compare_fields_uints k1 k2 fs1 fs2).
  - cbn [compare_values]. rewrite <- compare_string_lex.
    now apply (compare_fields_strings k1 k2 fs1 fs2).
Qed.

(** The loops returns the lexicographic order of the selected fields. *)
Lemma compare_parts_lex (def : KeyDef) (ty : field_type_t) (part0 : KeyPart)
    (n : nat) :
  part_at def 0 = Ok part0 ->
  field_type part0 = ty ->
  forall i p1 p2,
  0 <= i ->
  (forall j, i <= j < i + Z.of_nat n ->
     exists part f1 f2,
       part_at def j = Ok part /\
       in_prefix k1 fs1 k2 fs2 part /\
       nth_error fs1 (Z.to_nat (field_no part)) = Some f1 /\
       nth_error fs2 (Z.to_nat (field_no part)) = Some f2 /\
       has_type ty f1 /\ has_type ty f2) ->
  cursors_ready k1 k2 fs1 fs2 def i p1 p2 ->
  exists r,
    compare_parts def t1 t2 n i p1 p2 = Ok r /\
    (r ?= 0) = lex compare_values (keys_from def fs1 i n) (keys_from def fs2 i n).
Proof.
  intros Hp0 Hty.
  induction n as [|n IH]; intros i p1 p2 Hi Hparts Hc.
  - exists 0. split; reflexivity.
  - destruct (Hparts i ltac:(lia))
      as (part & f1 & f2 & Hp & Hin & Hn1 & Hn2 & Ht1 & Ht2).
    cbn [compare_parts]. rewrite Hp. cbn [bind].
    rewrite (position_cursors_at k1 k2 fs1 fs2 t1 t2 Hb1 Hb2
               def i part p1 p2 Hp Hi Hin Hc).
    cbn [bind]. rewrite Hp0. cbn [bind]. rewrite Hty.
    pose proof Hin as (Hf0 & _).
    destruct (compare_fields_typed ty (field_no part) f1 f2 Hf0 Hn1 Hn2 Ht1 Ht2)
      as (s & -> & Hs).
    cbn [bind].
    rewrite !(keys_from_step def _ i n part Hi Hp).
    rewrite (select_nth_error _ _ _ Hn1), (select_nth_error _ _ _ Hn2).
    cbn [lex]. unfold step_agrees in Hs.
    destruct (compare_values f1 f2).
    + subst s. apply IH.
      * lia.
      * intros j Hj. apply Hparts. lia.
      * now apply (cursors_ready_next k1 k2 fs1 fs2 t1 Hb1 def i part).
    + destruct Hs as (r & -> & Hr). exists r. split; [reflexivity|].
      now apply Z.compare_lt_iff.
    + destruct Hs as (r & -> & Hr). exists r. split; [reflexivity|].
      now apply Z.compare_gt_iff.
Qed.

(** On conforming records, [default_tuple_compare] returns, and its result
    is the lexicographic order of the two keys. *)
Lemma default_tuple_compare_lex (def : KeyDef) (ty : field_type_t) :
  0 < part_count def ->
  homogeneous def ty ->
  conforms def k1 fs1 ->
  conforms def k2 fs2 ->
  ordering (default_tuple_compare def t1 t2)
  = Some (lex compare_values (key_of def fs1) (key_of def fs2)).
Proof.
  intros Hn [Hty Hhom] Hc1 Hc2.
  destruct (Hc1 0 ltac:(lia)) as (part0 & f0 & Hp0 & _).
  destruct (compare_parts_lex def ty part0 (Z.to_nat (part_count def)) Hp0
              (Hhom 0 part0 ltac:(lia) Hp0) 0 0 0 ltac:(lia))
    as (r & Hr & Hlex).
  - intros j Hj.
    destruct (Hc1 j ltac:(lia)) as (part & f1 & Hp & Hr1 & Hn1 & Ht1).
    destruct (Hc2 j ltac:(lia)) as (part' & f2 & Hp' & Hr2 & Hn2 & Ht2).
    rewrite Hp in Hp'. injection Hp' as <-.
    rewrite (Hhom j part ltac:(lia) Hp) in Ht1, Ht2.
    exists part, f1, f2. repeat split; auto; try lia.
    + assert (Z.to_nat (field_no part) < length fs1)%nat
        by (apply nth_error_Some; congruence).
      unfold zlen. lia.
    + assert (Z.to_nat (field_no part) < length fs2)%nat
        by (apply nth_error_Some; congruence).
      unfold zlen. lia.
  - intros Hm. discriminate.
  - unfold default_tuple_compare.
    replace (0 <? part_count def) with true by lia. cbn [assert bind].
    rewrite Hr. cbn [ordering]. rewrite Hlex. reflexivity.
Qed.

End BuiltPairOrder.

(** C3 (amended). For a key definition whose parts all declare one type,
    UINT or STRING, and three records [A], [B], [C] built by [reset] and
    in-order appends (the offset slots fitting in the buffer), each holding
    in every field the definition references, inside its indexed prefix, a
    value of the declared type: [default_tuple_compare] returns on every
    pair, and its results are those of one total order, the lexicographic
    order of the keys: the comparison of a record with itself is equal, the
    result for [(B, A)] is the opposite of that for [(A, B)], and the
    results for [(A, B)], [(B, C)] and [(A, C)] are transitive. *)
Theorem comparator_total_order (def : KeyDef) (ty : field_type_t)
    (kA kB kC : Z) (fsA fsB fsC : list field_value) (A B C : Tuple) :
  0 < part_count def ->
  homogeneous def ty ->
  built kA fsA A -> conforms def kA fsA ->
  built kB fsB B -> conforms def kB fsB ->
  built kC fsC C -> conforms def kC fsC ->
  exists ab bc ac,
    ordering (default_tuple_compare def A B) = Some ab /\
    ordering (default_tuple_compare def B C) = Some bc /\
    ordering (default_tuple_compare def A C) = Some ac /\
    ordering (default_tuple_compare def B A) = Some (CompOpp ab) /\
    ordering (default_tuple_compare def A A) = Some Eq /\
    (ab = Lt -> bc <> Gt -> ac = Lt) /\
    (ab <> Gt -> bc = Lt -> ac = Lt) /\
    (ab = Eq -> bc = Eq -> ac = Eq) /\
    ab = lex compare_values (key_of def fsA) (key_of def fsB) /\
    bc = lex compare_values (key_of def fsB) (key_of def fsC) /\
    ac = lex compare_values (key_of def fsA) (key_of def fsC).
Proof.
  intros Hn Hh HA HcA HB HcB HC HcC.
  set (ka := key_of def fsA). set (kb := key_of def fsB).
  set (kc := key_of def fsC).
  exists (lex compare_values ka kb), (lex compare_values kb kc),
         (lex compare_values ka kc).
  rewrite (default_tuple_compare_lex kA kB fsA fsB A B HA HB def ty Hn Hh HcA HcB).
  rewrite (default_tuple_compare_lex kB kC fsB fsC B C HB HC def ty Hn Hh HcB HcC).
  rewrite (default_tuple_compare_lex kA kC fsA fsC A C HA HC def ty Hn Hh HcA HcC).
  rewrite (default_tuple_compare_lex kB kA fsB fsA B A HB HA def ty Hn Hh HcB HcA).
  rewrite (default_tuple_compare_lex kA kA fsA fsA A A HA HA def ty Hn Hh HcA HcA).
  fold ka kb kc.
  assert (Htr : forall x y z,
             lex compare_values x y = Lt -> lex compare_values y z = Lt ->
             lex compare_values x z = Lt).
  { exact (lex_trans field_value compare_values
             compare_values_eq compare_values_trans). }
  assert (Heq : forall x y, lex compare_values x y = Eq -> x = y).
  { exact (lex_eq field_value compare_values compare_values_eq). }
  do 3 (split; [reflexivity|]).
  split; [f_equal;
          exact (lex_opp field_value compare_values compare_values_opp ka kb)|].
  split; [f_equal;
          exact (lex_refl field_value compare_values compare_values_refl ka)|].
  split.
  { intros Hab Hbc. destruct (lex compare_values kb kc) eqn:E.
    - apply Heq in E. now rewrite <- E.
    - eauto.
    - contradiction. }
  split.
  { intros Hab Hbc. destruct (lex compare_values ka kb) eqn:E.
    - apply Heq in E. now rewrite E.
    - eauto.
    - contradiction. }
  split.
  { intros Hab Hbc. apply Heq in Hab. rewrite Hab. exact Hbc. }
  repeat split.
Qed.

Lemma conforms_string_pair (s1 s2 : list byte) :
  conforms string_pair_def 3 [FUint 1; FString s1; FString s2].
Proof.
  intros j Hj. assert (Hc : j = 0 \/ j = 1) by (cbn in Hj; lia).
  destruct Hc as [-> | ->]; do 2 eexists;
    (split; [reflexivity|]); cbn [field_no field_type];
    (split; [lia|]); (split; [reflexivity|]); exact I.
Qed.

Lemma homogeneous_string_pair : homogeneous string_pair_def STRING.
Proof.
  split; [now right|]. intros j part Hj Hp.
  assert (Hc : j = 0 \/ j = 1) by (cbn in Hj; lia).
  destruct Hc as [-> | ->]; vm_compute in Hp; now injection Hp as <-.
Qed.

Lemma comparator_total_order_witness :
  exists ab bc ac,
    ordering (default_tuple_compare string_pair_def tuple_b_ab tuple_b_abc)
      = Some ab /\
    ordering (default_tuple_compare string_pair_def tuple_b_abc tuple_c_ab)
      = Some bc /\
    ordering (default_tuple_compare string_pair_def tuple_b_ab tuple_c_ab)
      = Some ac /\
    ordering (default_tuple_compare string_pair_def tuple_b_abc tuple_b_ab)
      = Some (CompOpp ab) /\
    ordering (default_tuple_compare string_pair_def tuple_b_ab tuple_b_ab)
      = Some Eq /\
    (ab = Lt -> bc <> Gt -> ac = Lt) /\
    (ab <> Gt -> bc = Lt -> ac = Lt) /\
    (ab = Eq -> bc = Eq -> ac = Eq) /\
    ab = lex compare_values
           (key_of string_pair_def
              [FUint 1; FString (bytes_of [98]); FString (bytes_of [97; 98])])
           (key_of string_pair_def
              [FUint 1; FString (bytes_of [98]);
               FString (bytes_of [97; 98; 99])]) /\
    bc = lex compare_values
           (key_of string_pair_def
              [FUint 1; FString (bytes_of [98]);
               FString (bytes_of [97; 98; 99])])
           (key_of string_pair_def
              [FUint 1; FString (bytes_of [99]); FString (bytes_of [97; 98])]) /\
    ac = lex compare_values
           (key_of string_pair_def
              [FUint 1; FString (bytes_of [98]); FString (bytes_of [97; 98])])
           (key_of string_pair_def
              [FUint 1; FString (bytes_of [99]); FString (bytes_of [97; 98])]).
Proof.
  apply (comparator_total_order string_pair_def STRING 3 3 3).
  - reflexivity.
  - exact homogeneous_string_pair.
  - built_from_blank.
  - apply conforms_string_pair.
  - built_from_blank.
  - apply conforms_string_pair.
  - built_from_blank.
  - apply conforms_string_pair.
Defined.

(** C3 as stated fails for a field outside the indexed prefix.  The key is
    [(field 1, UINT)]; the record holds the integers 5, 0, 0, 0, 0 and the
    string "a" behind [reset 1], so field 1 is an integer as declared.
    [get_field 1] reads the integer 5 out of the first four field bytes, and
    the comparison of the record with itself decodes the marker of the
    string at position 5 as an integer: no result. *)
Lemma comparator_not_total_counterexample :
  build blank_tuple 1
    [FUint 5; FUint 0; FUint 0; FUint 0; FUint 0; FString (bytes_of [97])]
    = Ok unindexed_a /\
  has_type UINT (FUint 0) /\
  load (data unindexed_a) 1 1 = Ok (uint_wire 0) /\
  get_field unindexed_a 1 = Ok 5 /\
  load (data unindexed_a) 5 1 = Ok [byte_of_Z 0xa1] /\
  default_tuple_compare second_uint_def unindexed_a unindexed_a
    = Err AssertFailed /\
  ordering (default_tuple_compare second_uint_def unindexed_a unindexed_a)
    = None.
Proof.
  repeat split; vm_compute; reflexivity.
Qed.

(** * Part III. Further properties of the code *)

(** ** ByteSwap.h and the read and write helpers *)

(** X1. [bswap] is an involution on the values of its type, and stays in the
    type; on [uint16_t] it exchanges the two bytes. *)
Theorem bswap_involutive (w : nat) (t : Z) :
  0 <= t < 2 ^ (8 * Z.of_nat w) ->
  bswap w (bswap w t) = t /\
  0 <= bswap w t < 2 ^ (8 * Z.of_nat w) /\
  bswap 2 (t mod 2 ^ 16) = (t mod 256) * 256 + (t / 256) mod 256.
Proof.
  intros Ht.
  assert (Hb : bswap w t = le_decode (rev (le_encode w t))).
  { destruct w as [|[|w]]; try reflexivity.
    cbn [bswap le_encode rev app le_decode].
    rewrite Z_of_byte_of_Z, Z.mod_small; [lia|exact Ht]. }
  split; [|split].
  - rewrite <- (le_decode_encode_small w t Ht) at 2.
    rewrite <- (rev_involutive (le_encode w t)).
    rewrite rev_le_encode, <- le_encode_bswap.
    destruct w as [|[|w]].
    + cbn in *. lia.
    + cbn [bswap le_encode rev app le_decode].
      rewrite Z_of_byte_of_Z. cbn [bswap] in Ht. rewrite Z.mod_small; lia.
    + reflexivity.
  - rewrite Hb.
    pose proof (le_decode_range (rev (le_encode w t))) as Hr.
    unfold zlen in Hr. now rewrite length_rev, le_encode_length in Hr.
  - unfold bswap. cbn [le_encode rev app le_decode].
    rewrite !Z_of_byte_of_Z.
    change (2 ^ 16) with (256 * 256).
    rewrite Z.rem_mul_r by lia.
    rewrite Z.mul_comm, Z.div_add by lia.
    rewrite (Z.div_small (t mod 256)) by (apply Z.mod_pos_bound; lia).
    rewrite Z.add_comm, Z.mod_add by lia.
    rewrite Z.mod_mod by lia. cbn [Z.add].
    rewrite (Z.mod_small ((t / 256) mod 256))
      by (apply Z.mod_pos_bound; lia).
    lia.
Qed.

Lemma bswap_involutive_witness :
  bswap 4 (bswap 4 0x12345678) = 0x12345678 /\
  0 <= bswap 4 0x12345678 < 2 ^ (8 * Z.of_nat 4) /\
  bswap 2 (0x12345678 mod 2 ^ 16)
    = (0x12345678 mod 256) * 256 + (0x12345678 / 256) mod 256.
Proof.
  apply (bswap_involutive 4 0x12345678). vm_compute. split; [discriminate|reflexivity].
Defined.

(** X2. [mp_read<T>] after [mp_write<T>] at the same position: the write
    succeeds when [sizeof(T)] bytes fit, keeps the buffer size, and the
    read returns the written value converted to [T], both cursors advanced
    by [sizeof(T)]. *)
Theorem mp_read_after_write (w : nat) (t : Z) (m : list byte) (p : Z) :
  0 <= p ->
  p + Z.of_nat w <= zlen m ->
  exists m',
    mp_write w t (m, p) = Ok (m', p + Z.of_nat w) /\
    zlen m' = zlen m /\
    mp_read w m' p = Ok (t mod 2 ^ (8 * Z.of_nat w), p + Z.of_nat w).
Proof.
  intros Hp Hb. rewrite mp_write_store.
  destruct (store m p (be_bytes w t)) as [m'|e] eqn:E;
    [|rewrite store_Ok in E by (rewrite ?zlen_be_bytes; lia); discriminate].
  exists m'. cbn [bind]. rewrite zlen_be_bytes.
  split; [reflexivity|]. split; [eapply store_length; eauto|].
  pose proof (load_store_same _ _ _ _ E) as Hl.
  rewrite zlen_be_bytes in Hl.
  rewrite (mp_read_load w _ _ _ Hl), be_value_bytes. reflexivity.
Qed.

Lemma mp_read_after_write_witness :
  exists m',
    mp_write 2 0x1ABCD (zero_data, 7) = Ok (m', 7 + Z.of_nat 2) /\
    zlen m' = zlen zero_data /\
    mp_read 2 m' 7 = Ok (0x1ABCD mod 2 ^ (8 * Z.of_nat 2), 7 + Z.of_nat 2).
Proof.
  apply (mp_read_after_write 2 0x1ABCD zero_data 7); vm_compute; discriminate.
Defined.

(** ** MsgPack.h: what the encoders touch and what the decoders accept *)

Lemma encode_field_store (f : field_value) (m : list byte) (p : Z) :
  encode_field f (m, p) =
  (m' <- store m p (field_wire f);; Ok (m', p + zlen (field_wire f))).
Proof.
  destruct f; cbn [encode_field field_wire];
    [apply mp_encode_uint_store | apply mp_encode_string_store].
Qed.

(** X3. An encoder, [mp_encode_uint] or [mp_encode_string], run at a cursor
    [p >= 0]: when the encoded bytes fit, it returns, keeps the buffer size
    and changes no byte outside the range it advances the cursor over; when
    they do not fit, it runs past the buffer, and it never ends in an
    assertion. *)
Theorem encoder_frame (f : field_value) (m : list byte) (p : Z) :
  0 <= p ->
  (p + zlen (field_wire f) <= zlen m ->
   exists m' p',
     encode_field f (m, p) = Ok (m', p') /\
     p' = p + zlen (field_wire f) /\
     zlen m' = zlen m /\
     load m' p (p' - p) = Ok (field_wire f) /\
     forall q n, q + n <= p \/ p' <= q -> load m' q n = load m q n)
  /\
  (zlen m < p + zlen (field_wire f) ->
   encode_field f (m, p) = Err OutOfBounds)
  /\
  encode_field f (m, p) <> Err AssertFailed.
Proof.
  intros Hp. rewrite encode_field_store.
  destruct (store m p (field_wire f)) as [m'|e] eqn:E; cbn [bind].
  - pose proof (store_inv _ _ _ _ E) as (_ & Hb & _).
    split; [|split; [lia|discriminate]].
    intros _. exists m', (p + zlen (field_wire f)).
    split; [reflexivity|]. split; [reflexivity|].
    split; [eapply store_length; eauto|].
    split.
    + replace (p + zlen (field_wire f) - p) with (zlen (field_wire f)) by lia.
      eapply load_store_same; eauto.
    + intros q n Hd. eapply load_store_other; eauto.
  - pose proof (store_Err _ _ _ _ E) as ->.
    split; [|split; [reflexivity|discriminate]].
    intros Hb. rewrite store_Ok in E by assumption. discriminate.
Qed.

Lemma encoder_frame_witness :
  (8 + zlen (field_wire (FUint 70000)) <= zlen zero_data ->
   exists m' p',
     encode_field (FUint 70000) (zero_data, 8) = Ok (m', p') /\
     p' = 8 + zlen (field_wire (FUint 70000)) /\
     zlen m' = zlen zero_data /\
     load m' 8 (p' - 8) = Ok (field_wire (FUint 70000)) /\
     forall q n, q + n <= 8 \/ p' <= q -> load m' q n = load zero_data q n)
  /\
  (zlen zero_data < 8 + zlen (field_wire (FUint 70000)) ->
   encode_field (FUint 70000) (zero_data, 8) = Err OutOfBounds)
  /\
  encode_field (FUint 70000) (zero_data, 8) <> Err AssertFailed.
Proof.
  apply (encoder_frame (FUint 70000) zero_data 8). lia.
Defined.

(** X4. [mp_decode_uint] accepts an integer in any of the five forms able to
    hold it, not only in the shortest one the encoder picks: on the bytes of
    [v] in form [f] it returns [v] and advances by the size of the form. *)
Theorem decode_uint_any_form (f : uint_form) (v : Z) (m : list byte) (p : Z) :
  0 <= v <= form_max f ->
  load m p (form_size f) = Ok (form_bytes f v) ->
  mp_decode_uint m p = Ok (v, p + form_size f).
Proof.
  intros Hv H. unfold mp_decode_uint.
  destruct f; cbn [form_max form_size form_bytes] in *.
  - rewrite (mp_read_load 1 _ _ _ H). cbn [bind].
    rewrite be_value_1, Z_of_byte_of_Z, Z.mod_small by lia.
    replace (v =? 0xcc) with false by lia.
    replace (v =? 0xcd) with false by lia.
    replace (v =? 0xce) with false by lia.
    replace (v =? 0xcf) with false by lia.
    replace (v <=? 0x7f) with true by lia. reflexivity.
  - apply (load_cons_inv m p _ (be_bytes 1 v)) in H as [H1 H2].
    rewrite (mp_read_load 1 _ _ _ H1). cbn [bind].
    change (Z.of_nat 1) with 1. rewrite zlen_be_bytes in H2.
    rewrite be_value_1, Z_of_byte_of_Z. cbn [Z.modulo Z.eqb]. cbv iota.
    change (0xcc mod 256 =? 0xcc) with true. cbv iota.
    rewrite (mp_read_load 1 _ _ _ H2), be_value_bytes, Z.mod_small by (cbn; lia).
    do 2 f_equal. change (Z.of_nat 1) with 1. lia.
  - apply (load_cons_inv m p _ (be_bytes 2 v)) in H as [H1 H2].
    rewrite (mp_read_load 1 _ _ _ H1). cbn [bind].
    change (Z.of_nat 1) with 1. rewrite zlen_be_bytes in H2.
    rewrite be_value_1, Z_of_byte_of_Z.
    change (0xcd mod 256 =? 0xcc) with false.
    change (0xcd mod 256 =? 0xcd) with true. cbv iota.
    rewrite (mp_read_load 2 _ _ _ H2), be_value_bytes, Z.mod_small by (cbn; lia).
    do 2 f_equal. change (Z.of_nat 2) with 2. lia.
  - apply (load_cons_inv m p _ (be_bytes 4 v)) in H as [H1 H2].
    rewrite (mp_read_load 1 _ _ _ H1). cbn [bind].
    change (Z.of_nat 1) with 1. rewrite zlen_be_bytes in H2.
    rewrite be_value_1, Z_of_byte_of_Z.
    change (0xce mod 256 =? 0xcc) with false.
    change (0xce mod 256 =? 0xcd) with false.
    change (0xce mod 256 =? 0xce) with true. cbv iota.
    rewrite (mp_read_load 4 _ _ _ H2), be_value_bytes, Z.mod_small by (cbn; lia).
    do 2 f_equal. change (Z.of_nat 4) with 4. lia.
  - apply (load_cons_inv m p _ (be_bytes 8 v)) in H as [H1 H2].
    rewrite (mp_read_load 1 _ _ _ H1). cbn [bind].
    change (Z.of_nat 1) with 1. rewrite zlen_be_bytes in H2.
    rewrite be_value_1, Z_of_byte_of_Z.
    change (0xcf mod 256 =? 0xcc) with false.
    change (0xcf mod 256 =? 0xcd) with false.
    change (0xcf mod 256 =? 0xce) with false.
    change (0xcf mod 256 =? 0xcf) with true. cbv iota.
    rewrite (mp_read_load 8 _ _ _ H2), be_value_bytes, Z.mod_small by (cbn; lia).
    do 2 f_equal. change (Z.of_nat 8) with 8. lia.
Qed.

Lemma decode_uint_any_form_witness :
  mp_decode_uint (bytes_of [0xcd; 0; 5; 0]) 0 = Ok (5, 0 + form_size UInt16).
Proof.
  apply (decode_uint_any_form UInt16 5 (bytes_of [0xcd; 0; 5; 0]) 0).
  - vm_compute. split; discriminate.
  - reflexivity.
Defined.

Lemma mp_read_inv (w : nat) (m : list byte) (p v q : Z) :
  mp_read w m p = Ok (v, q) ->
  0 <= p /\ q = p + Z.of_nat w /\ q <= zlen m /\
  0 <= v < 2 ^ (8 * Z.of_nat w).
Proof.
  unfold mp_read. destruct (load m p (Z.of_nat w)) as [bs|e] eqn:E;
    cbn [bind]; [|discriminate].
  intros [= <- <-].
  apply load_inv in E as (Hp & _ & Hb & _ & Hl).
  repeat split; try lia.
  - rewrite bswap_le_decode by (unfold zlen in Hl; lia).
    apply le_decode_range.
  - rewrite bswap_le_decode by (unfold zlen in Hl; lia).
    unfold be_value. pose proof (le_decode_range (rev bs)) as Hr.
    unfold zlen in *. rewrite length_rev in Hr. now rewrite <- Hl.
Qed.

(** X5. Whatever the bytes behind the cursor are, a value [mp_decode_uint]
    returns is a 64-bit unsigned integer, and the cursor it leaves is 1, 2,
    3, 5 or 9 bytes further. *)
Theorem decode_uint_bounded (m : list byte) (p v q : Z) :
  mp_decode_uint m p = Ok (v, q) ->
  0 <= v < 2 ^ 64 /\
  (q = p + 1 \/ q = p + 2 \/ q = p + 3 \/ q = p + 5 \/ q = p + 9).
Proof.
  unfold mp_decode_uint.
  destruct (mp_read 1 m p) as [[c p1]|e] eqn:E1; cbn [bind]; [|discriminate].
  apply mp_read_inv in E1 as (Hp & -> & Hb1 & Hc).
  assert (Hk : forall w, (Z.of_nat w <= 8) ->
            mp_read w m (p + Z.of_nat 1) = Ok (v, q) ->
            0 <= v < 2 ^ 64 /\ q = p + 1 + Z.of_nat w).
  { intros w Hw H. apply mp_read_inv in H as (_ & -> & Hb & Hv).
    repeat split; try lia.
    apply Z.lt_le_trans with (1 := proj2 Hv).
    apply Z.pow_le_mono_r; lia. }
  destruct (c =? 0xcc); [intros H; apply (Hk 1%nat) in H; [|cbn]; lia|].
  destruct (c =? 0xcd); [intros H; apply (Hk 2%nat) in H; [|cbn]; lia|].
  destruct (c =? 0xce); [intros H; apply (Hk 4%nat) in H; [|cbn]; lia|].
  destruct (c =? 0xcf); [intros H; apply (Hk 8%nat) in H; [|cbn]; lia|].
  destruct (c <=? 0x7f) eqn:E; cbn [assert bind]; [|discriminate].
  intros [= <- <-]. change (Z.of_nat 1) with 1 in *. lia.
Qed.

Lemma decode_uint_bounded_witness :
  0 <= 5 < 2 ^ 64 /\
  (3 = 0 + 1 \/ 3 = 0 + 2 \/ 3 = 0 + 3 \/ 3 = 0 + 5 \/ 3 = 0 + 9).
Proof.
  apply (decode_uint_bounded (bytes_of [0xcd; 0; 5; 0]) 0 5 3). reflexivity.
Defined.

(** X6. [mp_decode_string] reads the header only.  A length it returns is a
    32-bit unsigned integer, the view begins 1, 2, 3 or 5 bytes behind the
    cursor, and the cursor is left at view + length, whether or not that
    many bytes follow in the buffer: on a buffer that holds nothing but the
    header of a non-empty string the decoder returns, the cursor lies past
    the end, and reading the view runs past the buffer. *)
Theorem decode_string_reads_header_only (m : list byte) (p view len q : Z) :
  mp_decode_string m p = Ok (view, len, q) ->
  (0 <= len < 2 ^ 32 /\
   q = view + len /\
   (view = p + 1 \/ view = p + 2 \/ view = p + 3 \/ view = p + 5))
  /\
  (forall n, 0 < n < 2 ^ 32 ->
     let h := string_header n in
     mp_decode_string h 0 = Ok (zlen h, n, zlen h + n) /\
     zlen h < zlen h + n /\
     load h (zlen h) n = Err OutOfBounds).
Proof.
  intros H. split.
  - unfold mp_decode_string in H.
    destruct (mp_read 1 m p) as [[c p1]|e] eqn:E1; cbn [bind] in H;
      [|discriminate].
    apply mp_read_inv in E1 as (Hp & -> & Hb1 & Hc).
    assert (Hk : forall w, (Z.of_nat w <= 4) ->
              (' (len0, p0) <- mp_read w m (p + Z.of_nat 1);;
               Ok (p0, len0, p0 + len0)) = Ok (view, len, q) ->
              0 <= len < 2 ^ 32 /\
              q = view + len /\ view = p + 1 + Z.of_nat w).
    { intros w Hw H'.
      destruct (mp_read w m (p + Z.of_nat 1)) as [[l p0]|e] eqn:E;
        cbn [bind] in H'; [|discriminate].
      injection H' as <- <- <-.
      apply mp_read_inv in E as (_ & -> & Hb & Hv).
      repeat split; try lia.
      apply Z.lt_le_trans with (1 := proj2 Hv).
      apply Z.pow_le_mono_r; lia. }
    destruct (c =? 0xd9); [apply (Hk 1%nat) in H; [|cbn]; lia|].
    destruct (c =? 0xda); [apply (Hk 2%nat) in H; [|cbn]; lia|].
    destruct (c =? 0xdb); [apply (Hk 4%nat) in H; [|cbn]; lia|].
    destruct ((0xa0 <=? c) && (c <=? 0xbf)) eqn:E; cbn [assert bind] in H;
      [|discriminate].
    injection H as <- <- <-. change (Z.of_nat 1) with 1 in *.
    assert (Hl : 0 <= Z.land c 0x1f < 32).
    { pose proof (forall_range
        (fun c => (0 <=? Z.land c 0x1f) && (Z.land c 0x1f <? 32))
        256 eq_refl c ltac:(change (8 * Z.of_nat 1) with 8 in Hc;
                            change (2 ^ 8) with 256 in Hc; lia)) as Hr.
      cbv beta in Hr. apply andb_prop in Hr. lia. }
    lia.
  - intros n Hn h. subst h.
    pose proof (zlen_string_header_bound n) as Hh.
    rewrite (mp_decode_string_header n) by (auto using load_full; lia).
    split; [f_equal|]. split; [lia|].
    unfold load.
    replace (zlen (string_header n) + n <=? zlen (string_header n))
      with false by lia.
    now rewrite andb_false_r.
Qed.

Lemma decode_string_reads_header_only_witness :
  (0 <= 2 < 2 ^ 32 /\
   3 = 1 + 2 /\
   (1 = 0 + 1 \/ 1 = 0 + 2 \/ 1 = 0 + 3 \/ 1 = 0 + 5))
  /\
  (forall n, 0 < n < 2 ^ 32 ->
     let h := string_header n in
     mp_decode_string h 0 = Ok (zlen h, n, zlen h + n) /\
     zlen h < zlen h + n /\
     load h (zlen h) n = Err OutOfBounds).
Proof.
  apply (decode_string_reads_header_only (bytes_of [0xa2; 104; 105]) 0 1 2 3).
  reflexivity.
Defined.

Lemma zlen_firstn (s : list byte) (len : Z) :
  0 <= len <= zlen s -> zlen (firstn (Z.to_nat len) s) = len.
Proof.
  intros H. unfold zlen in *. rewrite length_firstn. lia.
Qed.

Lemma mp_encode_string_firstn (string : list byte) (len : Z) (c : wcursor) :
  0 <= len <= zlen string ->
  mp_encode_string string len c
  = mp_encode_string (firstn (Z.to_nat len) string) len c.
Proof.
  intros H. unfold mp_encode_string.
  destruct (if len <=? 31 then _ else _) as [[m p]|e]; cbn [bind];
    [|reflexivity].
  rewrite (load_prefix string 0 string len (load_full string) H).
  assert (Hf : load (firstn (Z.to_nat len) string) 0 len
               = Ok (firstn (Z.to_nat len) string)).
  { pose proof (load_full (firstn (Z.to_nat len) string)) as Hf.
    now rewrite (zlen_firstn string len H) in Hf. }
  now rewrite Hf.
Qed.

(** X7. [mp_encode_string(data, string, len)] with [len] at most the number
    of bytes behind [string] writes the header for [len] and the first
    [len] bytes only; decoding there returns a view of length [len] that
    holds these bytes.  With [len] beyond the bytes behind [string] the copy
    reads past its source. *)
Theorem encode_string_takes_len_bytes (string : list byte) (len : Z)
    (m : list byte) (p : Z) :
  0 <= len < 2 ^ 32 ->
  0 <= p ->
  (len <= zlen string ->
   p + zlen (string_header len) + len <= zlen m ->
   exists m',
     mp_encode_string string len (m, p)
       = Ok (m', p + zlen (string_header len) + len) /\
     mp_decode_string m' p
       = Ok (p + zlen (string_header len), len,
             p + zlen (string_header len) + len) /\
     load m' (p + zlen (string_header len)) len
       = Ok (firstn (Z.to_nat len) string))
  /\
  (zlen string < len ->
   p + 5 <= zlen m ->
   mp_encode_string string len (m, p) = Err OutOfBounds).
Proof.
  intros Hlen Hp. split.
  - intros Hs Hroom.
    rewrite mp_encode_string_firstn by lia.
    set (s := firstn (Z.to_nat len) string).
    assert (Hz : zlen s = len) by (apply zlen_firstn; lia).
    replace (mp_encode_string s len (m, p))
      with (mp_encode_string s (zlen s) (m, p)) by (now rewrite Hz).
    rewrite mp_encode_string_store.
    assert (Hw : zlen (string_wire s) = zlen (string_header len) + len).
    { unfold string_wire. now rewrite zlen_app, Hz. }
    destruct (store m p (string_wire s)) as [m'|e] eqn:E;
      [|rewrite store_Ok in E by lia; discriminate].
    cbn [bind]. exists m'.
    apply load_store_same in E.
    destruct (mp_decode_string_wire s m' p ltac:(lia) E) as [Hd Hl].
    rewrite Hz in Hd, Hl. rewrite Hw in Hd. rewrite Hw.
    rewrite !Z.add_assoc in *. repeat split; assumption.
  - intros Hs Hroom. unfold mp_encode_string.
    assert (Hh : exists c,
      (if len <=? 31 then mp_write 1 (Z.lor 0xa0 len) (m, p)
       else if len <=? UINT8_MAX then
         c <- mp_write 1 0xd9 (m, p);; mp_write 1 len c
       else if len <=? UINT16_MAX then
         c <- mp_write 1 0xda (m, p);; mp_write 2 len c
       else c <- mp_write 1 0xdb (m, p);; mp_write 4 len c) = Ok c).
    { destruct (len <=? 31).
      { rewrite mp_write_store, store_Ok
          by (rewrite ?zlen_be_bytes; cbn; lia). cbn [bind]. eauto. }
      repeat match goal with
             | |- context [if ?b then _ else _] => destruct b
             end;
        rewrite mp_write_two, store_Ok
          by (rewrite ?zlen_app, ?zlen_be_bytes; cbn; lia);
        cbn [bind]; eauto. }
    destruct Hh as [[m1 p1] ->]. cbn [bind].
    unfold load at 1. replace (0 + len <=? zlen string) with false by lia.
    now rewrite andb_false_r.
Qed.

Lemma encode_string_takes_len_bytes_witness :
  (3 <= zlen (bytes_of [104; 105; 106; 107; 108]) ->
   4 + zlen (string_header 3) + 3 <= zlen zero_data ->
   exists m',
     mp_encode_string (bytes_of [104; 105; 106; 107; 108]) 3 (zero_data, 4)
       = Ok (m', 4 + zlen (string_header 3) + 3) /\
     mp_decode_string m' 4
       = Ok (4 + zlen (string_header 3), 3, 4 + zlen (string_header 3) + 3) /\
     load m' (4 + zlen (string_header 3)) 3
       = Ok (firstn (Z.to_nat 3) (bytes_of [104; 105; 106; 107; 108])))
  /\
  (zlen (bytes_of [104; 105; 106; 107; 108]) < 3 ->
   4 + 5 <= zlen zero_data ->
   mp_encode_string (bytes_of [104; 105; 106; 107; 108]) 3 (zero_data, 4)
     = Err OutOfBounds).
Proof.
  apply (encode_string_takes_len_bytes
           (bytes_of [104; 105; 106; 107; 108]) 3 zero_data 4).
  - vm_compute. split; [discriminate|reflexivity].
  - lia.
Defined.

(** X8. The two encodings cannot be taken for one another: where the
    buffer holds an encoded integer [mp_decode_string] ends in its
    assertion, and where it holds an encoded string [mp_decode_uint] ends
    in its assertion. *)
Theorem encodings_not_confused (f : field_value) (m : list byte) (p : Z) :
  valid_field f ->
  load m p (zlen (field_wire f)) = Ok (field_wire f) ->
  match f with
  | FUint v =>
      mp_decode_uint m p = Ok (v, p + zlen (field_wire f)) /\
      mp_decode_string m p = Err AssertFailed
  | FString s =>
      mp_decode_string m p
        = Ok (p + zlen (string_header (zlen s)), zlen s,
              p + zlen (field_wire f)) /\
      mp_decode_uint m p = Err AssertFailed
  end.
Proof.
  intros Hv Hl. destruct f as [v|s]; cbn [field_wire valid_field] in *.
  - split; [now apply mp_decode_uint_wire|].
    destruct (uint_wire_head v Hv) as (b & rest & E & Hm).
    rewrite E in Hl. apply load_cons_inv in Hl as [Hl _].
    eapply mp_decode_string_bad_marker; eauto.
  - split; [now apply mp_decode_string_wire|].
    destruct (string_wire_head s) as (b & rest & E & Hm).
    rewrite E in Hl. apply load_cons_inv in Hl as [Hl _].
    eapply mp_decode_uint_bad_marker; eauto.
Qed.

Lemma encodings_not_confused_witness :
  mp_decode_uint (bytes_of [0xcc; 200; 0]) 0
    = Ok (200, 0 + zlen (field_wire (FUint 200))) /\
  mp_decode_string (bytes_of [0xcc; 200; 0]) 0 = Err AssertFailed.
Proof.
  apply (encodings_not_confused (FUint 200) (bytes_of [0xcc; 200; 0]) 0).
  - vm_compute. split; [discriminate|reflexivity].
  - reflexivity.
Defined.

(** ** The record: reading back what was appended, capacity *)

Lemma decode_field_at (k : Z) (fs : list field_value) (t : Tuple)
    (i : Z) (f : field_value) :
  built k fs t ->
  0 <= i ->
  nth_error fs (Z.to_nat i) = Some f ->
  decode_field (type_of f) (data t) (field_pos k fs i)
  = Ok (f, field_pos k fs (i + 1)).
Proof.
  intros Hb Hi Hn. unfold decode_field.
  destruct f as [v|s]; cbn [type_of field_type_eqb].
  - now rewrite (mp_decode_uint_at _ _ _ _ _ Hb Hi Hn).
  - rewrite (mp_decode_string_at _ _ _ _ _ Hb Hi Hn). cbn [bind].
    now rewrite (string_bytes_at _ _ _ _ _ Hb Hi Hn).
Qed.

Lemma decode_fields_from (k : Z) (fs : list field_value) (t : Tuple)
    (n : nat) :
  built k fs t ->
  forall i, 0 <= i -> (Z.to_nat i + n = length fs)%nat ->
  decode_fields (map type_of (skipn (Z.to_nat i) fs)) (data t)
    (field_pos k fs i)
  = Ok (skipn (Z.to_nat i) fs, field_pos k fs (zlen fs)).
Proof.
  intros Hb. induction n as [|n IH]; intros i Hi Hlen.
  - rewrite skipn_all2 by lia. cbn [map decode_fields].
    do 3 f_equal. unfold zlen. lia.
  - destruct (nth_error fs (Z.to_nat i)) as [f|] eqn:Hn;
      [|apply nth_error_None in Hn; lia].
    rewrite (skipn_nth_error _ _ _ Hn). cbn [map decode_fields].
    rewrite (decode_field_at _ _ _ _ _ Hb Hi Hn). cbn [bind].
    replace (S (Z.to_nat i)) with (Z.to_nat (i + 1)) by lia.
    rewrite IH by lia. reflexivity.
Qed.

(** X9. Reading back a record: on a tuple built by [reset k] and appends
    (the offset slots fitting in the buffer), starting at [get_field 0] and
    decoding one field after the other with the decoder of each field's
    type returns the appended values in order, also those past the indexed
    prefix, and leaves the cursor at [data_used]. *)
Theorem sequential_decode_returns_fields (k : Z) (fs : list field_value)
    (t : Tuple) :
  built k fs t ->
  fs <> [] ->
  exists start,
    get_field t 0 = Ok start /\
    decode_fields (map type_of fs) (data t) start = Ok (fs, data_used t).
Proof.
  intros Hb Hne. pose proof (built_inv _ _ _ Hb) as Hinv.
  exists (field_pos k fs 0). split.
  - apply (get_field_inv k fs); auto.
    + pose proof (inv_k _ _ _ Hinv). lia.
    + destruct fs; [contradiction|]. unfold zlen. cbn [length]. lia.
  - pose proof (decode_fields_from k fs t (length fs) Hb 0 ltac:(lia)
                  ltac:(reflexivity)) as H.
    cbn [Z.to_nat skipn] in H. rewrite H.
    now rewrite field_pos_all, <- (inv_used _ _ _ Hinv).
Qed.

Lemma sequential_decode_returns_fields_witness :
  exists start,
    get_field unindexed_a 0 = Ok start /\
    decode_fields
      (map type_of
         [FUint 5; FUint 0; FUint 0; FUint 0; FUint 0; FString (bytes_of [97])])
      (data unindexed_a) start
    = Ok ([FUint 5; FUint 0; FUint 0; FUint 0; FUint 0;
           FString (bytes_of [97])], data_used unindexed_a).
Proof.
  apply (sequential_decode_returns_fields 1).
  - built_from_blank.
  - discriminate.
Defined.

Lemma save_offset_Err (k : Z) (fs : list field_value) (t : Tuple)
    (m : list byte) (p : Z) (e : error) :
  tuple_inv k fs t -> save_offset t m p = Err e -> e = OutOfBounds.
Proof.
  intros Hinv. unfold save_offset.
  destruct (field_count t =? 0) eqn:E0; cbn [bind]; [discriminate|].
  destruct (field_count t <? num_offsets t); cbn [bind]; [|discriminate].
  unfold set_offset.
  pose proof (inv_count _ _ _ Hinv). pose proof (zlen_nonneg fs).
  replace (0 <? field_count t) with true by lia. cbn [assert bind].
  destruct (store m _ _) eqn:Es; cbn [bind]; [discriminate|].
  intros [= <-]. now apply store_Err in Es.
Qed.

Lemma add_all_Err (k : Z) (fs pre : list field_value) (t : Tuple) (e : error) :
  tuple_inv k pre t -> add_all t fs = Err e -> e = OutOfBounds.
Proof.
  revert pre t. induction fs as [|f fs IH]; intros pre t Hinv H;
    [discriminate|].
  cbn [add_all] in H.
  destruct (add t f) as [t1|e1] eqn:Ea; cbn [bind] in H.
  - eapply (IH (pre ++ [f]) t1); eauto using add_inv_Ok.
  - injection H as <-. rewrite add_store in Ea.
    destruct (store (data t) (data_used t) (field_wire f)) eqn:Es;
      cbn [bind] in Ea.
    + eapply save_offset_Err; eauto.
    + injection Ea as <-. now apply store_Err in Es.
Qed.

(** X10. Capacity: with the offset slots of [reset k] fitting in the
    256-byte buffer, the appends [fs] all return exactly when slots and
    encoded fields together take at most 256 bytes; otherwise an append
    writes past the buffer, and none ends in an assertion. *)
Theorem build_returns_iff_fits (t0 : Tuple) (k : Z) (fs : list field_value) :
  zlen (data t0) = MAX_TEST_TUPLE_DATA_SIZE ->
  1 <= k ->
  slots_size k <= MAX_TEST_TUPLE_DATA_SIZE ->
  ((exists t, build t0 k fs = Ok t) <->
   slots_size k + zlen (payload fs) <= MAX_TEST_TUPLE_DATA_SIZE)
  /\
  (MAX_TEST_TUPLE_DATA_SIZE < slots_size k + zlen (payload fs) ->
   build t0 k fs = Err OutOfBounds).
Proof.
  intros Hl Hk Hs.
  assert (Hiff : (exists t, build t0 k fs = Ok t) <->
                 slots_size k + zlen (payload fs) <= MAX_TEST_TUPLE_DATA_SIZE).
  { split.
    - intros [t Hb]. apply (inv_fit k fs t). eapply build_inv_Ok; eauto.
    - intros Hfit. destruct (build_inv t0 k fs Hl Hk Hfit) as (t & Hb & _).
      eauto. }
  split; [exact Hiff|].
  intros Hbig. destruct (build t0 k fs) as [t|e] eqn:Eb.
  - assert (slots_size k + zlen (payload fs) <= MAX_TEST_TUPLE_DATA_SIZE)
      by (apply Hiff; eauto).
    lia.
  - f_equal. unfold build in Eb.
    destruct (reset_inv t0 k Hl Hk Hs) as (t1 & Er & Hinv).
    rewrite Er in Eb. cbn [bind] in Eb.
    eapply (add_all_Err k fs []); eauto.
Qed.

Lemma build_returns_iff_fits_witness :
  ((exists t, build blank_tuple 65 [FUint 1] = Ok t) <->
   slots_size 65 + zlen (payload [FUint 1]) <= MAX_TEST_TUPLE_DATA_SIZE)
  /\
  (MAX_TEST_TUPLE_DATA_SIZE < slots_size 65 + zlen (payload [FUint 1]) ->
   build blank_tuple 65 [FUint 1] = Err OutOfBounds).
Proof.
  apply (build_returns_iff_fits blank_tuple 65 [FUint 1]).
  - reflexivity.
  - lia.
  - vm_compute. discriminate.
Defined.

(** ** The comparators: short circuit, symmetry, result values *)

Lemma part_at_first (def : KeyDef) (i : Z) (part : KeyPart) :
  part_at def i = Ok part -> exists part0, part_at def 0 = Ok part0.
Proof.
  intros H. apply part_at_nth in H.
  unfold part_at. cbn [Z.leb Z.ltb andb Z.compare MAX_NUM_FIELDS_IN_KEY].
  change (Z.to_nat 0) with 0%nat.
  destruct (parts def) as [|p0 ps]; [destruct (Z.to_nat i); discriminate|].
  cbn. eauto.
Qed.

(** X11. Short circuit: when the fields the first key part names differ,
    the comparator returns their order at once; no later key part is looked
    at, whatever it names. *)
Theorem first_difference_decides (def : KeyDef) (part0 : KeyPart)
    (k1 k2 : Z) (fs1 fs2 : list field_value) (t1 t2 : Tuple)
    (f1 f2 : field_value) :
  built k1 fs1 t1 ->
  built k2 fs2 t2 ->
  0 < part_count def ->
  part_at def 0 = Ok part0 ->
  in_prefix k1 fs1 k2 fs2 part0 ->
  nth_error fs1 (Z.to_nat (field_no part0)) = Some f1 ->
  nth_error fs2 (Z.to_nat (field_no part0)) = Some f2 ->
  has_type (field_type part0) f1 ->
  has_type (field_type part0) f2 ->
  compare_values f1 f2 <> Eq ->
  ordering (default_tuple_compare def t1 t2) = Some (compare_values f1 f2).
Proof.
  intros Hb1 Hb2 Hn Hp0 Hin Hn1 Hn2 Ht1 Ht2 Hne.
  unfold default_tuple_compare.
  replace (0 <? part_count def) with true by lia. cbn [assert bind].
  destruct (Z.to_nat (part_count def)) as [|n] eqn:En; [lia|].
  cbn [compare_parts]. rewrite Hp0. cbn [bind].
  rewrite (position_cursors_at k1 k2 fs1 fs2 t1 t2 Hb1 Hb2
             def 0 part0 0 0 Hp0 ltac:(lia) Hin)
    by (intros Hm; discriminate).
  cbn [bind]. pose proof Hin as (Hf0 & _).
  destruct (compare_fields_typed k1 k2 fs1 fs2 t1 t2 Hb1 Hb2
              (field_type part0) (field_no part0) f1 f2 Hf0 Hn1 Hn2 Ht1 Ht2)
    as (s & -> & Hs).
  cbn [bind]. unfold step_agrees in Hs.
  destruct (compare_values f1 f2); [contradiction| |];
    destruct Hs as (r & -> & Hr); cbn [ordering]; f_equal.
  - now apply Z.compare_lt_iff.
  - now apply Z.compare_gt_iff.
Qed.

Lemma first_difference_decides_witness :
  ordering (default_tuple_compare
              (mkKeyDef 2 [mkKeyPart UINT 0; mkKeyPart STRING 200]
                 DefaultTupleCompare) tuple_5 tuple_300)
  = Some (compare_values (FUint 5) (FUint 300)).
Proof.
  apply (first_difference_decides
           (mkKeyDef 2 [mkKeyPart UINT 0; mkKeyPart STRING 200]
              DefaultTupleCompare)
           (mkKeyPart UINT 0) 1 1 [FUint 5] [FUint 300]).
  - built_from_blank.
  - built_from_blank.
  - reflexivity.
  - reflexivity.
  - unfold in_prefix, zlen. cbn [field_no length]. lia.
  - reflexivity.
  - reflexivity.
  - exact I.
  - exact I.
  - discriminate.
Defined.

Lemma compare_parts_per_part (def : KeyDef) (t1 t2 : Tuple) (n : nat) :
  (forall j part part0, 0 <= j < part_count def ->
     part_at def j = Ok part -> part_at def 0 = Ok part0 ->
     field_type part = field_type part0) ->
  forall i p1 p2,
  0 <= i -> i + Z.of_nat n <= part_count def ->
  compare_parts def t1 t2 n i p1 p2
  = per_part_compare_parts def t1 t2 n i p1 p2.
Proof.
  intros Hty. induction n as [|n IH]; intros i p1 p2 Hi Hn; [reflexivity|].
  cbn [compare_parts per_part_compare_parts].
  destruct (part_at def i) as [part|e] eqn:Hp; cbn [bind]; [|reflexivity].
  destruct (position_cursors def t1 t2 i part p1 p2) as [[q1 q2]|e];
    cbn [bind]; [|reflexivity].
  destruct (part_at_first def i part Hp) as [part0 Hp0].
  rewrite Hp0. cbn [bind].
  rewrite <- (Hty i part part0 ltac:(lia) Hp Hp0).
  destruct (compare_fields _ _ _ _ _) as [[r|a b]|e]; cbn [bind];
    try reflexivity.
  apply IH; lia.
Qed.

(** X12. On a key definition whose parts all declare the type of part 0,
    [default_tuple_compare] returns, for any two tuples, what the
    comparator that tests each part's own type returns. *)
Theorem default_is_per_part_on_one_type (def : KeyDef) (t1 t2 : Tuple) :
  (forall j part part0, 0 <= j < part_count def ->
     part_at def j = Ok part -> part_at def 0 = Ok part0 ->
     field_type part = field_type part0) ->
  default_tuple_compare def t1 t2 = per_part_tuple_compare def t1 t2.
Proof.
  intros Hty. unfold default_tuple_compare, per_part_tuple_compare.
  destruct (0 <? part_count def) eqn:E; cbn [assert bind]; [|reflexivity].
  apply compare_parts_per_part; [exact Hty|lia|lia].
Qed.

Lemma default_is_per_part_on_one_type_witness :
  default_tuple_compare string_pair_def tuple_b_ab tuple_c_ab
  = per_part_tuple_compare string_pair_def tuple_b_ab tuple_c_ab.
Proof.
  apply (default_is_per_part_on_one_type string_pair_def).
  intros j part part0 Hj Hp Hp0.
  assert (Hc : j = 0 \/ j = 1) by (cbn in Hj; lia).
  vm_compute in Hp0. injection Hp0 as <-.
  destruct Hc as [-> | ->]; vm_compute in Hp; now injection Hp as <-.
Defined.

Lemma compare_parts_uint_range (def : KeyDef) (part0 : KeyPart)
    (t1 t2 : Tuple) (n : nat) :
  part_at def 0 = Ok part0 ->
  field_type part0 = UINT ->
  forall i p1 p2 r,
  compare_parts def t1 t2 n i p1 p2 = Ok r -> r = -1 \/ r = 0 \/ r = 1.
Proof.
  intros Hp0 Hty. induction n as [|n IH]; intros i p1 p2 r H.
  - cbn in H. injection H as <-. auto.
  - cbn [compare_parts] in H.
    destruct (part_at def i) as [part|e]; cbn [bind] in H; [|discriminate].
    destruct (position_cursors def t1 t2 i part p1 p2) as [[q1 q2]|e];
      cbn [bind] in H; [|discriminate].
    rewrite Hp0 in H. cbn [bind] in H. rewrite Hty in H.
    unfold compare_fields in H. cbn [field_type_eqb] in H.
    destruct (mp_decode_uint (data t1) q1) as [[v1 a]|e]; cbn [bind] in H;
      [|discriminate].
    destruct (mp_decode_uint (data t2) q2) as [[v2 b]|e]; cbn [bind] in H;
      [|discriminate].
    destruct (v1 <? v2); cbn [bind] in H; [injection H as <-; auto|].
    destruct (v1 >? v2); cbn [bind] in H; [injection H as <-; auto|].
    eapply IH; eauto.
Qed.

(** X13. Under a key definition whose part 0 declares UINT, every result
    [default_tuple_compare] returns is -1, 0 or 1, for any two tuples. *)
Theorem uint_key_result_range (def : KeyDef) (part0 : KeyPart)
    (t1 t2 : Tuple) (r : Z) :
  part_at def 0 = Ok part0 ->
  field_type part0 = UINT ->
  default_tuple_compare def t1 t2 = Ok r ->
  r = -1 \/ r = 0 \/ r = 1.
Proof.
  intros Hp0 Hty H. unfold default_tuple_compare in H.
  destruct (assert (0 <? part_count def)); cbn [bind] in H; [|discriminate].
  eapply compare_parts_uint_range; eauto.
Qed.

Lemma uint_key_result_range_witness : 1 = -1 \/ 1 = 0 \/ 1 = 1.
Proof.
  apply (uint_key_result_range sequential_uint_def (mkKeyPart UINT 1)
           tuple_124 tuple_123 1); reflexivity.
Defined.

(** X14. For the key definition [(field 0, UINT)] the call through
    [tuple_compare_f] returns the same result whichever of the two
    comparators the pointer is set to, for any two tuples. *)
Theorem first_uint_pointer_irrelevant (rest : list KeyPart) (t1 t2 : Tuple) :
  call_tuple_compare
    (mkKeyDef 1 (mkKeyPart UINT 0 :: rest) DefaultTupleCompare) t1 t2
  = call_tuple_compare
      (mkKeyDef 1 (mkKeyPart UINT 0 :: rest) TupleCompareByFirstUint) t1 t2.
Proof.
  unfold call_tuple_compare. cbn [tuple_compare_f].
  rewrite <- first_uint_same. reflexivity.
Qed.

(** X15. On records that conform to a key definition of one type, the
    comparator returns 0 exactly when the two keys, the sequences of
    selected field values, are equal. *)
Theorem zero_iff_equal_keys (def : KeyDef) (ty : field_type_t)
    (k1 k2 : Z) (fs1 fs2 : list field_value) (t1 t2 : Tuple) :
  0 < part_count def ->
  homogeneous def ty ->
  built k1 fs1 t1 -> conforms def k1 fs1 ->
  built k2 fs2 t2 -> conforms def k2 fs2 ->
  (default_tuple_compare def t1 t2 = Ok 0 <-> key_of def fs1 = key_of def fs2).
Proof.
  intros Hn Hh Hb1 Hc1 Hb2 Hc2.
  pose proof (default_tuple_compare_lex k1 k2 fs1 fs2 t1 t2 Hb1 Hb2
                def ty Hn Hh Hc1 Hc2) as Hlex.
  destruct (default_tuple_compare def t1 t2) as [r|e]; cbn [ordering] in Hlex;
    [|discriminate].
  injection Hlex as Hlex. split.
  - intros [= ->]. cbn in Hlex.
    apply (lex_eq field_value compare_values compare_values_eq).
    now symmetry.
  - intros Hk. rewrite Hk in Hlex.
    rewrite (lex_refl field_value compare_values compare_values_refl) in Hlex.
    apply Z.compare_eq in Hlex. now subst r.
Qed.

Lemma zero_iff_equal_keys_witness :
  default_tuple_compare string_pair_def tuple_b_ab tuple_c_ab = Ok 0 <->
  key_of string_pair_def
    [FUint 1; FString (bytes_of [98]); FString (bytes_of [97; 98])]
  = key_of string_pair_def
      [FUint 1; FString (bytes_of [99]); FString (bytes_of [97; 98])].
Proof.
  apply (zero_iff_equal_keys string_pair_def STRING 3 3).
  - reflexivity.
  - exact homogeneous_string_pair.
  - built_from_blank.
  - apply conforms_string_pair.
  - built_from_blank.
  - apply conforms_string_pair.
Defined.

Lemma memcmp_bytes_self (s : list byte) : memcmp_bytes s s = 0.
Proof.
  induction s as [|a s IH]; [reflexivity|].
  cbn [memcmp_bytes]. now rewrite Z.eqb_refl.
Qed.

Lemma compare_parts_self (def : KeyDef) (t : Tuple) (n : nat) :
  forall i p r, compare_parts def t t n i p p = Ok r -> r = 0.
Proof.
  induction n as [|n IH]; intros i p r H.
  - cbn in H. now injection H as <-.
  - cbn [compare_parts] in H.
    destruct (part_at def i) as [part|e]; cbn [bind] in H; [|discriminate].
    assert (Hpos : forall a b, position_cursors def t t i part p p = Ok (a, b)
                               -> a = b).
    { intros a b. unfold position_cursors.
      destruct (must_reposition def i) as [[|]|e]; cbn [bind];
        [|congruence|discriminate].
      destruct (get_field t (field_no part)); cbn [bind]; congruence. }
    destruct (position_cursors def t t i part p p) as [[q1 q2]|e] eqn:Ep;
      cbn [bind] in H; [|discriminate].
    rewrite <- (Hpos q1 q2 eq_refl) in H.
    destruct (part_at def 0) as [part0|e]; cbn [bind] in H; [|discriminate].
    unfold compare_fields in H.
    destruct (field_type_eqb (field_type part0) UINT).
    + destruct (mp_decode_uint (data t) q1) as [[v a]|e]; cbn [bind] in H;
        [|discriminate].
      replace (v <? v) with false in H by lia.
      replace (v >? v) with false in H by lia.
      cbn [bind] in H. eapply IH; eauto.
    + destruct (mp_decode_string (data t) q1) as [[[s len] a]|e];
        cbn [bind] in H; [|discriminate].
      cbv zeta in H. unfold memcmp in H.
      destruct (load (data t) s (if len <? len then len else len))
        as [bs|e]; cbn [bind] in H; [|discriminate].
      rewrite memcmp_bytes_self in H. cbn [Z.eqb negb] in H.
      replace (len <? len) with false in H by lia.
      replace (len >? len) with false in H by lia.
      cbn [bind] in H. eapply IH; eauto.
Qed.

(** X16. A tuple compared with itself is never ordered before or after
    itself: under any key definition, whatever the tuple holds, a result
    [default_tuple_compare] returns for [(t, t)] is 0. *)
Theorem self_compare_is_zero (def : KeyDef) (t : Tuple) (r : Z) :
  default_tuple_compare def t t = Ok r -> r = 0.
Proof.
  unfold default_tuple_compare.
  destruct (assert (0 <? part_count def)); cbn [bind]; [|discriminate].
  apply compare_parts_self.
Qed.

Lemma self_compare_is_zero_witness : 0 = 0.
Proof.
  apply (self_compare_is_zero string_pair_def tuple_b_abc 0). reflexivity.
Defined.

Lemma memcmp_bytes_swap (a b : list byte) :
  memcmp_bytes b a = - memcmp_bytes a b.
Proof.
  revert b. induction a as [|x a IH]; intros [|y b]; try reflexivity.
  cbn [memcmp_bytes]. rewrite (Z.eqb_sym (Z_of_byte y)).
  destruct (Z_of_byte x =? Z_of_byte y); [apply IH|lia].
Qed.

Lemma compare_fields_swap (ty : field_type_t) (t1 t2 : Tuple) (p1 p2 : Z)
    (s : step_result) :
  compare_fields ty t1 t2 p1 p2 = Ok s ->
  compare_fields ty t2 t1 p2 p1 = Ok (swap_step s).
Proof.
  unfold compare_fields. destruct (field_type_eqb ty UINT).
  - destruct (mp_decode_uint (data t1) p1) as [[v1 a]|e]; cbn [bind];
      [|discriminate].
    destruct (mp_decode_uint (data t2) p2) as [[v2 b]|e]; cbn [bind];
      [|discriminate].
    destruct (Z.compare_spec v1 v2) as [E|E|E].
    + replace (v1 <? v2) with false by lia.
      replace (v1 >? v2) with false by lia.
      replace (v2 <? v1) with false by lia.
      replace (v2 >? v1) with false by lia.
      now intros [= <-].
    + replace (v1 <? v2) with true by lia.
      replace (v2 <? v1) with false by lia.
      replace (v2 >? v1) with true by lia.
      now intros [= <-].
    + replace (v1 <? v2) with false by lia.
      replace (v1 >? v2) with true by lia.
      replace (v2 <? v1) with true by lia.
      now intros [= <-].
  - destruct (mp_decode_string (data t1) p1) as [[[s1 l1] a]|e]; cbn [bind];
      [|discriminate].
    destruct (mp_decode_string (data t2) p2) as [[[s2 l2] b]|e]; cbn [bind];
      [|discriminate].
    cbv zeta. unfold memcmp.
    replace (if l2 <? l1 then l2 else l1) with (if l1 <? l2 then l1 else l2)
      by (destruct (l1 <? l2) eqn:E1, (l2 <? l1) eqn:E2; lia).
    destruct (load (data t1) s1 _) as [b1|e]; cbn [bind]; [|discriminate].
    destruct (load (data t2) s2 _) as [b2|e]; cbn [bind]; [|discriminate].
    rewrite (memcmp_bytes_swap b1 b2).
    destruct (memcmp_bytes b1 b2 =? 0) eqn:Er.
    + apply Z.eqb_eq in Er. rewrite Er. cbn [Z.opp Z.eqb negb].
      destruct (Z.compare_spec l1 l2) as [E|E|E].
      * replace (l1 <? l2) with false by lia.
        replace (l1 >? l2) with false by lia.
        replace (l2 <? l1) with false by lia.
        replace (l2 >? l1) with false by lia.
        now intros [= <-].
      * replace (l1 <? l2) with true by lia.
        replace (l2 <? l1) with false by lia.
        replace (l2 >? l1) with true by lia.
        now intros [= <-].
      * replace (l1 <? l2) with false by lia.
        replace (l1 >? l2) with true by lia.
        replace (l2 <? l1) with true by lia.
        now intros [= <-].
    + apply Z.eqb_neq in Er.
      replace (- memcmp_bytes b1 b2 =? 0) with false by lia.
      cbn [negb]. now intros [= <-].
Qed.

Lemma position_cursors_swap (def : KeyDef) (t1 t2 : Tuple) (i : Z)
    (part : KeyPart) (p1 p2 a b : Z) :
  position_cursors def t1 t2 i part p1 p2 = Ok (a, b) ->
  position_cursors def t2 t1 i part p2 p1 = Ok (b, a).
Proof.
  unfold position_cursors.
  destruct (must_reposition def i) as [[|]|e]; cbn [bind];
    [|congruence|discriminate].
  destruct (get_field t1 (field_no part)); cbn [bind]; [|discriminate].
  destruct (get_field t2 (field_no part)); cbn [bind]; [|discriminate].
  congruence.
Qed.

Lemma compare_parts_swap (def : KeyDef) (t1 t2 : Tuple) (n : nat) :
  forall i p1 p2 r,
  compare_parts def t1 t2 n i p1 p2 = Ok r ->
  compare_parts def t2 t1 n i p2 p1 = Ok (- r).
Proof.
  induction n as [|n IH]; intros i p1 p2 r H.
  - cbn in *. now injection H as <-.
  - cbn [compare_parts] in *.
    destruct (part_at def i) as [part|e]; cbn [bind] in *; [|discriminate].
    destruct (position_cursors def t1 t2 i part p1 p2) as [[a b]|e] eqn:Ep;
      cbn [bind] in H; [|discriminate].
    rewrite (position_cursors_swap _ _ _ _ _ _ _ _ _ Ep). cbn [bind].
    destruct (part_at def 0) as [part0|e]; cbn [bind] in *; [|discriminate].
    destruct (compare_fields (field_type part0) t1 t2 a b) as [s|e] eqn:Ec;
      cbn [bind] in H; [|discriminate].
    rewrite (compare_fields_swap _ _ _ _ _ _ Ec). cbn [bind].
    destruct s as [r0|q1 q2]; cbn [swap_step].
    + now injection H as <-.
    + now apply IH.
Qed.

(** X17. Exchanging the two tuples reverses the result: under any key
    definition and for any two tuples, when [default_tuple_compare] returns
    for [(t1, t2)] it returns for [(t2, t1)] as well, with the opposite
    ordering. *)
Theorem swapped_compare_is_opposite (def : KeyDef) (t1 t2 : Tuple) (r : Z) :
  default_tuple_compare def t1 t2 = Ok r ->
  exists r',
    default_tuple_compare def t2 t1 = Ok r' /\
    (r' ?= 0) = CompOpp (r ?= 0).
Proof.
  unfold default_tuple_compare.
  destruct (assert (0 <? part_count def)); cbn [bind]; [|discriminate].
  intros H. apply compare_parts_swap in H. exists (- r). split; [exact H|].
  destruct (Z.compare_spec r 0); cbn [CompOpp];
    [apply Z.compare_eq_iff | apply Z.compare_gt_iff | apply Z.compare_lt_iff];
    lia.
Qed.

Lemma swapped_compare_is_opposite_witness :
  exists r',
    default_tuple_compare string_pair_def tuple_b_abc tuple_b_ab = Ok r' /\
    (r' ?= 0) = CompOpp (-1 ?= 0).
Proof.
  apply (swapped_compare_is_opposite string_pair_def tuple_b_ab tuple_b_abc).
  reflexivity.
Defined.

(** ** bench_key_def: the scan of the key definition *)

Lemma length_list_set {A : Type} (a : list A) (i : nat) (x : A) :
  length (list_set a i x) = length a.
Proof.
  revert i. induction a as [|y a IH]; intros [|i]; cbn; auto.
Qed.

Lemma nth_error_list_set_eq {A : Type} (a : list A) (i : nat) (x : A) :
  (i < length a)%nat -> nth_error (list_set a i x) i = Some x.
Proof.
  revert i. induction a as [|y a IH]; intros [|i] H; cbn in *; try lia; auto.
  apply IH. lia.
Qed.

Lemma nth_error_list_set_neq {A : Type} (a : list A) (i j : nat) (x : A) :
  i <> j -> nth_error (list_set a i x) j = nth_error a j.
Proof.
  revert i j. induction a as [|y a IH]; intros [|i] [|j] H; cbn; auto.
  - contradiction.
Qed.

Lemma array_get_inv {A : Type} (a : list A) (i : Z) (x : A) :
  array_get a i = Ok x -> 0 <= i /\ nth_error a (Z.to_nat i) = Some x.
Proof.
  unfold array_get. destruct (0 <=? i) eqn:E; [|discriminate].
  destruct (nth_error a (Z.to_nat i)); [|discriminate].
  intros [= ->]. split; [lia|reflexivity].
Qed.

Lemma field_type_eqb_eq (a b : field_type_t) :
  field_type_eqb a b = true <-> a = b.
Proof.
  destruct a, b; cbn; split; intros H; try reflexivity; discriminate.
Qed.

Lemma scan_parts_inv (def : KeyDef) (n : nat) :
  forall i types max types' max',
  0 <= i ->
  scan_inv def i types max ->
  scan_parts def n i types max = Ok (types', max') ->
  scan_inv def (i + Z.of_nat n) types' max'.
Proof.
  induction n as [|n IH]; intros i types max types' max' Hi Hinv H.
  - cbn in H. injection H as <- <-. now rewrite Z.add_0_r.
  - cbn [scan_parts] in H.
    destruct (part_at def i) as [part|e] eqn:Hp; cbn [bind] in H;
      [|discriminate].
    change TEST_FIELD_COUNT_IN_TUPLE with 16 in H.
    destruct (field_no part <? 16) eqn:Hlt; cbn [assert bind] in H;
      [|discriminate].
    destruct (array_get types (field_no part)) as [ty|e] eqn:Hg;
      cbn [bind] in H; [|discriminate].
    apply array_get_inv in Hg as [Hf0 Hg].
    destruct (field_type_eqb ty UNDEFINED) eqn:Hu; cbn [assert bind] in H;
      [|discriminate].
    apply field_type_eqb_eq in Hu. subst ty.
    destruct Hinv as (Hlen & Hmax & Hparts & Hdist & Hwit).
    unfold array_set in H. unfold zlen in H. rewrite Hlen in H.
    replace ((0 <=? field_no part) && (field_no part <? Z.of_nat 16))
      with true in H
      by (symmetry; apply andb_true_intro; split;
          [apply Z.leb_le | apply Z.ltb_lt]; lia).
    cbn [bind] in H.
    set (types1 := list_set types (Z.to_nat (field_no part)) (field_type part))
      in *.
    assert (Hnew : nth_error types1 (Z.to_nat (field_no part))
                   = Some (field_type part))
      by (apply nth_error_list_set_eq; lia).
    unfold array_get in H.
    replace (0 <=? field_no part) with true in H
      by (symmetry; apply Z.leb_le; lia).
    rewrite Hnew in H. cbn [bind] in H.
    destruct (field_type_eqb (field_type part) UNDEFINED) eqn:Hd;
      cbn [negb assert bind] in H; [discriminate|].
    assert (Hdef : field_type part <> UNDEFINED).
    { intros E. apply field_type_eqb_eq in E. congruence. }
    set (max1 := if (i =? 0) || (field_no part >? max) then field_no part
                 else max) in *.
    replace (i + Z.of_nat (S n)) with ((i + 1) + Z.of_nat n) by lia.
    apply (IH (i + 1) types1 max1); [lia| |exact H].
    assert (Hold : forall j, 0 <= j < i ->
              forall p, part_at def j = Ok p -> field_no p <> field_no part).
    { intros j Hj p Hpj E.
      destruct (Hparts j Hj) as (p' & Hp' & _ & _ & Hne & Hn).
      rewrite Hpj in Hp'. injection Hp' as <-.
      rewrite E, Hg in Hn. congruence. }
    assert (Hm1 : max1 = field_no part \/ (0 < i /\ max1 = max /\
                                           field_no part <= max)).
    { unfold max1. destruct (i =? 0) eqn:E0; [now left|].
      destruct (field_no part >? max) eqn:E1; [now left|].
      right. cbn [orb]. lia. }
    split; [unfold types1; now rewrite length_list_set|].
    split; [destruct Hm1 as [->|(_ & -> & _)]; lia|].
    split; [|split].
    + intros j Hj. destruct (Z.eq_dec j i) as [->|Hne].
      * exists part. repeat split; try assumption; try lia.
      * destruct (Hparts j ltac:(lia)) as (p & Hpj & Hr & Hle & Hty & Hn).
        exists p. repeat split; try assumption; try lia.
        -- destruct Hm1 as [Hm1|(Hi0 & -> & _)]; [|lia].
           rewrite Hm1. unfold max1 in Hm1.
           destruct (i =? 0) eqn:E0; [lia|].
           destruct (field_no part >? max) eqn:E1; cbn [orb] in Hm1; lia.
        -- unfold types1. rewrite nth_error_list_set_neq; [exact Hn|].
           pose proof (Hold j ltac:(lia) p Hpj). lia.
    + intros j1 j2 p1 p2 Hj1 Hj2 Hp1 Hp2.
      destruct (Z.eq_dec j2 i) as [->|Hne].
      * rewrite Hp in Hp2. injection Hp2 as <-.
        apply (Hold j1); [lia|exact Hp1].
      * apply (Hdist j1 j2); auto; lia.
    + intros _. destruct Hm1 as [->|(Hi0 & -> & _)].
      * exists i, part. repeat split; auto; lia.
      * destruct (Hwit Hi0) as (j & p & Hj & Hpj & E).
        exists j, p. repeat split; auto; lia.
Qed.

Lemma scan_key_def_inv (def : KeyDef) (types : list field_type_t)
    (max_field_no : Z) :
  scan_key_def def = Ok (types, max_field_no) ->
  scan_inv def (0 + Z.of_nat (Z.to_nat (part_count def))) types max_field_no.
Proof.
  intros Hscan. unfold scan_key_def in Hscan.
  apply scan_parts_inv in Hscan; [exact Hscan|lia|].
  split; [reflexivity|]. split; [lia|].
  split; [intros j Hj; lia|].
  split; [intros; lia|]. intros Hc. lia.
Qed.

(** X18. The scan at the head of [bench_key_def], when it passes all its
    assertions: every key part names a field below 16 and declares UINT or
    STRING, no two parts name one field, the array [field_type] holds each
    part's type at the field it names, and [max_field_no] is the largest
    field number a part names. *)
Theorem scan_key_def_accepts (def : KeyDef) (types : list field_type_t)
    (max_field_no : Z) :
  scan_key_def def = Ok (types, max_field_no) ->
  length types = 16%nat /\
  0 <= max_field_no < 16 /\
  (forall j, 0 <= j < part_count def ->
     exists part,
       part_at def j = Ok part /\
       0 <= field_no part < 16 /\
       field_no part <= max_field_no /\
       (field_type part = UINT \/ field_type part = STRING) /\
       nth_error types (Z.to_nat (field_no part)) = Some (field_type part)) /\
  (forall j1 j2 p1 p2, 0 <= j1 < j2 -> j2 < part_count def ->
     part_at def j1 = Ok p1 -> part_at def j2 = Ok p2 ->
     field_no p1 <> field_no p2) /\
  (0 < part_count def ->
     exists j part,
       0 <= j < part_count def /\ part_at def j = Ok part /\
       field_no part = max_field_no).
Proof.
  intros H. apply scan_key_def_inv in H.
  destruct H as (Hlen & Hmax & Hparts & Hdist & Hwit).
  split; [exact Hlen|]. split; [exact Hmax|].
  split; [|split].
  - intros j Hj. destruct (Hparts j ltac:(lia)) as (p & Hp & ? & ? & Hty & ?).
    exists p. repeat split; try assumption; try lia.
    destruct (field_type p); auto. contradiction.
  - intros j1 j2 p1 p2 Hj1 Hj2. apply Hdist; lia.
  - intros Hpos. destruct (Hwit ltac:(lia)) as (j & p & Hj & Hp & E).
    exists j, p. repeat split; auto; lia.
Qed.

Lemma scan_key_def_accepts_witness :
  length string_pair_field_types = 16%nat /\
  0 <= 2 < 16 /\
  (forall j, 0 <= j < part_count string_pair_def ->
     exists part,
       part_at string_pair_def j = Ok part /\
       0 <= field_no part < 16 /\
       field_no part <= 2 /\
       (field_type part = UINT \/ field_type part = STRING) /\
       nth_error string_pair_field_types (Z.to_nat (field_no part))
       = Some (field_type part)) /\
  (forall j1 j2 p1 p2, 0 <= j1 < j2 -> j2 < part_count string_pair_def ->
     part_at string_pair_def j1 = Ok p1 -> part_at string_pair_def j2 = Ok p2 ->
     field_no p1 <> field_no p2) /\
  (0 < part_count string_pair_def ->
     exists j part,
       0 <= j < part_count string_pair_def /\
       part_at string_pair_def j = Ok part /\
       field_no part = 2).
Proof.
  apply (scan_key_def_accepts string_pair_def). reflexivity.
Defined.

(** ** bench_key_def: the generated tuples *)

Lemma array_set_Ok {A : Type} (a : list A) (i : Z) (x : A) :
  0 <= i < zlen a ->
  array_set a i x = Ok (list_set a (Z.to_nat i) x).
Proof.
  intros H. unfold array_set.
  replace ((0 <=? i) && (i <? zlen a)) with true; [reflexivity|].
  symmetry. apply andb_true_intro.
  split; [apply Z.leb_le | apply Z.ltb_lt]; lia.
Qed.

Lemma fill_string_Ok (rand : nat -> Z) (n : nat) :
  forall string k c,
  0 <= k -> k + Z.of_nat n <= zlen string ->
  exists string',
    fill_string rand string n k c = Ok (string', (c + n)%nat) /\
    zlen string' = zlen string.
Proof.
  induction n as [|n IH]; intros string k c Hk Hn.
  - exists string. cbn. now rewrite Nat.add_0_r.
  - cbn [fill_string]. rewrite array_set_Ok by lia. cbn [bind].
    destruct (IH (list_set string (Z.to_nat k)
                    (byte_of_Z (97 + rand c mod 20))) (k + 1) (S c))
      as (s' & Hs' & Hlen).
    + lia.
    + unfold zlen in *. rewrite length_list_set. lia.
    + exists s'. rewrite Hs'. split.
      * do 2 f_equal. lia.
      * rewrite Hlen. unfold zlen. now rewrite length_list_set.
Qed.

Lemma add_string_add (t : Tuple) (string : list byte) (len : Z) :
  0 <= len <= zlen string ->
  add_string t string len = add t (FString (firstn (Z.to_nat len) string)).
Proof.
  intros H. unfold add, add_string.
  rewrite zlen_firstn by exact H.
  now rewrite mp_encode_string_firstn by exact H.
Qed.

Lemma zlen_short_string_wire (s : list byte) :
  zlen s <= 8 -> zlen (string_wire s) <= 9.
Proof.
  intros H. unfold string_wire, string_header. rewrite zlen_app.
  replace (zlen s <=? 31) with true by (symmetry; apply Z.leb_le; lia).
  change (zlen [byte_of_Z (Z.lor 160 (zlen s))]) with 1. lia.
Qed.

(** A field the generation loop can produce: with [generated], of the
    argument types of [add], and of at most 9 bytes on the wire. *)
Lemma generated_small (ty : field_type_t) (f : field_value) :
  generated ty f -> valid_field f /\ zlen (field_wire f) <= 9.
Proof.
  destruct f as [v|s]; cbn [generated valid_field field_wire].
  - intros (_ & Hv). split; [lia|]. pose proof (zlen_uint_wire_bound v). lia.
  - intros (_ & Hs). split; [lia|]. apply zlen_short_string_wire. lia.
Qed.

Section Generation.

Variable rand : nat -> Z.
Hypothesis rand_range : forall n, 0 <= rand n < 2 ^ 31.
Variable junk : nat -> list byte.
Hypothesis junk_size : forall n, zlen (junk n) = 16.

Lemma gen_field_inv (k : Z) (fs : list field_value) (ty : field_type_t)
    (t : Tuple) (c : nat) :
  tuple_inv k fs t ->
  slots_size k + zlen (payload fs) + 9 <= MAX_TEST_TUPLE_DATA_SIZE ->
  exists t' c' f,
    gen_field rand junk ty t c = Ok (t', c') /\
    add t f = Ok t' /\
    tuple_inv k (fs ++ [f]) t' /\
    generated ty f.
Proof.
  intros Hinv Hroom. unfold gen_field.
  set (choice := if field_type_eqb ty UNDEFINED
                 then (if negb (rand c mod 2 =? 0) then UINT else STRING, S c)
                 else (ty, c)).
  assert (Hchoice : (fst choice = UINT /\ ty <> STRING) \/
                    (fst choice = STRING /\ ty <> UINT)).
  { unfold choice. destruct ty; cbn.
    - left. split; [reflexivity|discriminate].
    - right. split; [reflexivity|discriminate].
    - destruct (rand c mod 2 =? 0); cbn;
        [right|left]; (split; [reflexivity|discriminate]). }
  destruct choice as [generate_type c0]. cbn [fst] in Hchoice.
  assert (Hadd : forall f, generated ty f ->
            exists t', add t f = Ok t' /\ tuple_inv k (fs ++ [f]) t').
  { intros f Hf. apply add_inv; [exact Hinv|].
    rewrite payload_snoc, zlen_app.
    pose proof (proj2 (generated_small ty f Hf)). lia. }
  destruct Hchoice as [(-> & Hty)|(-> & Hty)]; cbn [field_type_eqb].
  - destruct (Hadd (FUint (rand c0))) as (t' & Ht' & Hinv').
    { split; [exact Hty|apply rand_range]. }
    exists t', (S c0), (FUint (rand c0)).
    cbn [add] in Ht'. rewrite Ht'. cbn [bind].
    split; [reflexivity|]. split; [exact Ht'|]. split; [exact Hinv'|].
    split; [exact Hty|apply rand_range].
  - set (len := (3 + rand c0 mod 6) mod 2 ^ 32).
    assert (Hlen : 3 <= len <= 8).
    { unfold len. pose proof (Z.mod_pos_bound (rand c0) 6 ltac:(lia)).
      rewrite Z.mod_small; lia. }
    destruct (fill_string_Ok rand (Z.to_nat len) (junk c0) 0 (S c0))
      as (string & Hfill & Hsize); [lia|rewrite junk_size; lia|].
    rewrite junk_size in Hsize.
    rewrite Hfill. cbn [bind].
    rewrite add_string_add by lia.
    destruct (Hadd (FString (firstn (Z.to_nat len) string)))
      as (t' & Ht' & Hinv').
    { split; [exact Hty|]. rewrite zlen_firstn by lia. exact Hlen. }
    exists t', (S c0 + Z.to_nat len)%nat,
      (FString (firstn (Z.to_nat len) string)).
    rewrite Ht'. cbn [bind].
    split; [reflexivity|]. split; [reflexivity|]. split; [exact Hinv'|].
    split; [exact Hty|]. rewrite zlen_firstn by lia. exact Hlen.
Qed.

Lemma gen_fields_inv (k : Z) (types : list field_type_t) :
  forall pre t c,
  tuple_inv k pre t ->
  slots_size k + zlen (payload pre) + 9 * zlen types
    <= MAX_TEST_TUPLE_DATA_SIZE ->
  exists t' c' fs,
    gen_fields rand junk types t c = Ok (t', c') /\
    add_all t fs = Ok t' /\
    tuple_inv k (pre ++ fs) t' /\
    Forall2 generated types fs.
Proof.
  induction types as [|ty types IH]; intros pre t c Hinv Hroom.
  - exists t, c, []. cbn. rewrite app_nil_r. auto.
  - assert (Hz : zlen (ty :: types) = 1 + zlen types)
      by (unfold zlen; cbn [length]; lia).
    pose proof (zlen_nonneg types) as Hnn.
    destruct (gen_field_inv k pre ty t c Hinv ltac:(lia))
      as (t1 & c1 & f & Hgen & Hadd & Hinv1 & Hf).
    destruct (IH (pre ++ [f]) t1 c1 Hinv1) as (t' & c' & fs & Hgens & Hall
                                               & Hinv' & Hfs).
    { rewrite payload_snoc, zlen_app.
      pose proof (proj2 (generated_small ty f Hf)). lia. }
    exists t', c', (f :: fs). cbn [gen_fields add_all].
    rewrite Hgen, Hadd. cbn [bind].
    rewrite <- app_assoc in Hinv'. auto.
Qed.

End Generation.

Lemma generated_valid (types : list field_type_t) (fs : list field_value) :
  Forall2 generated types fs -> Forall valid_field fs.
Proof.
  induction 1 as [|ty f types fs Hf _ IH]; constructor; [|exact IH].
  exact (proj1 (generated_small ty f Hf)).
Qed.

Lemma Forall2_nth_error_left {A B : Type} (R : A -> B -> Prop)
    (l : list A) (l' : list B) (n : nat) (a : A) :
  Forall2 R l l' -> nth_error l n = Some a ->
  exists b, nth_error l' n = Some b /\ R a b.
Proof.
  intros H. revert n. induction H as [|x y l l' Hxy _ IH]; intros [|n] Hn;
    cbn in *; try discriminate.
  - injection Hn as <-. eauto.
  - apply IH. exact Hn.
Qed.

Lemma generated_has_type (ty : field_type_t) (f : field_value) :
  ty <> UNDEFINED -> generated ty f -> has_type ty f.
Proof.
  destruct ty, f; cbn; intros Hu (Hty & _); auto; congruence.
Qed.

(** The scan and the generation together: the fields of a generated tuple
    are of the types the key parts declare, inside the indexed prefix. *)
Lemma scan_generated_conforms (def : KeyDef) (types : list field_type_t)
    (max_field_no : Z) (fs : list field_value) :
  scan_key_def def = Ok (types, max_field_no) ->
  Forall2 generated types fs ->
  conforms def (max_field_no + 1) fs.
Proof.
  intros Hscan Hfs. apply scan_key_def_inv in Hscan.
  destruct Hscan as (_ & _ & Hparts & _).
  intros j Hj.
  destruct (Hparts j ltac:(lia)) as (p & Hp & Hr & Hle & Hty & Hn).
  destruct (Forall2_nth_error_left _ _ _ _ _ Hfs Hn) as (f & Hf & Hg).
  exists p, f. repeat split; try assumption; try lia.
  apply generated_has_type; assumption.
Qed.

Lemma scan_key_def_shape (def : KeyDef) (types : list field_type_t)
    (max_field_no : Z) :
  scan_key_def def = Ok (types, max_field_no) ->
  length types = 16%nat /\ 0 <= max_field_no < 16.
Proof.
  intros Hscan. apply scan_key_def_inv in Hscan.
  destruct Hscan as (H1 & H2 & _). auto.
Qed.

Lemma gen_tuple_built (rand : nat -> Z) (junk : nat -> list byte)
    (types : list field_type_t) (max_field_no : Z) (t0 : Tuple) (c : nat) :
  (forall n, 0 <= rand n < 2 ^ 31) ->
  (forall n, zlen (junk n) = 16) ->
  zlen (data t0) = MAX_TEST_TUPLE_DATA_SIZE ->
  length types = 16%nat ->
  0 <= max_field_no < 16 ->
  exists t c' fs,
    gen_tuple rand junk types max_field_no t0 c = Ok (t, c') /\
    built (max_field_no + 1) fs t /\
    Forall2 generated types fs.
Proof.
  intros Hrand Hjunk Hdata Htypes Hmax. unfold gen_tuple.
  rewrite (Z.mod_small (max_field_no + 1)) by lia.
  assert (Hslots : slots_size (max_field_no + 1) = 4 * max_field_no)
    by (unfold slots_size, sizeof_offset_t; lia).
  assert (Hsize : MAX_TEST_TUPLE_DATA_SIZE = 256) by reflexivity.
  destruct (reset_inv t0 (max_field_no + 1) Hdata ltac:(lia) ltac:(lia))
    as (tr & Hreset & Hinv).
  rewrite Hreset. cbn [bind].
  destruct (gen_fields_inv rand Hrand junk Hjunk (max_field_no + 1) types
              [] tr c Hinv) as (t & c' & fs & Hgen & Hall & _ & Hfs).
  { change (zlen (payload [])) with 0. unfold zlen. rewrite Htypes. lia. }
  exists t, c', fs. split; [exact Hgen|]. split; [|exact Hfs].
  exists t0. split; [exact Hdata|]. split; [lia|]. split; [lia|].
  split; [exact (generated_valid types fs Hfs)|].
  unfold build. rewrite Hreset. exact Hall.
Qed.

(** X19. For a key definition the scan accepts, whatever [rand] returns
    (within [0, 2^31)) and whatever the string buffer held, one round of
    the generation loop runs to its end without failure: the 16 fields fit
    in the 256 bytes of the tuple, the tuple is the one [reset] and 16 calls
    of [add] build, every field is an integer below 2^31 or a string of 3 to
    8 bytes, and every field a key part names has the type the part
    declares and lies in the indexed prefix. *)
Theorem generated_tuple_fits_key_def (def : KeyDef)
    (types : list field_type_t) (max_field_no : Z)
    (rand : nat -> Z) (junk : nat -> list byte) (t0 : Tuple) (c : nat) :
  scan_key_def def = Ok (types, max_field_no) ->
  (forall n, 0 <= rand n < 2 ^ 31) ->
  (forall n, zlen (junk n) = 16) ->
  zlen (data t0) = MAX_TEST_TUPLE_DATA_SIZE ->
  exists t c' fs,
    gen_tuple rand junk types max_field_no t0 c = Ok (t, c') /\
    built (max_field_no + 1) fs t /\
    field_count t = TEST_FIELD_COUNT_IN_TUPLE /\
    data_used t <= MAX_TEST_TUPLE_DATA_SIZE /\
    Forall2 generated types fs /\
    conforms def (max_field_no + 1) fs.
Proof.
  intros Hscan Hrand Hjunk Hdata.
  destruct (scan_key_def_shape def types max_field_no Hscan) as (Hlen & Hmax).
  destruct (gen_tuple_built rand junk types max_field_no t0 c
              Hrand Hjunk Hdata Hlen Hmax) as (t & c' & fs & Hgen & Hb & Hfs).
  exists t, c', fs. split; [exact Hgen|]. split; [exact Hb|].
  pose proof (built_inv _ _ _ Hb) as Hinv.
  split; [|split; [|split]].
  - rewrite (inv_count _ _ _ Hinv). unfold zlen.
    rewrite <- (Forall2_length Hfs), Hlen. reflexivity.
  - rewrite (inv_used _ _ _ Hinv). exact (inv_fit _ _ _ Hinv).
  - exact Hfs.
  - exact (scan_generated_conforms def types max_field_no fs Hscan Hfs).
Qed.

Lemma sample_rand_range (n : nat) : 0 <= sample_rand n < 2 ^ 31.
Proof. unfold sample_rand. apply Z.mod_pos_bound. lia. Qed.

Lemma generated_tuple_fits_key_def_witness :
  exists t c' fs,
    gen_tuple sample_rand zero_junk string_pair_field_types 2
      blank_tuple 0 = Ok (t, c') /\
    built (2 + 1) fs t /\
    field_count t = TEST_FIELD_COUNT_IN_TUPLE /\
    data_used t <= MAX_TEST_TUPLE_DATA_SIZE /\
    Forall2 generated string_pair_field_types fs /\
    conforms string_pair_def (2 + 1) fs.
Proof.
  apply (generated_tuple_fits_key_def string_pair_def
           string_pair_field_types 2 sample_rand zero_junk
           blank_tuple 0).
  - reflexivity.
  - exact sample_rand_range.
  - reflexivity.
  - reflexivity.
Defined.

(** ** bench_key_def: the timed comparisons *)

(** X20. The comparisons of the timed loop are well defined for the key
    definitions [main] benchmarks: when the key definition has at least one
    part, all parts declare one type, the scan accepts it and the comparator
    installed is [default_tuple_compare], any two generated tuples are
    compared without a failed assertion or a read outside the buffers, and
    the sign of the result is the lexicographic order of the two keys. *)
Theorem generated_tuples_compare (def : KeyDef) (ty : field_type_t)
    (types : list field_type_t) (max_field_no : Z)
    (rand : nat -> Z) (junk : nat -> list byte) (t01 t02 : Tuple)
    (c1 c2 : nat) :
  tuple_compare_f def = DefaultTupleCompare ->
  0 < part_count def ->
  homogeneous def ty ->
  scan_key_def def = Ok (types, max_field_no) ->
  (forall n, 0 <= rand n < 2 ^ 31) ->
  (forall n, zlen (junk n) = 16) ->
  zlen (data t01) = MAX_TEST_TUPLE_DATA_SIZE ->
  zlen (data t02) = MAX_TEST_TUPLE_DATA_SIZE ->
  exists t1 c1' fs1 t2 c2' fs2 r,
    gen_tuple rand junk types max_field_no t01 c1 = Ok (t1, c1') /\
    gen_tuple rand junk types max_field_no t02 c2 = Ok (t2, c2') /\
    built (max_field_no + 1) fs1 t1 /\
    built (max_field_no + 1) fs2 t2 /\
    call_tuple_compare def t1 t2 = Ok r /\
    (r ?= 0) = lex compare_values (key_of def fs1) (key_of def fs2).
Proof.
  intros Hf Hpc Hhom Hscan Hrand Hjunk Hd1 Hd2.
  destruct (scan_key_def_shape def types max_field_no Hscan) as (Hlen & Hmax).
  destruct (gen_tuple_built rand junk types max_field_no t01 c1
              Hrand Hjunk Hd1 Hlen Hmax) as (t1 & c1' & fs1 & Hg1 & Hb1 & Hfs1).
  destruct (gen_tuple_built rand junk types max_field_no t02 c2
              Hrand Hjunk Hd2 Hlen Hmax) as (t2 & c2' & fs2 & Hg2 & Hb2 & Hfs2).
  pose proof (scan_generated_conforms def types max_field_no fs1 Hscan Hfs1)
    as Hc1.
  pose proof (scan_generated_conforms def types max_field_no fs2 Hscan Hfs2)
    as Hc2.
  pose proof (default_tuple_compare_lex _ _ _ _ _ _ Hb1 Hb2 def ty
                Hpc Hhom Hc1 Hc2) as Hord.
  destruct (default_tuple_compare def t1 t2) as [r|e] eqn:Hcmp;
    cbn [ordering] in Hord; [|discriminate].
  injection Hord as Hord.
  exists t1, c1', fs1, t2, c2', fs2, r.
  unfold call_tuple_compare. rewrite Hf.
  repeat (split; [assumption|]). exact Hord.
Qed.

Lemma generated_tuples_compare_witness :
  exists t1 c1' fs1 t2 c2' fs2 r,
    gen_tuple sample_rand zero_junk string_pair_field_types 2
      blank_tuple 0 = Ok (t1, c1') /\
    gen_tuple sample_rand zero_junk string_pair_field_types 2
      blank_tuple 95 = Ok (t2, c2') /\
    built (2 + 1) fs1 t1 /\
    built (2 + 1) fs2 t2 /\
    call_tuple_compare string_pair_def t1 t2 = Ok r /\
    (r ?= 0) = lex compare_values (key_of string_pair_def fs1)
                 (key_of string_pair_def fs2).
Proof.
  apply (generated_tuples_compare string_pair_def STRING
           string_pair_field_types 2 sample_rand zero_junk
           blank_tuple blank_tuple 0 95).
  - reflexivity.
  - reflexivity.
  - exact homogeneous_string_pair.
  - reflexivity.
  - exact sample_rand_range.
  - reflexivity.
  - reflexivity.
  - reflexivity.
Defined.

(** ** bench_key_def: the uninitialised string buffer *)

Lemma firstn_list_set {A : Type} (a : list A) (k : nat) (x : A) :
  (k < length a)%nat ->
  firstn (S k) (list_set a k x) = firstn k a ++ [x].
Proof.
  revert k. induction a as [|y a IH]; intros [|k] H; cbn [length] in H;
    try lia.
  - reflexivity.
  - cbn [list_set]. rewrite firstn_cons, (firstn_cons k), IH by lia.
    reflexivity.
Qed.

(** The bytes [fill_string] leaves below the end of the range it writes do
    not depend on what the buffer held at and behind the start of the
    range. *)
Lemma fill_string_prefix (rand : nat -> Z) (n : nat) :
  forall s1 s2 k c r1 r2 c1 c2,
  (k + n <= length s1)%nat ->
  length s1 = length s2 ->
  firstn k s1 = firstn k s2 ->
  fill_string rand s1 n (Z.of_nat k) c = Ok (r1, c1) ->
  fill_string rand s2 n (Z.of_nat k) c = Ok (r2, c2) ->
  c1 = c2 /\ firstn (k + n) r1 = firstn (k + n) r2.
Proof.
  induction n as [|n IH]; intros s1 s2 k c r1 r2 c1 c2 Hn Hlen Hpre H1 H2.
  - cbn in H1, H2. injection H1 as <- <-. injection H2 as <- <-.
    rewrite Nat.add_0_r. auto.
  - cbn [fill_string] in H1, H2.
    rewrite array_set_Ok in H1 by (unfold zlen; lia).
    rewrite array_set_Ok in H2 by (unfold zlen; lia).
    cbn [bind] in H1, H2. rewrite Nat2Z.id in H1, H2.
    replace (Z.of_nat k + 1) with (Z.of_nat (S k)) in H1, H2 by lia.
    replace (k + S n)%nat with (S k + n)%nat by lia.
    refine (IH _ _ (S k) (S c) r1 r2 c1 c2 _ _ _ H1 H2).
    + rewrite length_list_set. lia.
    + now rewrite !length_list_set.
    + rewrite !firstn_list_set by lia. now rewrite Hpre.
Qed.

(** X21. The generation loop never uses what the string buffer held when
    it was declared: whatever the uninitialised [char string[16]] contains,
    one round of the loop gives the same tuple and makes the same calls of
    [rand]. *)
Theorem generation_ignores_uninitialised_bytes (rand : nat -> Z)
    (junk junk' : nat -> list byte) (types : list field_type_t)
    (max_field_no : Z) (t : Tuple) (c : nat) :
  (forall n, zlen (junk n) = 16) ->
  (forall n, zlen (junk' n) = 16) ->
  gen_tuple rand junk types max_field_no t c
  = gen_tuple rand junk' types max_field_no t c.
Proof.
  intros Hj Hj'. unfold gen_tuple.
  destruct (reset t ((max_field_no + 1) mod 2 ^ 32)) as [tr|e];
    [|reflexivity].
  cbn [bind]. clear t. revert tr c.
  induction types as [|ty types IH]; intros t c; [reflexivity|].
  cbn [gen_fields].
  assert (Hfield : gen_field rand junk ty t c = gen_field rand junk' ty t c).
  { unfold gen_field.
    destruct (if field_type_eqb ty UNDEFINED
              then (if negb (rand c mod 2 =? 0) then UINT else STRING, S c)
              else (ty, c)) as [generate_type c0].
    destruct (field_type_eqb generate_type UINT); [reflexivity|].
    set (len := (3 + rand c0 mod 6) mod 2 ^ 32).
    assert (Hlen : 3 <= len <= 8).
    { unfold len. pose proof (Z.mod_pos_bound (rand c0) 6 ltac:(lia)).
      rewrite Z.mod_small; lia. }
    destruct (fill_string_Ok rand (Z.to_nat len) (junk c0) 0 (S c0))
      as (s1 & H1 & Hs1); [lia|rewrite Hj; lia|].
    destruct (fill_string_Ok rand (Z.to_nat len) (junk' c0) 0 (S c0))
      as (s2 & H2 & Hs2); [lia|rewrite Hj'; lia|].
    rewrite Hj in Hs1. rewrite Hj' in Hs2.
    rewrite H1, H2. cbn [bind].
    rewrite !add_string_add by lia.
    assert (Hpre : firstn (0 + Z.to_nat len) s1
                   = firstn (0 + Z.to_nat len) s2).
    { pose proof (Hj c0) as Hz. pose proof (Hj' c0) as Hz'.
      unfold zlen in Hz, Hz'.
      refine (proj2 (fill_string_prefix rand (Z.to_nat len) (junk c0)
                       (junk' c0) 0 (S c0) s1 s2 _ _ _ _ _ H1 H2));
        [lia|lia|reflexivity]. }
    cbn [Nat.add] in Hpre. now rewrite Hpre. }
  rewrite Hfield.
  destruct (gen_field rand junk' ty t c) as [[t1 c1]|e]; [|reflexivity].
  cbn [bind]. apply IH.
Qed.

Lemma generation_ignores_uninitialised_bytes_witness :
  gen_tuple sample_rand zero_junk string_pair_field_types 2 blank_tuple 0
  = gen_tuple sample_rand (fun c => repeat xff 16) string_pair_field_types 2
      blank_tuple 0.
Proof.
  apply (generation_ignores_uninitialised_bytes sample_rand zero_junk
           (fun c => repeat xff 16) string_pair_field_types 2 blank_tuple 0).
  - intros n. reflexivity.
  - intros n. reflexivity.
Defined.

(** ** bench_key_def: the key definitions the scan accepts *)

Lemma scan_parts_Ok (def : KeyDef) (n : nat) :
  forall i types max,
  0 <= i ->
  length types = 16%nat ->
  (forall j, i <= j < i + Z.of_nat n ->
     exists part,
       part_at def j = Ok part /\
       0 <= field_no part < 16 /\
       field_type part <> UNDEFINED /\
       nth_error types (Z.to_nat (field_no part)) = Some UNDEFINED) ->
  (forall j1 j2 p1 p2, i <= j1 < j2 -> j2 < i + Z.of_nat n ->
     part_at def j1 = Ok p1 -> part_at def j2 = Ok p2 ->
     field_no p1 <> field_no p2) ->
  exists types' max', scan_parts def n i types max = Ok (types', max').
Proof.
  induction n as [|n IH]; intros i types max Hi Hlen Hparts Hdist.
  - cbn. eauto.
  - destruct (Hparts i ltac:(lia)) as (part & Hp & Hr & Hty & Hn).
    cbn [scan_parts]. rewrite Hp. cbn [bind].
    change TEST_FIELD_COUNT_IN_TUPLE with 16.
    replace (field_no part <? 16) with true
      by (symmetry; apply Z.ltb_lt; lia).
    cbn [assert bind]. unfold array_get at 1.
    replace (0 <=? field_no part) with true
      by (symmetry; apply Z.leb_le; lia).
    rewrite Hn. cbn [bind field_type_eqb assert].
    rewrite array_set_Ok by (unfold zlen; rewrite Hlen; lia).
    cbn [bind]. unfold array_get.
    replace (0 <=? field_no part) with true
      by (symmetry; apply Z.leb_le; lia).
    rewrite nth_error_list_set_eq by lia. cbn [bind].
    destruct (field_type_eqb (field_type part) UNDEFINED) eqn:Hu.
    { apply field_type_eqb_eq in Hu. contradiction. }
    cbn [negb assert bind].
    apply IH.
    + lia.
    + now rewrite length_list_set.
    + intros j Hj.
      destruct (Hparts j ltac:(lia)) as (p & Hpj & Hrj & Htyj & Hnj).
      exists p. repeat split; try assumption; try lia.
      rewrite nth_error_list_set_neq; [exact Hnj|].
      pose proof (Hdist i j part p ltac:(lia) ltac:(lia) Hp Hpj). lia.
    + intros j1 j2 p1 p2 Hj1 Hj2. apply Hdist; lia.
Qed.

(** X22. The scan at the head of [bench_key_def] passes its assertions
    exactly for the key definitions whose parts all exist, name fields
    below 16, declare a type other than UNDEFINED and name pairwise
    different fields. *)
Theorem scan_key_def_returns_iff (def : KeyDef) :
  (exists types max_field_no, scan_key_def def = Ok (types, max_field_no))
  <->
  (forall j, 0 <= j < part_count def ->
     exists part,
       part_at def j = Ok part /\
       0 <= field_no part < 16 /\
       field_type part <> UNDEFINED) /\
  (forall j1 j2 p1 p2, 0 <= j1 < j2 -> j2 < part_count def ->
     part_at def j1 = Ok p1 -> part_at def j2 = Ok p2 ->
     field_no p1 <> field_no p2).
Proof.
  split.
  - intros (types & max & Hscan). apply scan_key_def_inv in Hscan.
    destruct Hscan as (_ & _ & Hparts & Hdist & _). split.
    + intros j Hj.
      destruct (Hparts j ltac:(lia)) as (p & Hp & Hr & _ & Hty & _).
      exists p. auto.
    + intros j1 j2 p1 p2 Hj1 Hj2. apply Hdist; lia.
  - intros (Hparts & Hdist). unfold scan_key_def.
    apply scan_parts_Ok.
    + lia.
    + reflexivity.
    + intros j Hj.
      destruct (Hparts j ltac:(lia)) as (p & Hp & Hr & Hty).
      exists p. repeat split; try assumption; try lia.
      apply nth_error_repeat. change (Z.to_nat TEST_FIELD_COUNT_IN_TUPLE)
        with 16%nat. lia.
    + intros j1 j2 p1 p2 Hj1 Hj2. apply Hdist; lia.
Qed.

Lemma scan_key_def_returns_iff_witness :
  (forall j, 0 <= j < part_count string_pair_def ->
     exists part,
       part_at string_pair_def j = Ok part /\
       0 <= field_no part < 16 /\
       field_type part <> UNDEFINED) /\
  (forall j1 j2 p1 p2, 0 <= j1 < j2 -> j2 < part_count string_pair_def ->
     part_at string_pair_def j1 = Ok p1 -> part_at string_pair_def j2 = Ok p2 ->
     field_no p1 <> field_no p2).
Proof.
  apply (proj1 (scan_key_def_returns_iff string_pair_def)).
  exists string_pair_field_types, 2. reflexivity.
Defined.
